(** * mouse-tool: the SGR mouse decoder and the capture loops of [main.c]

    A shallow embedding of [src/main.c].  The terminal, the clock and the
    allocator are an explicit [world] threaded through every call; the C
    functions keep their names.  Integers are [Z] with the conversions of
    the ABI written out (LP64: [int] is 32 bits, [long], [time_t] and
    [size_t] are 64 bits); [double] is the binary64 of [PrimFloat].

    The first part is the program, in the order of the source; the
    second part states and proves its properties, by component: the
    decoder, multi-click mode, the capture loop, record mode, marks, the
    batched output. *)

From Stdlib Require Import String Ascii ZArith Bool Lia Arith DecimalString List.
From Stdlib Require Import Floats.PrimFloat Floats.FloatOps Floats.SpecFloat.
From Stdlib Require Import Floats.FloatAxioms.
Import ListNotations.
Local Open Scope string_scope.
Local Open Scope list_scope.
Local Open Scope Z_scope.

(* ================================================================== *)
(** * Machine arithmetic                                                *)
(* ================================================================== *)

Module Mach.

Definition INT_MAX : Z := 2147483647.
Definition INT_MIN : Z := -2147483648.
Definition LONG_MAX : Z := 9223372036854775807.
Definition LONG_MIN : Z := -9223372036854775808.

(** Conversion of an integer to a signed type of [bits] bits (what
    [(int)v] does to a [long] on this ABI).  C leaves overflow of signed
    [+], [-] and [*] undefined; the model wraps it in the same way. *)
Definition sext (bits : Z) (z : Z) : Z :=
  (z + 2 ^ (bits - 1)) mod 2 ^ bits - 2 ^ (bits - 1).

Definition to_int (z : Z) : Z := sext 32 z.
Definition to_long (z : Z) : Z := sext 64 z.
Definition to_size_t (z : Z) : Z := z mod 2 ^ 64.

Definition int_range (z : Z) : Prop := INT_MIN <= z <= INT_MAX.

Definition int_sub (a b : Z) : Z := to_int (a - b).
Definition int_add (a b : Z) : Z := to_int (a + b).
Definition int_mul (a b : Z) : Z := to_int (a * b).

Lemma to_int_id z : int_range z -> to_int z = z.
Proof.
  unfold int_range, INT_MIN, INT_MAX, to_int, sext; intros H.
  change (2 ^ (32 - 1)) with 2147483648; change (2 ^ 32) with 4294967296.
  rewrite Z.mod_small; lia.
Qed.


End Mach.

(* ================================================================== *)
(** * [double]                                                          *)
(* ================================================================== *)

Module Dbl.

(** An integer converted to [double] (round to nearest even). *)
Definition of_long (z : Z) : float :=
  SF2Prim (binary_normalize prec emax z 0 false).

(** [(time_t)d], [(long)d], [(size_t)d]: truncation toward zero.  C
    leaves the conversion of a NaN, an infinity or a value out of the
    target's range undefined; the model gives the truncated value (0
    for NaN and infinities) and the caller wraps it to the target. *)
Definition trunc (d : float) : Z :=
  match Prim2SF d with
  | S754_finite s m e =>
      let v := if 0 <=? e then Z.pos m * 2 ^ e else Z.pos m / 2 ^ (- e) in
      if s then - v else v
  | _ => 0
  end.

Definition zero : float := 0%float.
Definition nano : float := 0x1.12e0be826d695p-30%float.   (* 1e-9 *)
Definition million : float := 1000000%float.               (* 1e6 *)
Definition half : float := 0.5%float.
Definition minus_one : float := (-1)%float.

(** [a.tv_sec + a.tv_nsec*1e-9] and differences of two such values are
    written with these two. *)
Definition add := PrimFloat.add.
Definition sub := PrimFloat.sub.
Definition mul := PrimFloat.mul.
Definition lt := PrimFloat.ltb.
Definition le := PrimFloat.leb.

End Dbl.

(* ================================================================== *)
(** * Characters and C strings                                          *)
(* ================================================================== *)

Module Chr.

Definition ESC : ascii := "027"%char.
Definition CR : ascii := "013"%char.
Definition LF : ascii := "010"%char.
Definition NUL : ascii := "000"%char.

Definition eqc (a b : ascii) : bool := Ascii.eqb a b.

Definition code (c : ascii) : Z := Z.of_nat (nat_of_ascii c).

Definition isdigit (c : ascii) : bool := (48 <=? code c) && (code c <=? 57).

(** [isspace] in the C locale: space, \t, \n, \v, \f, \r. *)
Definition isspace (c : ascii) : bool :=
  (code c =? 32) || ((9 <=? code c) && (code c <=? 13)).

Definition digit_val (c : ascii) : Z := code c - 48.

(** The C string stored in a byte array: the bytes before the first
    NUL. *)
Fixpoint c_str (l : list ascii) : list ascii :=
  match l with
  | [] => []
  | c :: l' => if eqc c NUL then [] else c :: c_str l'
  end.

(** [strchr(s, ch)] on a C string, followed by [*p++ = 0]: the part
    before the first [ch] and the part after it, or [None] for NULL. *)
Fixpoint strchr_split (ch : ascii) (s : list ascii)
  : option (list ascii * list ascii) :=
  match s with
  | [] => None
  | c :: s' =>
      if eqc c ch then Some ([], s')
      else match strchr_split ch s' with
           | Some (a, b) => Some (c :: a, b)
           | None => None
           end
  end.

Fixpoint skip_spaces (s : list ascii) : nat * list ascii :=
  match s with
  | c :: s' => if isspace c then let (n, r) := skip_spaces s' in (S n, r)
               else (O, s)
  | [] => (O, [])
  end.

(** The digits at the head of [s], accumulated in base 10: their value,
    their number and what follows. *)
Fixpoint digits (acc : Z) (s : list ascii) : Z * nat * list ascii :=
  match s with
  | c :: s' =>
      if isdigit c then
        let '(v, n, r) := digits (acc * 10 + digit_val c) s' in (v, S n, r)
      else (acc, O, s)
  | [] => (acc, O, [])
  end.

(** [strtol(s, &end, 10)]: the value, [end - s], and whether [errno]
    was set to ERANGE.  Without a digit after the optional white space
    and sign nothing is converted: the value is 0 and [end == s]. *)
Definition strtol (s : list ascii) : Z * nat * bool :=
  let (nsp, s1) := skip_spaces s in
  let '(neg, nsign, s2) :=
    match s1 with
    | c :: r => if eqc c "-" then (true, 1%nat, r)
                else if eqc c "+" then (false, 1%nat, r)
                else (false, O, s1)
    | [] => (false, O, s1)
    end in
  let '(v, nd, _) := digits 0 s2 in
  match nd with
  | O => (0, O, false)
  | _ =>
      let sv := if neg then - v else v in
      let n := (nsp + nsign + nd)%nat in
      if sv >? Mach.LONG_MAX then (Mach.LONG_MAX, n, true)
      else if sv <? Mach.LONG_MIN then (Mach.LONG_MIN, n, true)
      else (sv, n, false)
  end.

End Chr.

(* ================================================================== *)
(** * Data model                                                        *)
(* ================================================================== *)

Definition SGR_BUF : Z := 128.
Definition MULTICLICK_MAX_GAP : float := Dbl.half.
Definition MULTICLICK_RADIUS : Z := 3.

Inductive evtype_t := EVT_PRESS | EVT_MOTION | EVT_RELEASE.

Record timespec := { tv_sec : Z; tv_nsec : Z }.

(** [event_t]; the fields [x], [y], [button], [type], [t] carry the
    prefix [ev_]. *)
Record event_t := {
  ev_x : Z;
  ev_y : Z;
  ev_button : Z;
  ev_type : evtype_t;
  ev_t : timespec
}.

(** [out_event_t]. *)
Record out_event_t := { oe_ev : event_t; oe_dt : float }.

Definition evtype_eqb (a b : evtype_t) : bool :=
  match a, b with
  | EVT_PRESS, EVT_PRESS | EVT_MOTION, EVT_MOTION
  | EVT_RELEASE, EVT_RELEASE => true
  | _, _ => false
  end.


Definition is_press (e : event_t) : bool := evtype_eqb (ev_type e) EVT_PRESS.

(* ================================================================== *)
(** * [parse_sgr]                                                       *)
(* ================================================================== *)

(** The body of [parse_sgr] from [char *p = tmp] on: [tmp] is the C
    string in the scratch copy, [termch] the byte [buf[len-1]].  [errno]
    is cleared once and tested after each [strtol], so the first
    conversion that sets ERANGE or converts nothing ends the parse. *)
Definition parse_sgr_fields (tmp : list ascii) (termch : ascii)
  : option (Z * Z * Z * ascii) :=
  match Chr.strchr_split ";" tmp with
  | None => None
  | Some (p, s1) =>
      match Chr.strchr_split ";" s1 with
      | None => None
      | Some (s1, s2) =>
          let '(vcb, n1, e1) := Chr.strtol p in
          if e1 || Nat.eqb n1 0 then None else
          let '(vcx, n2, e2) := Chr.strtol s1 in
          if e2 || Nat.eqb n2 0 then None else
          let '(vcy, n3, e3) := Chr.strtol s2 in
          if e3 || Nat.eqb n3 0 then None else
          Some (Mach.to_int vcb, Mach.to_int vcx, Mach.to_int vcy, termch)
      end
  end.

(** [parse_sgr(buf, len, &cb, &cx, &cy, &termch)] with [len] the number
    of bytes of [buf] that were filled; [None] is the return value 0,
    [Some (cb, cx, cy, termch)] the return value 1 with the four
    results. *)
Definition parse_sgr (buf : list ascii) : option (Z * Z * Z * ascii) :=
  let len := Z.of_nat (length buf) in
  if (len <? 4) || negb (Chr.eqc (hd Chr.NUL buf) "<") || (len >=? SGR_BUF)
  then None
  else
    (* memcpy(tmp, buf+1, len-2); tmp[len-2] = 0 *)
    parse_sgr_fields (Chr.c_str (firstn (length buf - 2) (skipn 1 buf)))
                     (last buf Chr.NUL).

Definition bytes (s : string) : list ascii := list_ascii_of_string s.

(* ================================================================== *)
(** * The world outside the program                                     *)
(* ================================================================== *)

(** What one call of [select] on the terminal reports.  [SEL_EINTR sig]
    is a return of -1 with [errno == EINTR] after the delivery of signal
    [sig]; [sig = 0] stands for SIGWINCH, whose handler leaves [got_sig]
    alone. *)
Inductive select_outcome :=
| SEL_READY
| SEL_TIMEOUT
| SEL_EINTR (sig : Z)
| SEL_ERROR.

(** What one call of [read(ttyfd, &c, 1)] reports: a byte, or a return
    value <= 0 (end of input or an error; [sig <> 0] when the read was
    interrupted by a signal that [sighandler] caught). *)
Inductive read_outcome :=
| RD_BYTE (c : ascii)
| RD_FAIL (sig : Z).

Record world := {
  sel_q : list select_outcome;          (* future of the terminal, per select *)
  rd_q : list read_outcome;             (* future of the terminal, per read *)
  got_sig : Z;                          (* the global [got_sig] *)
  cleanup_done : bool;                  (* the global [cleanup_done] *)
  clock : nat -> timespec;              (* CLOCK_MONOTONIC, per call *)
  ticks : nat;                          (* calls of clock_gettime so far *)
  alloc_ok : nat -> bool;               (* does the n-th allocation succeed *)
  allocs : nat;                         (* allocations so far *)
  sel_log : list (option (Z * Z));      (* timeout argument of each select *)
  term_out : list string;               (* the writes of [term_write] *)
  out_buf : string;                     (* bytes printed to out_fp / stdout *)
  err_buf : string;                     (* bytes printed to stderr *)
  wall_iso : string                     (* strftime of time(NULL), UTC *)
}.

Definition set_queues (sq : list select_outcome) (rq : list read_outcome)
    (w : world) : world :=
  {| sel_q := sq; rd_q := rq; got_sig := got_sig w;
     cleanup_done := cleanup_done w; clock := clock w;
     ticks := ticks w; alloc_ok := alloc_ok w; allocs := allocs w;
     sel_log := sel_log w; term_out := term_out w; out_buf := out_buf w;
     err_buf := err_buf w; wall_iso := wall_iso w |}.

Definition set_got_sig (g : Z) (w : world) : world :=
  {| sel_q := sel_q w; rd_q := rd_q w; got_sig := g;
     cleanup_done := cleanup_done w; clock := clock w;
     ticks := ticks w; alloc_ok := alloc_ok w; allocs := allocs w;
     sel_log := sel_log w; term_out := term_out w; out_buf := out_buf w;
     err_buf := err_buf w; wall_iso := wall_iso w |}.

Definition set_cleanup_done (b : bool) (w : world) : world :=
  {| sel_q := sel_q w; rd_q := rd_q w; got_sig := got_sig w;
     cleanup_done := b; clock := clock w;
     ticks := ticks w; alloc_ok := alloc_ok w; allocs := allocs w;
     sel_log := sel_log w; term_out := term_out w; out_buf := out_buf w;
     err_buf := err_buf w; wall_iso := wall_iso w |}.

Definition set_ticks (n : nat) (w : world) : world :=
  {| sel_q := sel_q w; rd_q := rd_q w; got_sig := got_sig w;
     cleanup_done := cleanup_done w; clock := clock w;
     ticks := n; alloc_ok := alloc_ok w; allocs := allocs w;
     sel_log := sel_log w; term_out := term_out w; out_buf := out_buf w;
     err_buf := err_buf w; wall_iso := wall_iso w |}.

Definition set_allocs (n : nat) (w : world) : world :=
  {| sel_q := sel_q w; rd_q := rd_q w; got_sig := got_sig w;
     cleanup_done := cleanup_done w; clock := clock w;
     ticks := ticks w; alloc_ok := alloc_ok w; allocs := n;
     sel_log := sel_log w; term_out := term_out w; out_buf := out_buf w;
     err_buf := err_buf w; wall_iso := wall_iso w |}.

Definition set_sel_log (l : list (option (Z * Z))) (w : world) : world :=
  {| sel_q := sel_q w; rd_q := rd_q w; got_sig := got_sig w;
     cleanup_done := cleanup_done w; clock := clock w;
     ticks := ticks w; alloc_ok := alloc_ok w; allocs := allocs w;
     sel_log := l; term_out := term_out w; out_buf := out_buf w;
     err_buf := err_buf w; wall_iso := wall_iso w |}.

Definition set_term_out (l : list string) (w : world) : world :=
  {| sel_q := sel_q w; rd_q := rd_q w; got_sig := got_sig w;
     cleanup_done := cleanup_done w; clock := clock w;
     ticks := ticks w; alloc_ok := alloc_ok w; allocs := allocs w;
     sel_log := sel_log w; term_out := l; out_buf := out_buf w;
     err_buf := err_buf w; wall_iso := wall_iso w |}.

Definition set_out_buf (s : string) (w : world) : world :=
  {| sel_q := sel_q w; rd_q := rd_q w; got_sig := got_sig w;
     cleanup_done := cleanup_done w; clock := clock w;
     ticks := ticks w; alloc_ok := alloc_ok w; allocs := allocs w;
     sel_log := sel_log w; term_out := term_out w; out_buf := s;
     err_buf := err_buf w; wall_iso := wall_iso w |}.

Definition set_err_buf (s : string) (w : world) : world :=
  {| sel_q := sel_q w; rd_q := rd_q w; got_sig := got_sig w;
     cleanup_done := cleanup_done w; clock := clock w;
     ticks := ticks w; alloc_ok := alloc_ok w; allocs := allocs w;
     sel_log := sel_log w; term_out := term_out w; out_buf := out_buf w;
     err_buf := s; wall_iso := wall_iso w |}.

(** ** A state monad over the world

    [None] is a call that never returns: the program sits in a blocking
    [select] or [read] and the terminal has nothing more to say. *)

Definition M (A : Type) : Type := world -> option (A * world).

Definition ret {A} (a : A) : M A := fun w => Some (a, w).

Definition bind {A B} (c : M A) (k : A -> M B) : M B :=
  fun w => match c w with
           | Some (a, w') => k a w'
           | None => None
           end.

Declare Scope io_scope.
Delimit Scope io_scope with io.
Notation "x <- c ;; k" := (bind c (fun x => k))
  (at level 61, c at next level, right associativity) : io_scope.
Notation "c ;;; k" := (bind c (fun _ => k))
  (at level 61, right associativity) : io_scope.
Local Open Scope io_scope.

Definition modify (f : world -> world) : M unit := fun w => Some (tt, f w).
Definition gets {A} (f : world -> A) : M A := fun w => Some (f w, w).

(** ** Terminal output and signals *)

Definition esc_str (s : string) : string := String Chr.ESC s.

Definition term_write (s : string) : M unit :=
  modify (fun w => set_term_out (term_out w ++ [s]) w).

(** The sequence of [minimal_signal_restore]. *)
Definition restore_seq : string :=
  esc_str "[?25h" ++ esc_str "[?1049l" ++ esc_str "[?1000l"
  ++ esc_str "[?1002l" ++ esc_str "[?1006l".

(** [sighandler(sig)], run by the delivery of SIGINT, SIGTERM, SIGHUP or
    SIGQUIT; for [sig = 0] (SIGWINCH) nothing the program reads changes. *)
Definition sighandler (sig : Z) (w : world) : world :=
  if sig =? 0 then w
  else set_term_out (term_out w ++ [restore_seq]) (set_got_sig sig w).

(** ** System calls *)

(** The next outcome of a [select].  Without a timeout (NULL) the call
    cannot report one: it keeps waiting through the quiet periods. *)
Fixpoint select_pop (blocking : bool) (q : list select_outcome)
  : option (select_outcome * list select_outcome) :=
  match q with
  | [] => None
  | SEL_TIMEOUT :: q' =>
      if blocking then select_pop blocking q' else Some (SEL_TIMEOUT, q')
  | o :: q' => Some (o, q')
  end.

Definition is_none {A} (o : option A) : bool :=
  match o with None => true | Some _ => false end.

Definition sys_select (tv : option (Z * Z)) : M select_outcome := fun w =>
  match select_pop (is_none tv) (sel_q w) with
  | None => None
  | Some (o, q) =>
      let w1 := set_sel_log (sel_log w ++ [tv]) (set_queues q (rd_q w) w) in
      Some (o, match o with SEL_EINTR sig => sighandler sig w1 | _ => w1 end)
  end.

(** [read(ttyfd, &c, 1)]: [Some c] for a return value of 1. *)
Definition sys_read : M (option ascii) := fun w =>
  match rd_q w with
  | [] => None
  | RD_BYTE c :: q => Some (Some c, set_queues (sel_q w) q w)
  | RD_FAIL sig :: q => Some (None, sighandler sig (set_queues (sel_q w) q w))
  end.

Definition clock_gettime : M timespec := fun w =>
  Some (clock w (ticks w), set_ticks (S (ticks w)) w).

(** [malloc]/[calloc]/[realloc]: whether the call succeeds. *)
Definition sys_alloc : M bool := fun w =>
  Some (alloc_ok w (allocs w), set_allocs (S (allocs w)) w).

Definition fprint_out (s : string) : M unit :=
  modify (fun w => set_out_buf (out_buf w ++ s) w).

Definition fprint_err (s : string) : M unit :=
  modify (fun w => set_err_buf (err_buf w ++ s) w).

(* ================================================================== *)
(** * [read_sgr_event_timeout]                                          *)
(* ================================================================== *)

(** ** Loops

    How one pass through the body of a loop ends: with a [return] (or a
    [break], the value being what the code after the loop needs), or
    with the variables that the next pass starts from. *)
Inductive ctl (St R : Type) :=
| Return (r : R)
| Continue (s : St).
Arguments Return {St R} r.
Arguments Continue {St R} s.

Fixpoint loop_fuel {St R} (fuel : nat) (body : St -> M (ctl St R)) (s : St)
  : M R :=
  match fuel with
  | O => fun _ => None
  | S fuel' =>
      c <- body s ;;
      match c with
      | Return r => ret r
      | Continue s' => loop_fuel fuel' body s'
      end
  end.

(** The loops of the program ([for (;;)], [while (...)]).  In each of
    them a pass that goes on to the next has called [select], which takes
    an outcome off [sel_q]: the length of [sel_q] bounds the number of
    passes, and the fuel is never used up (Lemma [loop_unfold] below gives
    the equation of the loop without it). *)
Definition loop {St R} (body : St -> M (ctl St R)) (s : St) : M R := fun w =>
  loop_fuel (S (length (sel_q w))) body s w.

(** The [while (len + 1 < sizeof(buf))] loop: [n] is the number of passes
    left, [sizeof(buf) - 1 - len].  [None] is the [return -1] inside. *)
Fixpoint read_body (n : nat) (buf : list ascii) : M (option (list ascii)) :=
  match n with
  | O => ret (Some buf)
  | S n' =>
      r <- sys_read ;;
      match r with
      | None => ret None
      | Some c =>
          let buf' := buf ++ [c] in
          if Chr.eqc c "M" || Chr.eqc c "m" then ret (Some buf')
          else read_body n' buf'
      end
  end.

Definition classify (cb : Z) (termch : ascii) : evtype_t :=
  if Chr.eqc termch "M" then (if cb <? 32 then EVT_PRESS else EVT_MOTION)
  else EVT_RELEASE.

(** One pass through the body of the [for (;;)].  [ev] is [*ev] on
    entry; the value returned with the code is [*ev] on exit. *)
Definition read_sgr_pass (ev : event_t) (timeout_sec : float) (sec usec : Z)
  : M (ctl unit (Z * event_t)) :=
  o <- sys_select (if Dbl.lt timeout_sec Dbl.zero then None
                   else Some (sec, usec)) ;;
  match o with
  | SEL_ERROR => ret (Return (-1, ev))
  | SEL_EINTR _ =>
      g <- gets got_sig ;;
      if negb (g =? 0) then ret (Return (-1, ev)) else ret (Continue tt)
  | SEL_TIMEOUT => ret (Return (0, ev))
  | SEL_READY =>
      r <- sys_read ;;
      match r with
      | None => ret (Return (-1, ev))
      | Some c =>
          if Chr.eqc c Chr.CR || Chr.eqc c Chr.LF then ret (Return (2, ev))
          else if negb (Chr.code c =? 27) then ret (Continue tt)
          else
            r <- sys_read ;;
            match r with
            | None => ret (Return (-1, ev))
            | Some c =>
                if negb (Chr.eqc c "[") then ret (Continue tt)
                else
                  r <- sys_read ;;
                  match r with
                  | None => ret (Return (-1, ev))
                  | Some c =>
                      if negb (Chr.eqc c "<") then ret (Continue tt)
                      else
                        b <- read_body 126 ["<"%char] ;;
                        match b with
                        | None => ret (Return (-1, ev))
                        | Some buf =>
                            match parse_sgr buf with
                            | None => ret (Continue tt)
                            | Some (cb, x, y, termch) =>
                                t <- clock_gettime ;;
                                ret (Return
                                  (1, {| ev_x := x; ev_y := y;
                                         ev_button := cb;
                                         ev_type := classify cb termch;
                                         ev_t := t |}))
                            end
                        end
                  end
            end
      end
  end.

(** [read_sgr_event_timeout(ev, timeout_sec, want_motion)]: the return
    code (1 event, 0 timeout, -1 end of input, error or signal, 2 Enter)
    and [*ev]. *)
Definition read_sgr_event_timeout (ev : event_t) (timeout_sec : float)
    (want_motion : Z) : M (Z * event_t) :=
  let sec := Mach.to_long (Dbl.trunc timeout_sec) in
  let usec := Mach.to_long
    (Dbl.trunc (Dbl.mul (Dbl.sub timeout_sec (Dbl.of_long sec)) Dbl.million)) in
  loop (fun _ => read_sgr_pass ev timeout_sec sec usec) tt.

(** ** Test worlds *)

Definition ts0 : timespec := {| tv_sec := 0; tv_nsec := 0 |}.

Definition event_zero : event_t :=
  {| ev_x := 0; ev_y := 0; ev_button := 0; ev_type := EVT_PRESS; ev_t := ts0 |}.

(** A clock that advances by 0.1 s per reading, starting at 100 s. *)
Definition tick_clock (n : nat) : timespec :=
  {| tv_sec := 100 + Z.of_nat n / 10;
     tv_nsec := (Z.of_nat n mod 10) * 100000000 |}.

Definition world_of (sq : list select_outcome) (rq : list read_outcome)
  : world :=
  {| sel_q := sq; rd_q := rq; got_sig := 0; cleanup_done := false;
     clock := tick_clock; ticks := O;
     alloc_ok := fun _ => true; allocs := O; sel_log := []; term_out := [];
     out_buf := ""; err_buf := ""; wall_iso := "2026-01-01T00:00:00Z" |}.

Definition rd_bytes (l : list ascii) : list read_outcome := map RD_BYTE l.

(** The bytes of [ESC [ s]. *)
Definition csi (s : string) : list ascii := Chr.ESC :: "["%char :: bytes s.

Definition rv_of {A} (r : option (Z * event_t * A)) : option Z :=
  match r with Some (rv, _, _) => Some rv | None => None end.


(* ================================================================== *)
(** * [printf] conversions                                              *)
(* ================================================================== *)

Module Fmt.

(** [%d], [%zu]. *)
Definition dec (z : Z) : string := NilZero.string_of_int (Z.to_int z).

Fixpoint zeros (n : nat) : string :=
  match n with O => "" | S n' => String "0" (zeros n') end.

(** Six digits of a value below 10^6: the fraction of [%.6f]. *)
Definition frac6 (z : Z) : string :=
  let d := dec z in (zeros (6 - String.length d) ++ d)%string.

(** [num / den] rounded to the nearest integer, ties to even. *)
Definition round_div (num den : Z) : Z :=
  let q := num / den in
  let r := num mod den in
  if (2 * r >? den) || ((2 * r =? den) && Z.odd q) then q + 1 else q.

(** [%.6f]: the exact binary value, rounded to six decimals (to nearest,
    ties to even, as the C library does in the default rounding mode). *)
Definition f6 (d : float) : string :=
  match Prim2SF d with
  | S754_nan => "nan"
  | S754_infinity s => if s then "-inf" else "inf"
  | S754_zero s => if s then "-0.000000" else "0.000000"
  | S754_finite s m e =>
      let q := if 0 <=? e then Z.pos m * 2 ^ e * 1000000
               else round_div (Z.pos m * 1000000) (2 ^ (- e)) in
      ((if s then "-" else "") ++ dec (q / 1000000) ++ "."
       ++ frac6 (q mod 1000000))%string
  end.

End Fmt.

(* ================================================================== *)
(** * Terminal control and output                                       *)
(* ================================================================== *)

(** Output modes. *)
Inductive out_mode_t := OUT_CSV | OUT_JSON | OUT_PRETTY | OUT_JSONL.

(** [print_error(code, msg)] for a message without conversions. *)
Definition print_error (code : Z) (msg : string) : M unit :=
  fprint_err (esc_str "[31m(error " ++ Fmt.dec code ++ ")" ++ esc_str "[0m "
              ++ msg ++ String Chr.LF "")%string.

(** [restore_terminal]. *)
Definition restore_terminal : M unit :=
  done <- gets cleanup_done ;;
  if done then ret tt
  else
    modify (set_cleanup_done true) ;;;
    term_write (esc_str "[?1000l" ++ esc_str "[?1002l" ++ esc_str "[?1006l") ;;;
    term_write (esc_str "[?1049l").


(** U+25CF in UTF-8. *)
Definition dot : string := String "226" (String "151" (String "143" "")).

(** The sequence that [draw_mark(x, y)] formats: save the cursor, move to
    row [y] and column [x], a blue dot, restore the cursor. *)
Definition mark_seq (x y : Z) : string :=
  (esc_str "7" ++ esc_str "[" ++ Fmt.dec y ++ ";" ++ Fmt.dec x ++ "H"
   ++ esc_str "[34m" ++ dot ++ esc_str "[0m" ++ esc_str "8")%string.

(** [draw_mark(x, y)].  [snprintf] returns the length of the sequence,
    which is positive and, for two [int]s, below the 128 bytes of [seq]. *)
Definition draw_mark (x y : Z) : M unit := term_write (mark_seq x y).

Definition type_str (t : evtype_t) : string :=
  match t with
  | EVT_PRESS => "press"
  | EVT_RELEASE => "release"
  | EVT_MOTION => "motion"
  end.

Definition quoted (s : string) : string := (String "034" s ++ String "034" "")%string.

Definition nl : string := String Chr.LF "".

(** [x,y,button\n]. *)
Definition csv_line (e : event_t) : string :=
  (Fmt.dec (ev_x e) ++ "," ++ Fmt.dec (ev_y e) ++ ","
   ++ Fmt.dec (ev_button e) ++ nl)%string.

(** One event object of the compact rendering. *)
Definition json_event (e : event_t) (dt : float) : string :=
  ("{" ++ quoted "x" ++ ":" ++ Fmt.dec (ev_x e) ++ "," ++ quoted "y" ++ ":"
   ++ Fmt.dec (ev_y e) ++ "," ++ quoted "button" ++ ":" ++ Fmt.dec (ev_button e)
   ++ "," ++ quoted "type" ++ ":" ++ quoted (type_str (ev_type e)) ++ ","
   ++ quoted "dt" ++ ":" ++ Fmt.f6 dt ++ "}")%string.

(** One event object of the pretty rendering. *)
Definition json_event_pretty (e : event_t) (dt : float) : string :=
  ("    {" ++ quoted "x" ++ ":" ++ Fmt.dec (ev_x e) ++ ", " ++ quoted "y" ++ ":"
   ++ Fmt.dec (ev_y e) ++ ", " ++ quoted "button" ++ ":" ++ Fmt.dec (ev_button e)
   ++ ", " ++ quoted "type" ++ ":" ++ quoted (type_str (ev_type e)) ++ ", "
   ++ quoted "dt" ++ ":" ++ Fmt.f6 dt ++ "}")%string.

(** The text before the events: [mode], [started_at], [duration] and
    [outputs], which is printed from [press_count]. *)
Definition json_head (pretty : bool) (mode started_at : string)
    (duration : float) (press_count : Z) : string :=
  if pretty then
    ("{" ++ nl ++ "  " ++ quoted "mode" ++ ": " ++ quoted mode ++ "," ++ nl
     ++ "  " ++ quoted "started_at" ++ ": " ++ quoted started_at ++ "," ++ nl
     ++ "  " ++ quoted "duration" ++ ": " ++ Fmt.f6 duration ++ "," ++ nl
     ++ "  " ++ quoted "outputs" ++ ": " ++ Fmt.dec press_count ++ "," ++ nl
     ++ "  " ++ quoted "events" ++ ": [" ++ nl)%string
  else
    ("{" ++ quoted "mode" ++ ":" ++ quoted mode ++ "," ++ quoted "started_at" ++ ":"
     ++ quoted started_at ++ "," ++ quoted "duration" ++ ":" ++ Fmt.f6 duration ++ ","
     ++ quoted "outputs" ++ ":" ++ Fmt.dec press_count ++ "," ++ quoted "events"
     ++ ":[")%string.

Definition json_tail (pretty : bool) : string :=
  if pretty then ("  ]" ++ nl ++ "}" ++ nl)%string else ("]}" ++ nl)%string.

(** A [for (i = 0; i < n; ++i)] over an array that appends text: [i] is
    the index of the head of [l], [n] the length of the array. *)
Fixpoint for_each {A} (f : nat -> A -> string) (i : nat) (l : list A)
  : string :=
  match l with
  | [] => ""
  | a :: l' => (f i a ++ for_each f (S i) l')%string
  end.

(** The entry of index [i] of [n], with its separator. *)
Definition json_entry (pretty : bool) (n i : nat) (e : event_t) (dt : float)
  : string :=
  if pretty then
    (json_event_pretty e dt ++ (if (i + 1 <? n)%nat then "," else "") ++ nl)%string
  else
    ((if (i =? 0)%nat then "" else ",") ++ json_event e dt)%string.

(** The loop [for (...) if (a[i].type == EVT_PRESS) ++press_count].  The
    counter is a [size_t] and counts at most [n] entries, [n] being a
    [size_t] too, so the increment does not wrap. *)
Definition count_press {A} (typ : A -> evtype_t) (l : list A) : Z :=
  fold_left (fun c a => if evtype_eqb (typ a) EVT_PRESS then c + 1 else c) l 0.

(** [print_json_history(outs, n, fp, pretty, mode, started_at, duration)]
    with [outs] the [n] filled entries. *)
Definition print_json_history (outs : list out_event_t) (pretty : bool)
    (mode started_at : string) (duration : float) : M unit :=
  let press_count := count_press (fun o => ev_type (oe_ev o)) outs in
  fprint_out (json_head pretty mode started_at duration press_count) ;;;
  fprint_out (for_each (fun i o => json_entry pretty (length outs) i
                                      (oe_ev o) (oe_dt o)) O outs) ;;;
  fprint_out (json_tail pretty).

(** [t.tv_sec + t.tv_nsec*1e-9]. *)
Definition ts_seconds (t : timespec) : float :=
  Dbl.add (Dbl.of_long (tv_sec t)) (Dbl.mul (Dbl.of_long (tv_nsec t)) Dbl.nano).

(** [(b.tv_sec - a.tv_sec) + (b.tv_nsec - a.tv_nsec)*1e-9]: both
    differences are taken in [long]. *)
Definition ts_diff (b a : timespec) : float :=
  Dbl.add (Dbl.of_long (Mach.to_long (tv_sec b - tv_sec a)))
          (Dbl.mul (Dbl.of_long (Mach.to_long (tv_nsec b - tv_nsec a))) Dbl.nano).

(** The [dt] that the record-mode printers compute for [events[i]]. *)
Definition dt_at (events : list event_t) (i : nat) : float :=
  match i with
  | O => Dbl.zero
  | S j => Dbl.sub (ts_seconds (ev_t (nth i events event_zero)))
                   (ts_seconds (ev_t (nth j events event_zero)))
  end.

(** [print_json_from_events(events, n, fp, pretty, mode, started_at,
    duration)]. *)
Definition print_json_from_events (events : list event_t) (pretty : bool)
    (mode started_at : string) (duration : float) : M unit :=
  let press_count := count_press ev_type events in
  fprint_out (json_head pretty mode started_at duration press_count) ;;;
  fprint_out (for_each (fun i e => json_entry pretty (length events) i e
                                      (dt_at events i)) O events) ;;;
  fprint_out (json_tail pretty).

(** [print_json_line(e, dt, fp)]. *)
Definition print_json_line (e : event_t) (dt : float) : M unit :=
  fprint_out (json_event e dt ++ nl).

(* ================================================================== *)
(** * Multi-click mode                                                  *)
(* ================================================================== *)

(** [wait_for_first_press(ev)]: the [while (!got_sig)] loop and the
    [return 0] after it. *)
Definition wait_for_first_press (ev : event_t) : M (Z * event_t) :=
  loop (fun ev =>
    g <- gets got_sig ;;
    if negb (g =? 0) then ret (Return (0, ev))
    else
      r <- read_sgr_event_timeout ev Dbl.minus_one 0 ;;
      let '(rv, ev) := r in
      if (rv =? 1) && is_press ev then ret (Return (1, ev))
      else if rv =? 2 then ret (Return (0, ev))
      else if rv =? -1 then ret (Return (0, ev))
      else ret (Continue ev)) ev.

(** [dx*dx + dy*dy <= MULTICLICK_RADIUS * MULTICLICK_RADIUS] in [int]. *)
Definition within_radius (first ev : event_t) : bool :=
  let dx := Mach.int_sub (ev_x first) (ev_x ev) in
  let dy := Mach.int_sub (ev_y first) (ev_y ev) in
  Mach.int_add (Mach.int_mul dx dx) (Mach.int_mul dy dy)
  <=? Mach.int_mul MULTICLICK_RADIUS MULTICLICK_RADIUS.

(** One pass of the [while (count < N && !got_sig)] of
    [handle_click_mode] over its variables [count], [last] and [ev].
    [Return None] is a [return 1] from inside the loop; [Return (Some
    (count, last))] leaves the loop by its condition. *)
Definition followup_pass (N : Z) (first : event_t)
    (s : Z * event_t * event_t)
  : M (ctl (Z * event_t * event_t) (option (Z * event_t))) :=
  let '(count, last, ev) := s in
  g <- gets got_sig ;;
  if negb ((count <? N) && (g =? 0)) then ret (Return (Some (count, last)))
  else
    r <- read_sgr_event_timeout ev MULTICLICK_MAX_GAP 0 ;;
    let '(rv, ev) := r in
    if rv =? 0 then ret (Return None)
    else if rv =? -1 then ret (Return None)
    else if rv =? 2 then ret (Return None)
    else if negb (is_press ev) then ret (Continue (count, last, ev))
    else if within_radius first ev
         then ret (Continue (Mach.int_add count 1, ev, ev))
    else ret (Return None).

Definition click_followups (N : Z) (first : event_t) (count : Z)
    (last ev : event_t) : M (option (Z * event_t)) :=
  loop (followup_pass N first) (count, last, ev).

(** The output of a successful run of [handle_click_mode]: the event
    [last] in the selected format. *)
Definition emit_click (out_mode_local : out_mode_t) (started_at : string)
    (last : event_t) : M unit :=
  match out_mode_local with
  | OUT_JSONL => print_json_line last Dbl.zero
  | OUT_JSON | OUT_PRETTY =>
      ok <- sys_alloc ;;
      if negb ok then fprint_out (csv_line last)
      else print_json_history [{| oe_ev := last; oe_dt := Dbl.zero |}]
             (match out_mode_local with OUT_PRETTY => true | _ => false end)
             "click" started_at Dbl.zero
  | OUT_CSV => fprint_out (csv_line last)
  end.

(** The end of [handle_click_mode], from the comment "Success: emit the
    last click (not the first)" on. *)
Definition click_success (out_mode_local : out_mode_t) (do_mark_local : bool)
    (started_at : string) (last : event_t) : M Z :=
  (if do_mark_local then draw_mark (ev_x last) (ev_y last) else ret tt) ;;;
  emit_click out_mode_local started_at last ;;;
  ret 0.

(** What [handle_click_mode] does with the outcome of its loop: the
    [return 1] inside it, the test [count != N] after it, the success. *)
Definition click_result (N : Z) (out_mode_local : out_mode_t)
    (do_mark_local : bool) (started_at : string)
    (res : option (Z * event_t)) : M Z :=
  match res with
  | None => ret 1
  | Some (count, last) =>
      if negb (count =? N) then ret 1
      else click_success out_mode_local do_mark_local started_at last
  end.

(** [handle_click_mode(N, out_mode_local, outfp, do_mark_local,
    started_at)]; [first], [last] and [ev] are its locals, [ev]
    uninitialised until the reader fills it.  For [N <= 1] the loop and
    the test after it are skipped. *)
Definition handle_click_mode (N : Z) (out_mode_local : out_mode_t)
    (do_mark_local : bool) (started_at : string) : M Z :=
  r <- wait_for_first_press event_zero ;;
  let '(ok, first) := r in
  if ok =? 0 then ret 1
  else
    let last := first in
    if N >? 1 then
      res <- click_followups N first 1 last event_zero ;;
      click_result N out_mode_local do_mark_local started_at res
    else click_success out_mode_local do_mark_local started_at last.

(* ================================================================== *)
(** * Playback                                                          *)
(* ================================================================== *)

(** [(int)d] for the colour components. *)
Definition double_to_int (d : float) : Z := Mach.to_int (Dbl.trunc d).

Definition clamp255 (v : Z) : Z := if v <? 0 then 0 else if v >? 255 then 255 else v.

(** [color_gradient_idx(i, n, &r, &g, &b)]. *)
Definition color_gradient_idx (i n : nat) : Z * Z * Z :=
  if (n <=? 1)%nat then (255, 0, 0)
  else
    let t := PrimFloat.div (Dbl.of_long (Z.of_nat i))
                           (Dbl.of_long (Z.of_nat (n - 1))) in
    let r := double_to_int
               (Dbl.add (Dbl.mul (Dbl.sub 1%float t) 255%float) Dbl.half) in
    let g := double_to_int (Dbl.add (Dbl.mul t 255%float) Dbl.half) in
    (clamp255 r, clamp255 g, 0).

(** The dot that playback draws for [events[i]]. *)
Definition playback_seq (i n : nat) (e : event_t) : string :=
  let '(R, G, B) := color_gradient_idx i n in
  let row := if ev_y e <? 1 then 1 else ev_y e in
  let col := if ev_x e <? 1 then 1 else ev_x e in
  (esc_str "[" ++ Fmt.dec row ++ ";" ++ Fmt.dec col ++ "H"
   ++ esc_str "[38;2;" ++ Fmt.dec R ++ ";" ++ Fmt.dec G ++ ";" ++ Fmt.dec B
   ++ "m" ++ dot ++ esc_str "[0m")%string.

Fixpoint playback_loop (i n : nat) (l : list event_t) : M unit :=
  match l with
  | [] => ret tt
  | e :: l' =>
      g <- gets got_sig ;;
      if negb (g =? 0) then ret tt
      else term_write (playback_seq i n e) ;;; playback_loop (S i) n l'
  end.

(** [playback_events_color(events, n)].  The pauses ([nanosleep]) leave
    no trace in the world; a signal is seen through [got_sig]. *)
Definition playback_events_color (events : list event_t) : M unit :=
  match events with
  | [] => ret tt
  | _ =>
      term_write (esc_str "[?1049h") ;;;
      term_write (esc_str "[?25l") ;;;
      term_write (esc_str "[2J") ;;;
      playback_loop O (length events) events ;;;
      term_write (esc_str "[?25h") ;;;
      term_write (esc_str "[?1049l")
  end.

(* ================================================================== *)
(** * [main]: the capture loop                                          *)
(* ================================================================== *)

(** What the option parser of [main] leaves behind. *)
Record config := {
  infinite : bool;
  count_limit : Z;
  click_mode : bool;
  click_N : Z;
  record_mode : bool;
  record_seconds : float;
  out_mode : out_mode_t;
  do_mark : bool
}.

(** The locals of [main] that the loop reads and writes.  [events] and
    [outs] hold the filled entries of the two arrays, so [ev_count] and
    [outs_count] are their lengths. *)
Record loop_state := {
  ls_ev : event_t;
  ls_events : list event_t;
  ls_outs : list out_event_t;
  ls_outs_cap : Z;
  ls_outputs : Z;
  ls_last_emit_time : timespec
}.

Definition ev_count (st : loop_state) : Z := Z.of_nat (length (ls_events st)).
Definition outs_count (st : loop_state) : Z := Z.of_nat (length (ls_outs st)).

Definition set_ev (e : event_t) (st : loop_state) : loop_state :=
  {| ls_ev := e; ls_events := ls_events st; ls_outs := ls_outs st;
     ls_outs_cap := ls_outs_cap st; ls_outputs := ls_outputs st;
     ls_last_emit_time := ls_last_emit_time st |}.

Definition set_events (l : list event_t) (st : loop_state) : loop_state :=
  {| ls_ev := ls_ev st; ls_events := l; ls_outs := ls_outs st;
     ls_outs_cap := ls_outs_cap st; ls_outputs := ls_outputs st;
     ls_last_emit_time := ls_last_emit_time st |}.

Definition set_outs (l : list out_event_t) (cap : Z) (st : loop_state)
  : loop_state :=
  {| ls_ev := ls_ev st; ls_events := ls_events st; ls_outs := l;
     ls_outs_cap := cap; ls_outputs := ls_outputs st;
     ls_last_emit_time := ls_last_emit_time st |}.

Definition set_outputs (n : Z) (st : loop_state) : loop_state :=
  {| ls_ev := ls_ev st; ls_events := ls_events st; ls_outs := ls_outs st;
     ls_outs_cap := ls_outs_cap st; ls_outputs := n;
     ls_last_emit_time := ls_last_emit_time st |}.

Definition set_last_emit_time (t : timespec) (st : loop_state) : loop_state :=
  {| ls_ev := ls_ev st; ls_events := ls_events st; ls_outs := ls_outs st;
     ls_outs_cap := ls_outs_cap st; ls_outputs := ls_outputs st;
     ls_last_emit_time := t |}.

Definition init_state : loop_state :=
  {| ls_ev := event_zero; ls_events := []; ls_outs := []; ls_outs_cap := 0;
     ls_outputs := 0; ls_last_emit_time := ts0 |}.

Definition want_motion (cfg : config) : bool :=
  infinite cfg || record_mode cfg || (count_limit cfg >? 0).


(** The [if (out_mode == OUT_JSONL) ... else if ... else ...] of the loop
    body: the event goes to the output or, in the JSON modes, into
    [outs], which is grown first when it is full.  [None] is the [break]
    after a failed [realloc]. *)
Definition store_event (cfg : config) (ev : event_t) (dt : float)
    (st : loop_state) : M (option loop_state) :=
  match out_mode cfg with
  | OUT_JSONL => print_json_line ev dt ;;; ret (Some st)
  | OUT_JSON | OUT_PRETTY =>
      grown <-
        (if outs_count st + 1 >? ls_outs_cap st then
           let newcap := if negb (ls_outs_cap st =? 0)
                         then Mach.to_size_t (ls_outs_cap st * 2) else 256 in
           ok <- sys_alloc ;;
           if negb ok then print_error 1 "out of memory" ;;; ret None
           else ret (Some newcap)
         else ret (Some (ls_outs_cap st))) ;;
      match grown with
      | None => ret None
      | Some cap =>
          ret (Some (set_outs (ls_outs st ++ [{| oe_ev := ev; oe_dt := dt |}])
                              cap st))
      end
  | OUT_CSV =>
      (if is_press ev then fprint_out (csv_line ev) else ret tt) ;;;
      ret (Some st)
  end.

(** The end of the loop body: [outputs] counts the event if it is a
    press, then the two tests of the limit. *)
Definition count_event (cfg : config) (ev : event_t) (st : loop_state)
  : ctl loop_state loop_state :=
  let st := if is_press ev
            then set_outputs (Mach.int_add (ls_outputs st) 1) st else st in
  if negb (infinite cfg) && (count_limit cfg =? 0) && (ls_outputs st >=? 1)
  then Return st
  else if negb (infinite cfg) && (count_limit cfg >? 0)
          && (ls_outputs st >=? count_limit cfg)
  then Return st
  else Continue st.

(** The part of the loop body that handles an event outside record
    mode, from the mark to the two tests of the limit. *)
Definition emit_event (cfg : config) (st : loop_state)
  : M (ctl loop_state loop_state) :=
  let ev := ls_ev st in
  (if do_mark cfg && is_press ev then draw_mark (ev_x ev) (ev_y ev) else ret tt) ;;;
  cur <- clock_gettime ;;
  let last := ls_last_emit_time st in
  let dt := if negb (tv_sec last =? 0) || negb (tv_nsec last =? 0)
            then ts_diff cur last else Dbl.zero in
  let st := set_last_emit_time cur st in
  r <- store_event cfg ev dt st ;;
  match r with
  | None => ret (Return st)
  | Some st => ret (count_event cfg ev st)
  end.

(** One pass through the body of the [for (;;)] of [main]; [Return] is
    a [break]. *)
Definition loop_pass (cfg : config) (max_events : Z) (rec_start : timespec)
    (st : loop_state) : M (ctl loop_state loop_state) :=
  g <- gets got_sig ;;
  if negb (g =? 0) then ret (Return st)
  else
    t <- (if record_mode cfg then
            now <- clock_gettime ;;
            let elapsed := ts_diff now rec_start in
            let remaining := Dbl.sub (record_seconds cfg) elapsed in
            if Dbl.le remaining Dbl.zero then ret None else ret (Some remaining)
          else ret (Some Dbl.minus_one)) ;;
    match t with
    | None => ret (Return st)
    | Some timeout =>
        r <- read_sgr_event_timeout (ls_ev st) timeout
               (if want_motion cfg then 1 else 0) ;;
        let '(rv, ev) := r in
        let st := set_ev ev st in
        if rv =? -1 then ret (Return st)
        else if rv =? 0 then ret (Continue st)
        else if rv =? 2 then ret (Return st)
        else if record_mode cfg then
          ret (Continue (if ev_count st <? max_events
                         then set_events (ls_events st ++ [ev]) st else st))
        else emit_event cfg st
    end.

(** The [for (;;)] of [main]. *)
Definition main_loop (cfg : config) (max_events : Z) (rec_start : timespec)
    (st : loop_state) : M loop_state :=
  loop (loop_pass cfg max_events rec_start) st.

Definition is_json (m : out_mode_t) : bool :=
  match m with OUT_JSON | OUT_PRETTY => true | _ => false end.

Definition is_pretty (m : out_mode_t) : bool :=
  match m with OUT_PRETTY => true | _ => false end.

(** The [duration] of record mode. *)
Definition record_duration (events : list event_t) : float :=
  if Z.of_nat (length events) >? 1
  then ts_diff (ev_t (last events event_zero)) (ev_t (hd event_zero events))
  else Dbl.zero.

(** The [duration] of the other modes: the sum of the [dt]s. *)
Definition stream_duration (outs : list out_event_t) : float :=
  if Z.of_nat (length outs) >? 1
  then fold_left (fun d o => Dbl.add d (oe_dt o)) outs Dbl.zero
  else Dbl.zero.

(** What [main] does after the loop. *)
Definition finish (cfg : config) (st : loop_state) : M unit :=
  if record_mode cfg then
    started_at <- gets wall_iso ;;
    let events := ls_events st in
    let duration := record_duration events in
    restore_terminal ;;;
    playback_events_color events ;;;
    match out_mode cfg with
    | OUT_JSONL =>
        fprint_out (for_each (fun i e => json_event e (dt_at events i) ++ nl)%string
                             O events)
    | OUT_JSON | OUT_PRETTY =>
        print_json_from_events events (is_pretty (out_mode cfg))
                               "record" started_at duration
    | OUT_CSV =>
        fprint_out (for_each (fun _ e => if is_press e then csv_line e else "")
                             O events)
    end
  else if is_json (out_mode cfg) then
    started_at <- gets wall_iso ;;
    let duration := stream_duration (ls_outs st) in
    restore_terminal ;;;
    print_json_history (ls_outs st) (is_pretty (out_mode cfg))
                       "stream" started_at duration
  else restore_terminal.



(* ================================================================== *)
(** * Helpers of the command line and of multi-click mode               *)
(* ================================================================== *)

(** [parse_positive_int(s, &out)]: [s] is [None] for NULL and otherwise
    the bytes at [s], of which [strtol] sees the C string; [Some v] is
    the return value 1 with [*out = v].  [*end != '\0'] says that the
    conversion stopped before the end of the string. *)
Definition parse_positive_int (s : option (list ascii)) : option Z :=
  match s with
  | None => None
  | Some s =>
      let str := Chr.c_str s in
      let '(v, n, erange) := Chr.strtol str in
      if erange || Nat.eqb n 0 || negb (Nat.eqb n (length str)) || (v <=? 0)
      then None
      else Some v
  end.

(** One pass of the [while (count < total_N && !got_sig)] of
    [wait_multiclick_followups] over its variables [count] and [ev];
    [Return] carries the value that the function returns. *)
Definition multiclick_pass (firstx firsty total_N : Z) (s : Z * event_t)
  : M (ctl (Z * event_t) Z) :=
  let '(count, ev) := s in
  g <- gets got_sig ;;
  if negb ((count <? total_N) && (g =? 0))
  then ret (Return (if count =? total_N then 0 else 1))
  else
    r <- read_sgr_event_timeout ev MULTICLICK_MAX_GAP 0 ;;
    let '(rv, ev) := r in
    if rv =? 0 then ret (Return 1)
    else if rv =? -1 then ret (Return 1)
    else if rv =? 2 then ret (Return 1)
    else if negb (is_press ev) then ret (Continue (count, ev))
    else
      let dx := Mach.int_sub firstx (ev_x ev) in
      let dy := Mach.int_sub firsty (ev_y ev) in
      if Mach.int_add (Mach.int_mul dx dx) (Mach.int_mul dy dy)
         <=? Mach.int_mul MULTICLICK_RADIUS MULTICLICK_RADIUS
      then ret (Continue (Mach.int_add count 1, ev))
      else ret (Return 1).

(** [wait_multiclick_followups(firstx, firsty, total_N)]: 0 for success,
    1 for a mismatch or a timeout.  [ev] is a local that the reader
    fills. *)
Definition wait_multiclick_followups (firstx firsty total_N : Z) : M Z :=
  if total_N <=? 1 then ret 0
  else loop (multiclick_pass firstx firsty total_N) (1, event_zero).

(* ================================================================== *)
(** * [main]: the command line and the start-up                         *)
(* ================================================================== *)

(** [print_warn(msg)] for a message without conversions; [no_warn] is
    the global of that name. *)
Definition print_warn (no_warn : bool) (msg : string) : M unit :=
  if no_warn then ret tt
  else fprint_err (esc_str "[33m(warning)" ++ esc_str "[0m " ++ msg
                   ++ String Chr.LF "")%string.

(** The text of [print_help(me)]. *)
Definition help_text (me : string) : string :=
  ("mouse-tool v1.0 (c) Kamil BuriXon Burek 2026" ++ nl
   ++ "Capture mouse clicks and movements, retrieve click positions, and record mouse activity directly in the terminal." ++ nl ++ nl
   ++ "Usage:" ++ nl
   ++ "  " ++ me ++ " [options]" ++ nl ++ nl
   ++ "Options:" ++ nl
   ++ "  -i, --infinite           keep running, print unique X,Y per change" ++ nl
   ++ "  -n, --count N            stop after N outputs (exclusive with --infinite)" ++ nl
   ++ "  -c, --click N            detect N clicks at same/near position (<=0.5s gap) and print last click (or none on timeout/mismatch)" ++ nl
   ++ "  -m, --mark               draw a dot at click position (works in any mode)" ++ nl
   ++ "  -r, --record SEC         record SEC seconds then playback colorized (old->red, new->green)" ++ nl
   ++ "  -j, --json               collect history and emit JSON at exit" ++ nl
   ++ "  -p, --pretty-json        same as --json but pretty-printed" ++ nl
   ++ "  -l, --jsonl              newline-delimited JSON output (streaming)" ++ nl
   ++ "  -o, --outfile FILE       append outputs to FILE or create it" ++ nl
   ++ "  -a, --append             append to existing outfile (use with -o)" ++ nl
   ++ "  -O, --overwrite          overwrite existing outfile (use with -o)" ++ nl
   ++ "  -N, --no-warn            suppress warnings" ++ nl
   ++ "  -h, --help               show this help" ++ nl ++ nl
   ++ "Short options may be combined (e.g. -im or -mn7)." ++ nl
   ++ "CSV mode streams lines " ++ quoted "X,Y,button" ++ " (default)." ++ nl
   ++ "JSON modes produce JSON metadata + events at exit; --jsonl streams newline-delimited JSON lines." ++ nl
   ++ "Press Enter during continuous/recording to stop listening and finish normally (dump & playback)." ++ nl
   ++ "Exit codes: 0 ok, 1 general error / -c failure, 2 invalid parameter, 3 file not writable, 4 file exists." ++ nl)%string.

Definition print_help (me : string) : M unit := fprint_err (help_text me).

(** The variables that the options set: the locals of [main] from
    [infinite] to [outfile_path] and the globals [do_mark] and
    [no_warn], each with the prefix [o_]. *)
Record options := {
  o_infinite : bool;
  o_count_limit : Z;
  o_click_mode : bool;
  o_click_N : Z;
  o_record_mode : bool;
  o_record_seconds : float;
  o_out_mode : out_mode_t;
  o_append_flag : bool;
  o_overwrite_flag : bool;
  o_outfile_path : option (list ascii);
  o_do_mark : bool;
  o_no_warn : bool
}.

Definition options_init : options :=
  {| o_infinite := false; o_count_limit := 0; o_click_mode := false;
     o_click_N := 0; o_record_mode := false; o_record_seconds := Dbl.zero;
     o_out_mode := OUT_CSV; o_append_flag := false;
     o_overwrite_flag := false; o_outfile_path := None; o_do_mark := false;
     o_no_warn := false |}.

Definition set_infinite (o : options) : options :=
  {| o_infinite := true; o_count_limit := o_count_limit o;
     o_click_mode := o_click_mode o; o_click_N := o_click_N o;
     o_record_mode := o_record_mode o; o_record_seconds := o_record_seconds o;
     o_out_mode := o_out_mode o; o_append_flag := o_append_flag o;
     o_overwrite_flag := o_overwrite_flag o;
     o_outfile_path := o_outfile_path o; o_do_mark := o_do_mark o;
     o_no_warn := o_no_warn o |}.

Definition set_count_limit (n : Z) (o : options) : options :=
  {| o_infinite := o_infinite o; o_count_limit := n;
     o_click_mode := o_click_mode o; o_click_N := o_click_N o;
     o_record_mode := o_record_mode o; o_record_seconds := o_record_seconds o;
     o_out_mode := o_out_mode o; o_append_flag := o_append_flag o;
     o_overwrite_flag := o_overwrite_flag o;
     o_outfile_path := o_outfile_path o; o_do_mark := o_do_mark o;
     o_no_warn := o_no_warn o |}.

Definition set_click (n : Z) (o : options) : options :=
  {| o_infinite := o_infinite o; o_count_limit := o_count_limit o;
     o_click_mode := true; o_click_N := n;
     o_record_mode := o_record_mode o; o_record_seconds := o_record_seconds o;
     o_out_mode := o_out_mode o; o_append_flag := o_append_flag o;
     o_overwrite_flag := o_overwrite_flag o;
     o_outfile_path := o_outfile_path o; o_do_mark := o_do_mark o;
     o_no_warn := o_no_warn o |}.

Definition set_record (secs : float) (o : options) : options :=
  {| o_infinite := o_infinite o; o_count_limit := o_count_limit o;
     o_click_mode := o_click_mode o; o_click_N := o_click_N o;
     o_record_mode := true; o_record_seconds := secs;
     o_out_mode := o_out_mode o; o_append_flag := o_append_flag o;
     o_overwrite_flag := o_overwrite_flag o;
     o_outfile_path := o_outfile_path o; o_do_mark := o_do_mark o;
     o_no_warn := o_no_warn o |}.

Definition set_out_mode (m : out_mode_t) (o : options) : options :=
  {| o_infinite := o_infinite o; o_count_limit := o_count_limit o;
     o_click_mode := o_click_mode o; o_click_N := o_click_N o;
     o_record_mode := o_record_mode o; o_record_seconds := o_record_seconds o;
     o_out_mode := m; o_append_flag := o_append_flag o;
     o_overwrite_flag := o_overwrite_flag o;
     o_outfile_path := o_outfile_path o; o_do_mark := o_do_mark o;
     o_no_warn := o_no_warn o |}.

Definition set_append_flag (b : bool) (o : options) : options :=
  {| o_infinite := o_infinite o; o_count_limit := o_count_limit o;
     o_click_mode := o_click_mode o; o_click_N := o_click_N o;
     o_record_mode := o_record_mode o; o_record_seconds := o_record_seconds o;
     o_out_mode := o_out_mode o; o_append_flag := b;
     o_overwrite_flag := o_overwrite_flag o;
     o_outfile_path := o_outfile_path o; o_do_mark := o_do_mark o;
     o_no_warn := o_no_warn o |}.

Definition set_overwrite_flag (o : options) : options :=
  {| o_infinite := o_infinite o; o_count_limit := o_count_limit o;
     o_click_mode := o_click_mode o; o_click_N := o_click_N o;
     o_record_mode := o_record_mode o; o_record_seconds := o_record_seconds o;
     o_out_mode := o_out_mode o; o_append_flag := o_append_flag o;
     o_overwrite_flag := true;
     o_outfile_path := o_outfile_path o; o_do_mark := o_do_mark o;
     o_no_warn := o_no_warn o |}.

Definition set_outfile_path (p : list ascii) (o : options) : options :=
  {| o_infinite := o_infinite o; o_count_limit := o_count_limit o;
     o_click_mode := o_click_mode o; o_click_N := o_click_N o;
     o_record_mode := o_record_mode o; o_record_seconds := o_record_seconds o;
     o_out_mode := o_out_mode o; o_append_flag := o_append_flag o;
     o_overwrite_flag := o_overwrite_flag o;
     o_outfile_path := Some p; o_do_mark := o_do_mark o;
     o_no_warn := o_no_warn o |}.

Definition set_do_mark (o : options) : options :=
  {| o_infinite := o_infinite o; o_count_limit := o_count_limit o;
     o_click_mode := o_click_mode o; o_click_N := o_click_N o;
     o_record_mode := o_record_mode o; o_record_seconds := o_record_seconds o;
     o_out_mode := o_out_mode o; o_append_flag := o_append_flag o;
     o_overwrite_flag := o_overwrite_flag o;
     o_outfile_path := o_outfile_path o; o_do_mark := true;
     o_no_warn := o_no_warn o |}.

Definition set_no_warn (o : options) : options :=
  {| o_infinite := o_infinite o; o_count_limit := o_count_limit o;
     o_click_mode := o_click_mode o; o_click_N := o_click_N o;
     o_record_mode := o_record_mode o; o_record_seconds := o_record_seconds o;
     o_out_mode := o_out_mode o; o_append_flag := o_append_flag o;
     o_overwrite_flag := o_overwrite_flag o;
     o_outfile_path := o_outfile_path o; o_do_mark := o_do_mark o;
     o_no_warn := true |}.


(** What one call of [getopt_long] returns: the option character (['?']
    for an option it does not know or whose argument is missing) and
    [optarg]. *)
Record getopt_t := { opt_ch : ascii; opt_arg : option (list ascii) }.

(** What the start-up of [main] learns from the system. *)
Record env := {
  isatty_stdin : bool;             (* isatty(STDIN_FILENO) *)
  isatty_stdout : bool;            (* isatty(STDOUT_FILENO) *)
  open_dev_tty : bool;             (* open("/dev/tty", ...) != -1 *)
  isatty_dev_tty : bool;           (* isatty of that descriptor *)
  stat_outfile : bool;             (* stat(outfile_path, ...) == 0 *)
  access_outfile : bool;           (* access(outfile_path, W_OK) == 0 *)
  fopen_outfile : bool;            (* fopen(outfile_path, ...) != NULL *)
  tcgetattr_ok : bool;             (* tcgetattr(ttyfd, ...) != -1 *)
  tcsetattr_ok : bool;             (* tcsetattr(ttyfd, ...) != -1 *)
  strerror_errno : string          (* strerror(errno) after a failure *)
}.

(** The mode of the [fopen] of the output file. *)
Inductive fopen_mode := FOPEN_A | FOPEN_W.

Section CommandLine.

(** [strtod(s, &end)] of the C library: the value, [end - s], and
    whether [errno] was set. *)
Variable strtod : list ascii -> float * nat * bool.

(** [parse_positive_double(s, &out)]. *)
Definition parse_positive_double (s : option (list ascii)) : option float :=
  match s with
  | None => None
  | Some s =>
      let str := Chr.c_str s in
      let '(v, n, erange) := strtod str in
      if erange || Nat.eqb n 0 || negb (Nat.eqb n (length str))
         || Dbl.le v Dbl.zero
      then None
      else Some v
  end.

(** The body of the [while ((ch = getopt_long(...)) != -1)] of [main]
    for one option; [inl code] is a [return code]. *)
Definition option_step (me : string) (g : getopt_t) (o : options)
  : M (Z + options) :=
  let ch := opt_ch g in
  if Chr.eqc ch "i" then ret (inr (set_infinite o))
  else if Chr.eqc ch "n" then
    match parse_positive_int (opt_arg g) with
    | None => print_error 2 "--count/-n requires positive integer" ;;;
              ret (inl 2)
    | Some v => ret (inr (set_count_limit (Mach.to_int v) o))
    end
  else if Chr.eqc ch "c" then
    match parse_positive_int (opt_arg g) with
    | None => print_error 2 "--click/-c requires positive integer" ;;;
              ret (inl 2)
    | Some v => ret (inr (set_click (Mach.to_int v) o))
    end
  else if Chr.eqc ch "m" then ret (inr (set_do_mark o))
  else if Chr.eqc ch "r" then
    match parse_positive_double (opt_arg g) with
    | None => print_error 2 "--record/-r requires positive numeric seconds" ;;;
              ret (inl 2)
    | Some v => ret (inr (set_record v o))
    end
  else if Chr.eqc ch "j" then ret (inr (set_out_mode OUT_JSON o))
  else if Chr.eqc ch "p" then ret (inr (set_out_mode OUT_PRETTY o))
  else if Chr.eqc ch "l" then ret (inr (set_out_mode OUT_JSONL o))
  else if Chr.eqc ch "o" then
    match opt_arg g with
    | None => print_error 2 "--outfile/-o requires a file path" ;;; ret (inl 2)
    | Some p => ret (inr (set_outfile_path p o))
    end
  else if Chr.eqc ch "a" then ret (inr (set_append_flag true o))
  else if Chr.eqc ch "O" then ret (inr (set_overwrite_flag o))
  else if Chr.eqc ch "N" then ret (inr (set_no_warn o))
  else if Chr.eqc ch "h" then print_help me ;;; ret (inl 0)
  else print_error 2 "unknown parameter" ;;; ret (inl 2).

(** The loop over the options that [getopt_long] returns in turn. *)
Fixpoint parse_options (me : string) (l : list getopt_t) (o : options)
  : M (Z + options) :=
  match l with
  | [] => ret (inr o)
  | g :: l' =>
      r <- option_step me g o ;;
      match r with
      | inl code => ret (inl code)
      | inr o' => parse_options me l' o'
      end
  end.

(** The three tests under the comment "exclusivity"; [Some 2] is the
    [return 2]. *)
Definition check_exclusive (o : options) : M (option Z) :=
  if o_infinite o && negb (o_count_limit o =? 0) then
    print_error 2 "--infinite and --count are exclusive" ;;; ret (Some 2)
  else if o_click_mode o
          && (o_infinite o || negb (o_count_limit o =? 0) || o_record_mode o)
  then
    print_error 2 "--click is exclusive with --infinite/--count/--record" ;;;
    ret (Some 2)
  else if o_record_mode o && o_click_mode o then
    print_error 2 "--record and --click are exclusive" ;;; ret (Some 2)
  else ret None.

(** [main] from the test of the terminal to the [tcsetattr]: the mode
    in which the output file was opened, if it was, and the exit code
    of a [return], if there was one. *)
Definition startup (e : env) (o : options)
  : M (option fopen_mode * option Z) :=
  let tty_ok :=
    if negb (isatty_stdin e) || negb (isatty_stdout e)
    then open_dev_tty e && isatty_dev_tty e
    else isatty_stdin e in
  if negb tty_ok then
    print_error 2 "needs interactive terminal" ;;; ret (None, Some 2)
  else
    append_flag <-
      (if o_append_flag o && is_none (o_outfile_path o) then
         print_warn (o_no_warn o)
           "append requested but no outfile specified; continuing without append" ;;;
         ret false
       else ret (o_append_flag o)) ;;
    opened <-
      match o_outfile_path o with
      | None => ret (None, None)
      | Some p =>
          let path := string_of_list_ascii (Chr.c_str p) in
          if stat_outfile e && negb append_flag && negb (o_overwrite_flag o)
          then
            print_error 4 ("output file '" ++ path
                           ++ "' exists (use -a to append or -O to overwrite)") ;;;
            ret (None, Some 4)
          else if stat_outfile e && negb (access_outfile e) then
            print_error 3 ("output file '" ++ path ++ "' is not writable") ;;;
            ret (None, Some 3)
          else
            let mode := if append_flag then FOPEN_A else FOPEN_W in
            if negb (fopen_outfile e) then
              print_error 3 ("cannot open output file '" ++ path ++ "': "
                             ++ strerror_errno e) ;;;
              ret (Some mode, Some 3)
            else ret (Some mode, None)
      end ;;
    match opened with
    | (mode, Some code) => ret (mode, Some code)
    | (mode, None) =>
        if negb (tcgetattr_ok e) then
          print_error 1 ("tcgetattr failed: " ++ strerror_errno e) ;;;
          ret (mode, Some 1)
        else if negb (tcsetattr_ok e) then
          print_error 1 ("tcsetattr failed: " ++ strerror_errno e) ;;;
          ret (mode, Some 1)
        else ret (mode, None)
    end.


End CommandLine.

(* ================================================================== *)
(** * The parser and the conversions on examples                        *)
(* ================================================================== *)

Example parse_sgr_press :
  parse_sgr (bytes "<0;10;11M") = Some (0, 10, 11, "M"%char).
Proof. vm_compute. reflexivity. Qed.

Example parse_sgr_short : parse_sgr (bytes "<1M") = None.
Proof. reflexivity. Qed.

Example parse_sgr_one_semicolon : parse_sgr (bytes "<1;2M") = None.
Proof. reflexivity. Qed.

Example parse_sgr_letter_field : parse_sgr (bytes "<a;2;3M") = None.
Proof. reflexivity. Qed.

Example parse_sgr_numeric_prefix :
  parse_sgr (bytes "<1x;2;3M") = Some (1, 2, 3, "M"%char).
Proof. vm_compute. reflexivity. Qed.

Example parse_sgr_erange :
  parse_sgr (bytes "<1;2;99999999999999999999M") = None.
Proof. vm_compute. reflexivity. Qed.

Example parse_sgr_int_wrap :
  parse_sgr (bytes "<4294967297;2;3M") = Some (1, 2, 3, "M"%char).
Proof. vm_compute. reflexivity. Qed.

Example f6_half : Fmt.f6 Dbl.half = "0.500000".
Proof. vm_compute. reflexivity. Qed.

Example f6_tie_even : Fmt.f6 0x1p-7%float = "0.007812".
Proof. vm_compute. reflexivity. Qed.

Example f6_negative : Fmt.f6 (-12.25)%float = "-12.250000".
Proof. vm_compute. reflexivity. Qed.
(* ================================================================== *)
(** * Facts about the C string functions                                *)
(* ================================================================== *)

Module ChrFacts.
Import Chr.

(** The value of a string of decimal digits. *)
Definition dec_from (acc : Z) (s : list ascii) : Z :=
  fold_left (fun a c => a * 10 + digit_val c) s acc.

Definition dec_val (s : list ascii) : Z := dec_from 0 s.

Definition all_digits (s : list ascii) : bool := forallb isdigit s.

Lemma eqc_refl c : eqc c c = true.
Proof. apply Ascii.eqb_refl. Qed.

Lemma eqc_true a b : eqc a b = true -> a = b.
Proof. apply Ascii.eqb_eq. Qed.

Lemma digit_neq c d : isdigit c = true -> isdigit d = false -> eqc c d = false.
Proof.
  intros Hc Hd. destruct (eqc c d) eqn:E; [|reflexivity].
  apply eqc_true in E; subst; congruence.
Qed.

Lemma digit_not_space c : isdigit c = true -> isspace c = false.
Proof.
  unfold isdigit, isspace; intros H.
  apply andb_true_iff in H; destruct H as [H1 H2].
  apply Z.leb_le in H1.
  apply orb_false_iff; split.
  - apply Z.eqb_neq; lia.
  - apply andb_false_iff; right. apply Z.leb_gt; lia.
Qed.

Lemma digit_val_range c : isdigit c = true -> 0 <= digit_val c <= 9.
Proof.
  unfold isdigit, digit_val; intros H.
  apply andb_true_iff in H; destruct H as [H1 H2].
  apply Z.leb_le in H1; apply Z.leb_le in H2; lia.
Qed.

Lemma dec_from_nonneg s : forall acc,
  all_digits s = true -> 0 <= acc -> 0 <= dec_from acc s.
Proof.
  induction s as [|c s IH]; simpl; intros acc H Hacc; [exact Hacc|].
  apply andb_true_iff in H; destruct H as [Hc Hs].
  apply IH; [exact Hs|]. pose proof (digit_val_range c Hc); lia.
Qed.

Lemma c_str_digits_sep s :
  forallb (fun c => negb (eqc c NUL)) s = true -> c_str s = s.
Proof.
  induction s as [|c s IH]; simpl; intros H; [reflexivity|].
  apply andb_true_iff in H; destruct H as [Hc Hs].
  destruct (eqc c NUL); [discriminate|]. now rewrite IH.
Qed.

Lemma strchr_split_first ch a b :
  forallb (fun c => negb (eqc c ch)) a = true ->
  strchr_split ch (a ++ ch :: b) = Some (a, b).
Proof.
  induction a as [|c a IH]; simpl; intros H.
  - now rewrite eqc_refl.
  - apply andb_true_iff in H; destruct H as [Hc Hs].
    destruct (eqc c ch); [discriminate|]. now rewrite IH.
Qed.


Lemma digits_all s : forall acc,
  all_digits s = true -> digits acc s = (dec_from acc s, length s, []).
Proof.
  induction s as [|c s IH]; simpl; intros acc H; [reflexivity|].
  apply andb_true_iff in H; destruct H as [Hc Hs].
  now rewrite Hc, IH.
Qed.

Lemma forallb_weaken {A} (p q : A -> bool) l :
  (forall a, p a = true -> q a = true) ->
  forallb p l = true -> forallb q l = true.
Proof.
  intros Hpq; induction l as [|a l IH]; simpl; [reflexivity|].
  intros H; apply andb_true_iff in H; destruct H as [Ha Hl].
  now rewrite (Hpq a Ha), IH.
Qed.

Lemma digits_lack s d :
  isdigit d = false -> all_digits s = true ->
  forallb (fun c => negb (eqc c d)) s = true.
Proof.
  intros Hd; apply forallb_weaken; intros c Hc.
  now rewrite (digit_neq c d Hc Hd).
Qed.

(** [strtol] on a numeral that fits a [long]. *)
Lemma strtol_digits s :
  s <> [] -> all_digits s = true -> dec_val s <= Mach.LONG_MAX ->
  strtol s = (dec_val s, length s, false).
Proof.
  intros Hne Hd Hmax. unfold strtol.
  destruct s as [|c s]; [congruence|].
  pose proof Hd as Hd'. simpl in Hd'.
  apply andb_true_iff in Hd'; destruct Hd' as [Hc Hs].
  cbn [skip_spaces]. rewrite (digit_not_space c Hc).
  rewrite (digit_neq c "-" Hc eq_refl), (digit_neq c "+" Hc eq_refl).
  rewrite (digits_all (c :: s) 0 Hd). cbn [length].
  pose proof (dec_from_nonneg (c :: s) 0 Hd (Z.le_refl 0)) as Hnn.
  fold (dec_val (c :: s)) in *.
  destruct (dec_val (c :: s) >? Mach.LONG_MAX) eqn:E1.
  - apply Z.gtb_lt in E1; lia.
  - destruct (dec_val (c :: s) <? Mach.LONG_MIN) eqn:E2.
    + apply Z.ltb_lt in E2; unfold Mach.LONG_MIN in E2; lia.
    + reflexivity.
Qed.


End ChrFacts.

(* ================================================================== *)
(** * Facts about [parse_sgr] and the reader                            *)
(* ================================================================== *)

Section DecoderFacts.
Import Chr ChrFacts.

(** A buffer as the reader hands it over: the ['<'], a body and one
    last byte. *)
Lemma parse_sgr_frame body t :
  (2 <= length body <= 125)%nat ->
  parse_sgr ("<"%char :: body ++ [t]) = parse_sgr_fields (c_str body) t.
Proof.
  intros Hlen. unfold parse_sgr.
  assert (Hl : length ("<"%char :: body ++ [t]) = S (S (length body))).
  { simpl. rewrite length_app. simpl. lia. }
  rewrite Hl.
  replace (Z.of_nat (S (S (length body))) <? 4) with false
    by (symmetry; apply Z.ltb_ge; lia).
  replace (Z.of_nat (S (S (length body))) >=? SGR_BUF) with false
    by (symmetry; rewrite Z.geb_leb; apply Z.leb_gt; unfold SGR_BUF; lia).
  cbn [hd]. rewrite eqc_refl. cbn [negb orb skipn].
  replace (S (S (length body)) - 2)%nat with (length body) by lia.
  rewrite firstn_app, firstn_all, Nat.sub_diag. cbn [firstn].
  rewrite app_nil_r.
  change ("<"%char :: body ++ [t]) with (("<"%char :: body) ++ [t]).
  now rewrite last_last.
Qed.

(** A field of a well-formed sequence: a numeral that fits an [int]. *)
Definition numeral (s : list ascii) : Prop :=
  s <> [] /\ all_digits s = true /\ dec_val s <= Mach.INT_MAX.

Lemma numeral_int s : numeral s -> Mach.int_range (dec_val s).
Proof.
  intros (_ & Hd & Hm). split; [|exact Hm].
  pose proof (dec_from_nonneg s 0 Hd (Z.le_refl 0)).
  unfold dec_val, Mach.INT_MIN; lia.
Qed.

Lemma strtol_numeral s :
  numeral s -> strtol s = (dec_val s, length s, false) /\ length s <> O.
Proof.
  intros (Hne & Hd & Hm). split.
  - apply strtol_digits; auto. unfold Mach.INT_MAX, Mach.LONG_MAX in *; lia.
  - destruct s; simpl; congruence.
Qed.

Definition sgr_body (cb cx cy : list ascii) : list ascii :=
  cb ++ ";"%char :: cx ++ ";"%char :: cy.

Lemma sgr_body_no_nul cb cx cy :
  all_digits cb = true -> all_digits cx = true -> all_digits cy = true ->
  c_str (sgr_body cb cx cy) = sgr_body cb cx cy.
Proof.
  intros H1 H2 H3. apply c_str_digits_sep. unfold sgr_body.
  rewrite forallb_app; cbn [forallb]. rewrite forallb_app; cbn [forallb].
  rewrite !(digits_lack _ NUL eq_refl) by assumption. reflexivity.
Qed.

Lemma parse_sgr_fields_valid cb cx cy t :
  numeral cb -> numeral cx -> numeral cy ->
  parse_sgr_fields (sgr_body cb cx cy) t
  = Some (dec_val cb, dec_val cx, dec_val cy, t).
Proof.
  intros Hb Hx Hy. unfold parse_sgr_fields, sgr_body.
  pose proof Hb as (_ & Db & _). pose proof Hx as (_ & Dx & _).
  rewrite (strchr_split_first ";" cb _ (digits_lack cb ";" eq_refl Db)).
  rewrite (strchr_split_first ";" cx _ (digits_lack cx ";" eq_refl Dx)).
  destruct (strtol_numeral cb Hb) as [-> Nb].
  destruct (strtol_numeral cx Hx) as [-> Nx].
  destruct (strtol_numeral cy Hy) as [-> Ny].
  apply Nat.eqb_neq in Nb, Nx, Ny. rewrite Nb, Nx, Ny. cbn [orb].
  now rewrite !Mach.to_int_id by (apply numeral_int; assumption).
Qed.

Lemma sgr_body_length cb cx cy :
  length (sgr_body cb cx cy) = (length cb + length cx + length cy + 2)%nat.
Proof. unfold sgr_body. rewrite length_app; simpl. rewrite length_app; simpl. lia. Qed.

Lemma parse_sgr_valid cb cx cy t :
  numeral cb -> numeral cx -> numeral cy ->
  (length cb + length cx + length cy <= 123)%nat ->
  parse_sgr ("<"%char :: sgr_body cb cx cy ++ [t])
  = Some (dec_val cb, dec_val cx, dec_val cy, t).
Proof.
  intros Hb Hx Hy Hlen.
  rewrite parse_sgr_frame by (rewrite sgr_body_length; lia).
  rewrite sgr_body_no_nul by (first [apply Hb | apply Hx | apply Hy]).
  now apply parse_sgr_fields_valid.
Qed.

End DecoderFacts.

(* ================================================================== *)
(** * The reader and the queue of [select] outcomes                     *)
(* ================================================================== *)

Section SelectQueue.

(** A computation that calls no [select]. *)
Definition keeps_sel {A} (c : M A) : Prop :=
  forall w a w', c w = Some (a, w') -> sel_q w' = sel_q w.

(** A computation whose calls of [select] take at least one outcome. *)
Definition shrinks_sel {A} (c : M A) : Prop :=
  forall w a w', c w = Some (a, w') ->
                 (length (sel_q w') < length (sel_q w))%nat.

Lemma keeps_ret {A} (a : A) : keeps_sel (ret a).
Proof. intros w a' w' H; inversion H; reflexivity. Qed.

Lemma keeps_bind {A B} (c : M A) (k : A -> M B) :
  keeps_sel c -> (forall a, keeps_sel (k a)) -> keeps_sel (bind c k).
Proof.
  intros Hc Hk w b w' H. unfold bind in H.
  destruct (c w) as [[a w1]|] eqn:E; [|discriminate].
  rewrite (Hk a _ _ _ H). exact (Hc _ _ _ E).
Qed.

Lemma shrinks_bind_l {A B} (c : M A) (k : A -> M B) :
  shrinks_sel c -> (forall a, keeps_sel (k a)) -> shrinks_sel (bind c k).
Proof.
  intros Hc Hk w b w' H. unfold bind in H.
  destruct (c w) as [[a w1]|] eqn:E; [|discriminate].
  rewrite (Hk a _ _ _ H). exact (Hc _ _ _ E).
Qed.


Lemma keeps_modify f :
  (forall w, sel_q (f w) = sel_q w) -> keeps_sel (modify f).
Proof. intros Hf w a w' H; inversion H; apply Hf. Qed.

Lemma keeps_gets {A} (f : world -> A) : keeps_sel (gets f).
Proof. intros w a w' H; inversion H; reflexivity. Qed.

Lemma sel_q_sighandler sig w : sel_q (sighandler sig w) = sel_q w.
Proof. unfold sighandler; destruct (sig =? 0); reflexivity. Qed.


Lemma keeps_sys_read : keeps_sel sys_read.
Proof.
  intros w a w' H. unfold sys_read in H.
  destruct (rd_q w) as [|[c|sig] q]; inversion H; subst;
    [reflexivity | now rewrite sel_q_sighandler].
Qed.

Lemma keeps_clock_gettime : keeps_sel clock_gettime.
Proof. intros w a w' H; inversion H; reflexivity. Qed.

Lemma keeps_sys_alloc : keeps_sel sys_alloc.
Proof. intros w a w' H; inversion H; reflexivity. Qed.

Lemma keeps_term_write s : keeps_sel (term_write s).
Proof. apply keeps_modify; reflexivity. Qed.

Lemma keeps_fprint_out s : keeps_sel (fprint_out s).
Proof. apply keeps_modify; reflexivity. Qed.

Lemma keeps_fprint_err s : keeps_sel (fprint_err s).
Proof. apply keeps_modify; reflexivity. Qed.

Lemma keeps_read_body n : forall buf, keeps_sel (read_body n buf).
Proof.
  induction n as [|n IH]; intros buf; cbn [read_body].
  - apply keeps_ret.
  - apply keeps_bind; [apply keeps_sys_read|].
    intros [c|]; [|apply keeps_ret].
    destruct (Chr.eqc c "M" || Chr.eqc c "m"); [apply keeps_ret|apply IH].
Qed.

Lemma select_pop_shrinks b q o q' :
  select_pop b q = Some (o, q') -> (length q' < length q)%nat.
Proof.
  revert o q'; induction q as [|x q IH]; intros o q' H; [discriminate|].
  destruct x; cbn [select_pop] in H;
    try (inversion H; subst; simpl; lia).
  destruct b; [|inversion H; subst; simpl; lia].
  apply IH in H. simpl; lia.
Qed.

Lemma shrinks_sys_select tv : shrinks_sel (sys_select tv).
Proof.
  intros w o w' H. unfold sys_select in H.
  destruct (select_pop (is_none tv) (sel_q w)) as [[o' q]|] eqn:E;
    [|discriminate].
  apply select_pop_shrinks in E.
  inversion H; subst. destruct o; try rewrite sel_q_sighandler; exact E.
Qed.

End SelectQueue.

Create HintDb selq.
#[local] Hint Resolve keeps_ret keeps_gets keeps_sys_read keeps_clock_gettime
  keeps_sys_alloc keeps_term_write keeps_fprint_out keeps_fprint_err
  keeps_read_body shrinks_sys_select : selq.

(** Walks through a computation built from [bind], [match] and [if]. *)
Ltac sel_walk :=
  repeat first
    [ progress auto with selq
    | apply keeps_bind; [|intros ?]
    | match goal with
      | |- keeps_sel (match ?x with _ => _ end) => destruct x
      | |- keeps_sel (if ?b then _ else _) => destruct b
      | |- shrinks_sel (match ?x with _ => _ end) => destruct x
      | |- shrinks_sel (if ?b then _ else _) => destruct b
      end ].

Section Loops.

Context {St R : Type} (body : St -> M (ctl St R)).

(** A pass that goes on has taken an outcome off [sel_q]. *)
Definition pass_shrinks : Prop :=
  forall s w s' w', body s w = Some (Continue s', w') ->
                    (length (sel_q w') < length (sel_q w))%nat.

(** A pass that ends has not put an outcome onto [sel_q]. *)
Definition pass_bounded : Prop :=
  forall s w c w', body s w = Some (c, w') ->
                   (length (sel_q w') <= length (sel_q w))%nat.

Hypothesis Hshrink : pass_shrinks.

(** The result of a loop does not depend on the fuel once it exceeds the
    number of outcomes left. *)
Lemma loop_fuel_irrelevant : forall f1 f2 s w,
  (length (sel_q w) < f1)%nat -> (length (sel_q w) < f2)%nat ->
  loop_fuel f1 body s w = loop_fuel f2 body s w.
Proof.
  induction f1 as [|f1 IH]; intros f2 s w H1 H2; [lia|].
  destruct f2 as [|f2]; [lia|].
  cbn [loop_fuel]. unfold bind.
  destruct (body s w) as [[c w1]|] eqn:E; [|reflexivity].
  destruct c as [r|s']; [reflexivity|].
  apply Hshrink in E. apply IH; lia.
Qed.

(** The equation of the loop: one pass, then the loop again. *)
Lemma loop_unfold s w :
  loop body s w
  = match body s w with
    | Some (Return r, w') => Some (r, w')
    | Some (Continue s', w') => loop body s' w'
    | None => None
    end.
Proof.
  unfold loop at 1. cbn [loop_fuel]. unfold bind.
  destruct (body s w) as [[[r|s'] w1]|] eqn:E; try reflexivity.
  unfold loop. apply Hshrink in E.
  apply loop_fuel_irrelevant; lia.
Qed.

Lemma loop_fuel_bounded : pass_bounded -> forall f s w r w',
  loop_fuel f body s w = Some (r, w') ->
  (length (sel_q w') <= length (sel_q w))%nat.
Proof.
  intros Hb. induction f as [|f IH]; intros s w r w' H; [discriminate|].
  cbn [loop_fuel] in H. unfold bind in H.
  destruct (body s w) as [[c w1]|] eqn:E; [|discriminate].
  pose proof (Hb _ _ _ _ E).
  destruct c as [r'|s'].
  - inversion H; subst; assumption.
  - apply IH in H. lia.
Qed.

(** A relation between the worlds before and after each pass, closed
    under composition, relates the worlds before and after the loop. *)
Lemma loop_relates (Q : world -> world -> Prop) :
  (forall w1 w2 w3, Q w1 w2 -> Q w2 w3 -> Q w1 w3) ->
  (forall s w c w', body s w = Some (c, w') -> Q w w') ->
  forall s w r w', loop body s w = Some (r, w') -> Q w w'.
Proof.
  intros Htrans Hpass s w r w'. unfold loop.
  generalize (S (length (sel_q w))) as f. intros f; revert s w.
  induction f as [|f IH]; intros s w H; [discriminate|].
  cbn [loop_fuel] in H. unfold bind in H.
  destruct (body s w) as [[c w1]|] eqn:E; [|discriminate].
  pose proof (Hpass _ _ _ _ E) as Q1.
  destruct c as [r'|s'].
  - inversion H; subst; exact Q1.
  - exact (Htrans _ _ _ Q1 (IH _ _ H)).
Qed.

(** A property of the variables and the world that every pass keeps
    holds when the loop ends. *)
Lemma loop_invariant (I : St -> world -> Prop) (Post : R -> world -> Prop) :
  (forall s w c w', I s w -> body s w = Some (c, w') ->
                    match c with
                    | Continue s' => I s' w'
                    | Return r => Post r w'
                    end) ->
  forall s w r w', I s w -> loop body s w = Some (r, w') -> Post r w'.
Proof.
  intros Hpass s w r w'. unfold loop.
  generalize (S (length (sel_q w))) as f. intros f; revert s w.
  induction f as [|f IH]; intros s w HI H; [discriminate|].
  cbn [loop_fuel] in H. unfold bind in H.
  destruct (body s w) as [[c w1]|] eqn:E; [|discriminate].
  pose proof (Hpass _ _ _ _ HI E) as P1.
  destruct c as [r'|s'].
  - inversion H; subst; exact P1.
  - exact (IH _ _ P1 H).
Qed.

End Loops.

Section LoopSimulation.

Context {St R : Type} (body1 body2 : St -> M (ctl St R)).
Context (Rel : St -> St -> Prop) (RelR : R -> R -> Prop).




End LoopSimulation.

Section PassShrinks.

Context {St R : Type}.

(** A pass of a loop body that, when it goes on, has called [select]. *)
Definition cont_shrinks (c : M (ctl St R)) : Prop :=
  forall w s' w', c w = Some (Continue s', w') ->
                  (length (sel_q w') < length (sel_q w))%nat.

Lemma cont_return (r : R) : cont_shrinks (ret (Return r)).
Proof. intros w s' w' H; inversion H. Qed.

Lemma cont_bind_keeps {A} (c : M A) (k : A -> M (ctl St R)) :
  keeps_sel c -> (forall a, cont_shrinks (k a)) -> cont_shrinks (bind c k).
Proof.
  intros Hc Hk w s' w' H. unfold bind in H.
  destruct (c w) as [[a w1]|] eqn:E; [|discriminate].
  rewrite <- (Hc _ _ _ E). exact (Hk a _ _ _ H).
Qed.

Lemma cont_of_shrinks (c : M (ctl St R)) : shrinks_sel c -> cont_shrinks c.
Proof. intros Hc w s' w' H. exact (Hc _ _ _ H). Qed.

Lemma pass_shrinks_of (body : St -> M (ctl St R)) :
  (forall s, cont_shrinks (body s)) -> pass_shrinks body.
Proof. intros H s w s' w' E. exact (H s _ _ _ E). Qed.

End PassShrinks.

Section ReaderFuel.

Lemma shrinks_read_sgr_pass ev to sec usec :
  shrinks_sel (read_sgr_pass ev to sec usec).
Proof.
  unfold read_sgr_pass.
  apply shrinks_bind_l; [apply shrinks_sys_select|].
  intros o. sel_walk.
Qed.

Lemma shrinks_read_sgr_event_timeout ev to wm :
  shrinks_sel (read_sgr_event_timeout ev to wm).
Proof.
  intros w r w' H. unfold read_sgr_event_timeout, loop in H.
  cbn [loop_fuel] in H. unfold bind at 1 in H.
  destruct (read_sgr_pass _ _ _ _ w) as [[c w1]|] eqn:E; [|discriminate].
  apply shrinks_read_sgr_pass in E.
  destruct c as [r'|[]].
  - inversion H; subst; exact E.
  - apply loop_fuel_bounded in H; [lia|].
    intros s w0 c w0' H0. apply shrinks_read_sgr_pass in H0. lia.
Qed.

(** One pass that returns ends the call; one that continues hands the
    rest of the world to the same call. *)
Lemma read_sgr_event_timeout_step ev to wm w :
  read_sgr_event_timeout ev to wm w
  = match read_sgr_pass ev to
            (Mach.to_long (Dbl.trunc to))
            (Mach.to_long (Dbl.trunc
               (Dbl.mul (Dbl.sub to (Dbl.of_long (Mach.to_long (Dbl.trunc to))))
                        Dbl.million))) w with
    | Some (Return r, w1) => Some (r, w1)
    | Some (Continue _, w1) => read_sgr_event_timeout ev to wm w1
    | None => None
    end.
Proof.
  unfold read_sgr_event_timeout. rewrite loop_unfold.
  - destruct (read_sgr_pass _ _ _ _ w) as [[[r|[]] w1]|]; reflexivity.
  - intros s w0 s' w0' H. now apply shrinks_read_sgr_pass in H.
Qed.

End ReaderFuel.

(* ================================================================== *)
(** * The reader on one escape sequence                                 *)
(* ================================================================== *)

Section ReaderSequence.
Import Chr ChrFacts.

Definition is_term (c : ascii) : bool := eqc c "M" || eqc c "m".

(** The timeout argument that [read_sgr_event_timeout] hands to every
    [select] of one call: NULL for a negative [timeout_sec]. *)
Definition select_arg (timeout_sec : float) : option (Z * Z) :=
  if Dbl.lt timeout_sec Dbl.zero then None
  else
    let sec := Mach.to_long (Dbl.trunc timeout_sec) in
    Some (sec,
          Mach.to_long (Dbl.trunc
            (Dbl.mul (Dbl.sub timeout_sec (Dbl.of_long sec)) Dbl.million))).

(** The world after one pass that took a ready [select] and the bytes
    in front of [rest]. *)
Definition after_pass (to : float) (sels : list select_outcome)
    (rest : list read_outcome) (w : world) : world :=
  set_sel_log (sel_log w ++ [select_arg to]) (set_queues sels rest w).

Lemma read_body_terminated body : forall n buf w t rest,
  (length body < n)%nat ->
  forallb (fun c => negb (is_term c)) body = true ->
  is_term t = true ->
  rd_q w = rd_bytes body ++ RD_BYTE t :: rest ->
  read_body n buf w
  = Some (Some (buf ++ body ++ [t]), set_queues (sel_q w) rest w).
Proof.
  induction body as [|c body IH]; intros n buf w t rest Hn Hb Ht Hrd;
    (destruct n as [|n]; [simpl in Hn; lia|]);
    cbn [read_body]; unfold bind, sys_read; rewrite Hrd; cbn [rd_bytes map app].
  - fold (is_term t). rewrite Ht. reflexivity.
  - cbn [forallb] in Hb. apply andb_true_iff in Hb; destruct Hb as [Hc Hb].
    fold (is_term c). apply negb_true_iff in Hc. rewrite Hc.
    rewrite (IH n (buf ++ [c]) _ t rest); [| simpl in Hn; lia | exact Hb
                                           | exact Ht | reflexivity ].
    rewrite <- app_assoc. reflexivity.
Qed.


Lemma bind_select_ready {A} tv (k : select_outcome -> M A) w sels :
  sel_q w = SEL_READY :: sels ->
  bind (sys_select tv) k w
  = k SEL_READY (set_sel_log (sel_log w ++ [tv]) (set_queues sels (rd_q w) w)).
Proof.
  intros H. unfold bind, sys_select. rewrite H.
  destruct tv; reflexivity.
Qed.

Lemma bind_read_byte {A} c (k : option ascii -> M A) w q :
  rd_q w = RD_BYTE c :: q ->
  bind sys_read k w = k (Some c) (set_queues (sel_q w) q w).
Proof. intros H. unfold bind, sys_read. now rewrite H. Qed.


Definition event_of (cb x y : Z) (termch : ascii) (t : timespec) : event_t :=
  {| ev_x := x; ev_y := y; ev_button := cb;
     ev_type := classify cb termch; ev_t := t |}.

(** One pass over [ESC [ < body t]: the outcome is that of [parse_sgr]
    on the buffer the pass has filled. *)
Lemma read_sgr_pass_sequence ev to w sels body t rest :
  sel_q w = SEL_READY :: sels ->
  rd_q w = rd_bytes (csi "<") ++ rd_bytes body ++ RD_BYTE t :: rest ->
  (length body <= 125)%nat ->
  forallb (fun c => negb (is_term c)) body = true ->
  is_term t = true ->
  read_sgr_pass ev to
    (Mach.to_long (Dbl.trunc to))
    (Mach.to_long (Dbl.trunc
       (Dbl.mul (Dbl.sub to (Dbl.of_long (Mach.to_long (Dbl.trunc to))))
                Dbl.million))) w
  = match parse_sgr ("<"%char :: body ++ [t]) with
    | None => Some (Continue tt, after_pass to sels rest w)
    | Some (cb, x, y, termch) =>
        Some (Return (1, event_of cb x y termch (clock w (ticks w))),
              set_ticks (S (ticks w)) (after_pass to sels rest w))
    end.
Proof.
  intros Hsel Hrd Hlen Hb Ht.
  unfold read_sgr_pass. fold (select_arg to).
  rewrite (bind_select_ready _ _ w sels Hsel). cbv iota.
  set (q := rd_bytes body ++ RD_BYTE t :: rest) in *.
  rewrite (bind_read_byte ESC _ _ (RD_BYTE "[" :: RD_BYTE "<" :: q))
    by (cbn [rd_q set_sel_log set_queues]; exact Hrd).
  change (eqc ESC CR || eqc ESC LF) with false.
  change (negb (code ESC =? 27)) with false. cbv iota.
  rewrite (bind_read_byte "[" _ _ (RD_BYTE "<" :: q)) by reflexivity.
  change (negb (eqc "[" "[")) with false. cbv iota.
  rewrite (bind_read_byte "<" _ _ q) by reflexivity.
  change (negb (eqc "<" "<")) with false. cbv iota.
  unfold bind at 1.
  rewrite (read_body_terminated body 126 ["<"%char] _ t rest);
    [| lia | exact Hb | exact Ht | reflexivity ].
  cbn [app]. unfold after_pass.
  destruct (parse_sgr ("<"%char :: body ++ [t])) as [[[[cb x] y] termch]|];
    destruct w; reflexivity.
Qed.

End ReaderSequence.

(* ================================================================== *)
(** * Decoding well-formed sequences                                    *)
(* ================================================================== *)

Section Decoding.
Import Chr ChrFacts.

Lemma sgr_body_no_term cb cx cy :
  all_digits cb = true -> all_digits cx = true -> all_digits cy = true ->
  forallb (fun c => negb (is_term c)) (sgr_body cb cx cy) = true.
Proof.
  intros H1 H2 H3.
  assert (D : forall s, all_digits s = true ->
                        forallb (fun c => negb (is_term c)) s = true).
  { intros s. apply forallb_weaken. intros c Hc. unfold is_term.
    now rewrite (digit_neq c "M" Hc eq_refl), (digit_neq c "m" Hc eq_refl). }
  unfold sgr_body.
  rewrite forallb_app; cbn [forallb]. rewrite forallb_app; cbn [forallb].
  rewrite !D by assumption. reflexivity.
Qed.

Lemma is_term_cases t : is_term t = true <-> t = "M"%char \/ t = "m"%char.
Proof.
  unfold is_term. rewrite orb_true_iff. unfold eqc.
  now rewrite !Ascii.eqb_eq.
Qed.

Lemma classify_press cb t :
  classify cb t = EVT_PRESS <-> t = "M"%char /\ cb < 32.
Proof.
  unfold classify. destruct (eqc t "M") eqn:E.
  - apply eqc_true in E. destruct (cb <? 32) eqn:L.
    + apply Z.ltb_lt in L. intuition congruence.
    + apply Z.ltb_ge in L. split; [discriminate|]. intros [_ H]; lia.
  - split; [discriminate|]. intros [-> _]. discriminate.
Qed.

Lemma classify_motion cb t :
  classify cb t = EVT_MOTION <-> t = "M"%char /\ cb >= 32.
Proof.
  unfold classify. destruct (eqc t "M") eqn:E.
  - apply eqc_true in E. destruct (cb <? 32) eqn:L.
    + apply Z.ltb_lt in L. split; [discriminate|]. intros [_ H]; lia.
    + apply Z.ltb_ge in L. split; [intros _; split; [exact E|lia]|reflexivity].
  - split; [discriminate|]. intros [-> _]. discriminate.
Qed.

Lemma classify_release cb t :
  is_term t = true -> (classify cb t = EVT_RELEASE <-> t = "m"%char).
Proof.
  intros Ht. apply is_term_cases in Ht. unfold classify.
  destruct Ht as [-> | ->]; cbn [eqc Ascii.eqb].
  - change (eqc "M" "M") with true. cbv iota.
    destruct (cb <? 32); split; discriminate.
  - change (eqc "m" "M") with false. cbv iota. split; reflexivity.
Qed.

End Decoding.

(* ================================================================== *)
(** * The timeout that each [select] is given                           *)
(* ================================================================== *)

Section SelectLog.













End SelectLog.

(* ================================================================== *)
(** * What the reader leaves alone                                      *)
(* ================================================================== *)

Section Quiet.

(** The terminal output and [got_sig] are those of [w]. *)
Definition same_term (w w' : world) : Prop :=
  term_out w' = term_out w /\ got_sig w' = got_sig w.

(** A computation that writes nothing to the terminal and catches no
    signal, unless its result is [bad]. *)
Definition quiet_unless {A} (bad : A -> world -> Prop) (c : M A) : Prop :=
  forall w a w', c w = Some (a, w') -> bad a w' \/ same_term w w'.

Lemma same_term_refl w : same_term w w.
Proof. split; reflexivity. Qed.

Lemma same_term_trans w1 w2 w3 :
  same_term w1 w2 -> same_term w2 w3 -> same_term w1 w3.
Proof. intros [A1 A2] [B1 B2]. split; congruence. Qed.

Lemma quiet_ret {A} bad (a : A) : quiet_unless bad (ret a).
Proof. intros w a' w' H; inversion H; right; apply same_term_refl. Qed.

Lemma quiet_bind {A B} (bad1 : A -> world -> Prop) (bad2 : B -> world -> Prop)
    (c : M A) (k : A -> M B) :
  quiet_unless bad1 c ->
  (forall a w1 b w', bad1 a w1 -> k a w1 = Some (b, w') -> bad2 b w') ->
  (forall a, quiet_unless bad2 (k a)) ->
  quiet_unless bad2 (bind c k).
Proof.
  intros Hc Hbad Hk w b w' H. unfold bind in H.
  destruct (c w) as [[a w1]|] eqn:E; [|discriminate].
  destruct (Hc _ _ _ E) as [Ba | S1].
  - left. exact (Hbad _ _ _ _ Ba H).
  - destruct (Hk a _ _ _ H) as [Bb | S2]; [left; exact Bb|].
    right. exact (same_term_trans _ _ _ S1 S2).
Qed.

Lemma quiet_sys_read :
  quiet_unless (fun a _ => a = None) sys_read.
Proof.
  intros w a w' H. unfold sys_read in H.
  destruct (rd_q w) as [|[c|sig] q]; inversion H; subst.
  - right. split; reflexivity.
  - left. reflexivity.
Qed.

Lemma quiet_sys_select tv :
  quiet_unless (fun o w => got_sig w <> 0 /\ exists sig, o = SEL_EINTR sig)
               (sys_select tv).
Proof.
  intros w o w' H. unfold sys_select in H.
  destruct (select_pop _ (sel_q w)) as [[o' q]|]; [|discriminate].
  inversion H; subst. destruct o; try (right; split; reflexivity).
  unfold sighandler. destruct (sig =? 0) eqn:E.
  - right. split; reflexivity.
  - left. split; [cbn; now apply Z.eqb_neq | now exists sig].
Qed.

Lemma quiet_clock_gettime {bad} : quiet_unless bad clock_gettime.
Proof. intros w a w' H; inversion H; right; split; reflexivity. Qed.

Lemma quiet_gets {A} {bad} (f : world -> A) : quiet_unless bad (gets f).
Proof. intros w a w' H; inversion H; right; split; reflexivity. Qed.

Lemma quiet_read_body n : forall buf,
  quiet_unless (fun a _ => a = None) (read_body n buf).
Proof.
  induction n as [|n IH]; intros buf; cbn [read_body].
  - apply quiet_ret.
  - apply (quiet_bind (fun a _ => a = None)); [apply quiet_sys_read | |].
    + intros a w1 b w' -> H. inversion H. reflexivity.
    + intros [c|]; [|apply quiet_ret].
      destruct (Chr.eqc c "M" || Chr.eqc c "m"); [apply quiet_ret | apply IH].
Qed.

(** The result of a pass that has met the end of the input, an error or
    a signal. *)
Definition pass_failed (c : ctl unit (Z * event_t)) (_ : world) : Prop :=
  exists e, c = Return (-1, e).

Lemma quiet_read_sgr_pass ev to sec usec :
  quiet_unless pass_failed (read_sgr_pass ev to sec usec).
Proof.
  unfold read_sgr_pass.
  apply (quiet_bind _ _ _ _ (quiet_sys_select _)).
  { intros o w1 b w' [Hg [sig ->]] H. unfold bind, gets, ret in H.
    apply Z.eqb_neq in Hg. rewrite Hg in H. inversion H. now exists ev. }
  intros o. destruct o; try apply quiet_ret.
  - (* ready *)
    apply (quiet_bind _ _ _ _ quiet_sys_read).
    { intros a w1 b w' -> H. inversion H. now exists ev. }
    intros [c|]; [|apply quiet_ret].
    destruct (Chr.eqc c Chr.CR || Chr.eqc c Chr.LF); [apply quiet_ret|].
    destruct (negb (Chr.code c =? 27)); [apply quiet_ret|].
    apply (quiet_bind _ _ _ _ quiet_sys_read).
    { intros a w1 b w' -> H. inversion H. now exists ev. }
    intros [c1|]; [|apply quiet_ret].
    destruct (negb (Chr.eqc c1 "[")); [apply quiet_ret|].
    apply (quiet_bind _ _ _ _ quiet_sys_read).
    { intros a w1 b w' -> H. inversion H. now exists ev. }
    intros [c2|]; [|apply quiet_ret].
    destruct (negb (Chr.eqc c2 "<")); [apply quiet_ret|].
    apply (quiet_bind _ _ _ _ (quiet_read_body _ _)).
    { intros a w1 b w' -> H. inversion H. now exists ev. }
    intros [buf|]; [|apply quiet_ret].
    destruct (parse_sgr buf) as [[[[cb x] y] termch]|]; [|apply quiet_ret].
    apply (quiet_bind (fun _ _ => False) _ _ _ quiet_clock_gettime).
    { intros a w1 b w' []. }
    intros t. apply quiet_ret.
  - (* interrupted *)
    apply (quiet_bind (fun _ _ => False) _ _ _ (quiet_gets _)).
    { intros a w1 b w' []. }
    intros g. destruct (negb (g =? 0)); apply quiet_ret.
Qed.

(** A call of the reader that returns another code than -1 has written
    nothing to the terminal and has caught no signal. *)
Lemma reader_quiet ev to wm w rv e w' :
  read_sgr_event_timeout ev to wm w = Some ((rv, e), w') ->
  rv <> -1 -> same_term w w'.
Proof.
  intros H Hrv. unfold read_sgr_event_timeout in H.
  refine (loop_invariant _ (fun _ w0 => same_term w w0)
            (fun r w0 => fst r <> -1 -> same_term w w0) _
            tt w (rv, e) w' (same_term_refl w) H Hrv).
  intros s w0 c w0' HI Hp.
  destruct (quiet_read_sgr_pass _ _ _ _ _ _ _ Hp) as [[e' ->] | Hs].
  - cbn [fst]. intros F; now elim F.
  - pose proof (same_term_trans _ _ _ HI Hs).
    destruct c; [intros _|]; assumption.
Qed.

End Quiet.

(* ================================================================== *)
(** * The decoder: well-formed sequences, Enter, rejected sequences     *)
(* ================================================================== *)

Section DecoderProperties.
Import Chr ChrFacts.

(** The reader on a buffer-sized sequence [ESC [ < body t]: an event
    when [parse_sgr] accepts the buffer, and otherwise the same call on
    what follows the terminator.  The body is any bytes but ['M'] and
    ['m'], CR and LF among them. *)
Lemma reader_sequence ev to wm w sels body t rest :
  sel_q w = SEL_READY :: sels ->
  rd_q w = rd_bytes (csi "<") ++ rd_bytes body ++ RD_BYTE t :: rest ->
  (length body <= 125)%nat ->
  forallb (fun c => negb (is_term c)) body = true ->
  is_term t = true ->
  read_sgr_event_timeout ev to wm w
  = match parse_sgr ("<"%char :: body ++ [t]) with
    | None => read_sgr_event_timeout ev to wm (after_pass to sels rest w)
    | Some (cb, x, y, termch) =>
        Some ((1, event_of cb x y termch (clock w (ticks w))),
              set_ticks (S (ticks w)) (after_pass to sels rest w))
    end.
Proof.
  intros Hsel Hrd Hlen Hb Ht.
  rewrite read_sgr_event_timeout_step.
  rewrite (read_sgr_pass_sequence ev to w sels body t rest Hsel Hrd Hlen Hb Ht).
  destruct (parse_sgr ("<"%char :: body ++ [t])) as [[[[cb x] y] termch]|];
    reflexivity.
Qed.

Lemma reader_valid_sequence ev to wm w sels cb cx cy t rest :
  numeral cb -> numeral cx -> numeral cy ->
  (length cb + length cx + length cy <= 123)%nat ->
  is_term t = true ->
  sel_q w = SEL_READY :: sels ->
  rd_q w = rd_bytes (csi "<") ++ rd_bytes (sgr_body cb cx cy)
           ++ RD_BYTE t :: rest ->
  read_sgr_event_timeout ev to wm w
  = Some ((1, event_of (dec_val cb) (dec_val cx) (dec_val cy) t
                       (clock w (ticks w))),
          set_ticks (S (ticks w)) (after_pass to sels rest w)).
Proof.
  intros Hb Hx Hy Hlen Ht Hsel Hrd.
  rewrite (reader_sequence ev to wm w sels (sgr_body cb cx cy) t rest Hsel Hrd);
    [ | rewrite sgr_body_length; lia
      | apply sgr_body_no_term; first [apply Hb | apply Hx | apply Hy]
      | exact Ht ].
  now rewrite (parse_sgr_valid cb cx cy t Hb Hx Hy Hlen).
Qed.

(** C1.  A well-formed sequence [ESC [ < Cb ; Cx ; Cy] followed by ['M'] or
    ['m'] (three numerals that fit an [int], the whole within the scratch
    buffer) makes [read_sgr_event_timeout] return 1 with an event whose
    [x], [y] and [button] are the values of [Cx], [Cy] and [Cb]; the
    bytes of the sequence, and no others, are consumed; the kind is
    press iff the terminator is ['M'] and [Cb < 32], motion iff it is
    ['M'] and [Cb >= 32], and release iff it is ['m']. *)
Theorem sgr_sequence_decodes ev to wm w sels cb cx cy t rest :
  numeral cb -> numeral cx -> numeral cy ->
  (length cb + length cx + length cy <= 123)%nat ->
  t = "M"%char \/ t = "m"%char ->
  sel_q w = SEL_READY :: sels ->
  rd_q w = rd_bytes (csi "<") ++ rd_bytes (sgr_body cb cx cy)
           ++ RD_BYTE t :: rest ->
  exists e w',
    read_sgr_event_timeout ev to wm w = Some ((1, e), w')
    /\ ev_x e = dec_val cx /\ ev_y e = dec_val cy /\ ev_button e = dec_val cb
    /\ ev_t e = clock w (ticks w)
    /\ rd_q w' = rest /\ sel_q w' = sels
    /\ (ev_type e = EVT_PRESS <-> t = "M"%char /\ dec_val cb < 32)
    /\ (ev_type e = EVT_MOTION <-> t = "M"%char /\ dec_val cb >= 32)
    /\ (ev_type e = EVT_RELEASE <-> t = "m"%char).
Proof.
  intros Hb Hx Hy Hlen Ht Hsel Hrd.
  apply is_term_cases in Ht.
  rewrite (reader_valid_sequence ev to wm w sels cb cx cy t rest
             Hb Hx Hy Hlen Ht Hsel Hrd).
  eexists; eexists; split; [reflexivity|].
  cbn [event_of ev_x ev_y ev_button ev_t ev_type].
  do 4 (split; [reflexivity|]).
  do 2 (split; [destruct w; reflexivity|]).
  split; [apply classify_press|].
  split; [apply classify_motion|].
  apply (classify_release _ _ Ht).
Qed.

Lemma numeral_literal s :
  s <> [] -> all_digits s = true -> (dec_val s <=? Mach.INT_MAX) = true ->
  numeral s.
Proof. intros H1 H2 H3. apply Z.leb_le in H3. now repeat split. Qed.

(** ** Enter *)

(** A byte that the scan drops: neither CR, LF nor ESC. *)
Definition dropped (c : ascii) : bool :=
  negb (eqc c CR || eqc c LF) && negb (code c =? 27).

Lemma reader_drops ev to wm w sels c rest :
  dropped c = true ->
  sel_q w = SEL_READY :: sels ->
  rd_q w = RD_BYTE c :: rest ->
  read_sgr_event_timeout ev to wm w
  = read_sgr_event_timeout ev to wm (after_pass to sels rest w).
Proof.
  intros Hc Hsel Hrd. rewrite read_sgr_event_timeout_step.
  unfold read_sgr_pass. fold (select_arg to).
  rewrite (bind_select_ready _ _ w sels Hsel). cbv iota.
  rewrite (bind_read_byte c _ _ rest)
    by (cbn [rd_q set_sel_log set_queues]; exact Hrd).
  unfold dropped in Hc. apply andb_true_iff in Hc. destruct Hc as [H1 H2].
  apply negb_true_iff in H1. rewrite H1, H2. cbv iota.
  unfold ret, after_pass. destruct w; reflexivity.
Qed.

Lemma reader_enter ev to wm w sels c rest :
  c = CR \/ c = LF ->
  sel_q w = SEL_READY :: sels ->
  rd_q w = RD_BYTE c :: rest ->
  read_sgr_event_timeout ev to wm w = Some ((2, ev), after_pass to sels rest w).
Proof.
  intros Hc Hsel Hrd. rewrite read_sgr_event_timeout_step.
  unfold read_sgr_pass. fold (select_arg to).
  rewrite (bind_select_ready _ _ w sels Hsel). cbv iota.
  rewrite (bind_read_byte c _ _ rest)
    by (cbn [rd_q set_sel_log set_queues]; exact Hrd).
  assert (E : eqc c CR || eqc c LF = true)
    by (destruct Hc as [-> | ->]; reflexivity).
  rewrite E. unfold ret, after_pass. destruct w; reflexivity.
Qed.

(** C2 (amended).  When the reader is scanning for the start of a
    sequence, whatever bytes it has dropped before, a CR or LF byte makes
    it return 2 (Enter) with [*ev] untouched, and the byte is the last
    one consumed. *)
Theorem enter_while_scanning junk : forall ev to wm w sels c rest,
  c = CR \/ c = LF ->
  forallb dropped junk = true ->
  sel_q w = repeat SEL_READY (length junk) ++ SEL_READY :: sels ->
  rd_q w = rd_bytes junk ++ RD_BYTE c :: rest ->
  exists w',
    read_sgr_event_timeout ev to wm w = Some ((2, ev), w')
    /\ rd_q w' = rest /\ sel_q w' = sels.
Proof.
  induction junk as [|b junk IH]; intros ev to wm w sels c rest Hc Hj Hsel Hrd.
  - rewrite (reader_enter ev to wm w sels c rest Hc Hsel Hrd).
    eexists; split; [reflexivity|]. split; reflexivity.
  - cbn [forallb] in Hj. apply andb_true_iff in Hj. destruct Hj as [Hb Hj].
    cbn [length repeat app rd_bytes map] in Hsel, Hrd.
    rewrite (reader_drops ev to wm w _ b _ Hb Hsel Hrd).
    apply (IH ev to wm _ sels c rest Hc Hj); reflexivity.
Qed.

End DecoderProperties.

Lemma sgr_sequence_decodes_witness :
  exists e w',
    read_sgr_event_timeout event_zero Dbl.minus_one 0
      (world_of [SEL_READY] (rd_bytes (csi "<0;10;11M"))) = Some ((1, e), w')
    /\ ev_x e = 10 /\ ev_y e = 11 /\ ev_button e = 0
    /\ ev_t e = tick_clock 0
    /\ rd_q w' = [] /\ sel_q w' = []
    /\ (ev_type e = EVT_PRESS <-> "M"%char = "M"%char /\ 0 < 32)
    /\ (ev_type e = EVT_MOTION <-> "M"%char = "M"%char /\ 0 >= 32)
    /\ (ev_type e = EVT_RELEASE <-> "M"%char = "m"%char).
Proof.
  apply (sgr_sequence_decodes event_zero Dbl.minus_one 0
           (world_of [SEL_READY] (rd_bytes (csi "<0;10;11M"))) []
           (bytes "0") (bytes "10") (bytes "11") "M"%char []).
  - apply numeral_literal; [discriminate | reflexivity | reflexivity].
  - apply numeral_literal; [discriminate | reflexivity | reflexivity].
  - apply numeral_literal; [discriminate | reflexivity | reflexivity].
  - simpl; lia.
  - left; reflexivity.
  - reflexivity.
  - reflexivity.
Defined.

Lemma enter_while_scanning_witness :
  exists w',
    read_sgr_event_timeout event_zero MULTICLICK_MAX_GAP 0
      (world_of [SEL_READY; SEL_READY; SEL_READY]
                (rd_bytes (bytes "ab" ++ [Chr.CR] ++ csi "<0;1;1M")))
    = Some ((2, event_zero), w')
    /\ rd_q w' = rd_bytes (csi "<0;1;1M") /\ sel_q w' = [].
Proof.
  apply (enter_while_scanning (bytes "ab") event_zero MULTICLICK_MAX_GAP 0
           (world_of [SEL_READY; SEL_READY; SEL_READY]
                     (rd_bytes (bytes "ab" ++ [Chr.CR] ++ csi "<0;1;1M")))
           [] Chr.CR (rd_bytes (csi "<0;1;1M"))).
  - left; reflexivity.
  - reflexivity.
  - reflexivity.
  - reflexivity.
Defined.

(** C2, as stated, fails inside a sequence: the CR of
    [ESC [ < 0 ; 10 CR ; 11 M] is stored in the scratch buffer, the call
    returns 1 with the event (0, 10, 11), and the CR is gone from the
    input; after a lone ESC the CR is dropped and the next byte is
    scanned. *)
Lemma enter_inside_sequence_lost :
  (exists w',
     read_sgr_event_timeout event_zero Dbl.minus_one 0
       (world_of [SEL_READY]
          (rd_bytes (csi "<0;10" ++ [Chr.CR] ++ bytes ";11M")))
     = Some ((1, {| ev_x := 10; ev_y := 11; ev_button := 0;
                    ev_type := EVT_PRESS; ev_t := tick_clock 0 |}), w')
     /\ rd_q w' = [])
  /\ (exists w',
        read_sgr_event_timeout event_zero Dbl.minus_one 0
          (world_of [SEL_READY; SEL_READY]
             (rd_bytes [Chr.ESC; Chr.CR] ++ [RD_FAIL 0]))
        = Some ((-1, event_zero), w')
        /\ rd_q w' = []).
Proof.
  split; eexists; (split; [vm_compute; reflexivity | reflexivity]).
Qed.

(* ================================================================== *)
(** * Rejected sequences                                                *)
(* ================================================================== *)

Section Rejects.
Import Chr ChrFacts.

(** Does [f] begin, after white space and an optional sign, with a
    decimal digit? *)
Definition begins_with_number (f : list ascii) : bool :=
  let (_, s1) := skip_spaces f in
  let s2 := match s1 with
            | c :: r => if eqc c "-" || eqc c "+" then r else s1
            | [] => s1
            end in
  match s2 with
  | c :: _ => isdigit c
  | [] => false
  end.

Definition lacks (ch : ascii) (s : list ascii) : bool :=
  forallb (fun c => negb (eqc c ch)) s.

(** The bodies that the amended C3 speaks of. *)
Inductive malformed : list ascii -> Prop :=
| mal_semicolon body :
    (count_occ ascii_dec body ";"%char < 2)%nat -> malformed body
| mal_field f1 f2 f3 :
    lacks ";" f1 = true -> lacks ";" f2 = true ->
    lacks NUL (f1 ++ f2 ++ f3) = true ->
    begins_with_number f1 && begins_with_number f2 && begins_with_number f3
    = false ->
    malformed (f1 ++ ";"%char :: f2 ++ ";"%char :: f3).

Lemma strtol_converts_nothing f :
  begins_with_number f = false -> strtol f = (0, O, false).
Proof.
  unfold begins_with_number, strtol.
  destruct (skip_spaces f) as [n s1].
  destruct s1 as [|c r]; [reflexivity|].
  destruct (eqc c "-") eqn:Em; cbn [orb].
  - destruct r as [|d r]; [reflexivity|]. intros H. cbn [digits]. now rewrite H.
  - destruct (eqc c "+") eqn:Ep.
    + destruct r as [|d r]; [reflexivity|]. intros H. cbn [digits]. now rewrite H.
    + intros H. cbn [digits]. now rewrite H.
Qed.

Lemma count_c_str ch s :
  (count_occ ascii_dec (c_str s) ch <= count_occ ascii_dec s ch)%nat.
Proof.
  induction s as [|c s IH]; [apply Nat.le_refl|].
  cbn [c_str]. destruct (eqc c NUL).
  - apply Nat.le_0_l.
  - cbn [count_occ]. destruct (ascii_dec c ch); lia.
Qed.

Lemma strchr_split_count ch s a b :
  strchr_split ch s = Some (a, b) ->
  count_occ ascii_dec s ch = S (count_occ ascii_dec b ch).
Proof.
  revert a; induction s as [|c s IH]; intros a H; [discriminate|].
  cbn [strchr_split] in H. destruct (eqc c ch) eqn:E.
  - apply eqc_true in E; subst c. inversion H; subst.
    cbn [count_occ]. destruct (ascii_dec ch ch); congruence.
  - destruct (strchr_split ch s) as [[a' b']|] eqn:E'; [|discriminate].
    inversion H; subst. cbn [count_occ].
    destruct (ascii_dec c ch) as [->|_]; [now rewrite eqc_refl in E|].
    now apply (IH a').
Qed.

Lemma parse_sgr_fields_semicolons tmp t :
  (count_occ ascii_dec tmp ";"%char < 2)%nat -> parse_sgr_fields tmp t = None.
Proof.
  intros H. unfold parse_sgr_fields.
  destruct (strchr_split ";" tmp) as [[p s1]|] eqn:E1; [|reflexivity].
  destruct (strchr_split ";" s1) as [[s1' s2]|] eqn:E2; [|reflexivity].
  apply strchr_split_count in E1, E2. lia.
Qed.

Lemma parse_sgr_fields_no_number f1 f2 f3 t :
  lacks ";" f1 = true -> lacks ";" f2 = true ->
  begins_with_number f1 && begins_with_number f2 && begins_with_number f3
  = false ->
  parse_sgr_fields (f1 ++ ";"%char :: f2 ++ ";"%char :: f3) t = None.
Proof.
  intros L1 L2 H. unfold parse_sgr_fields.
  rewrite (strchr_split_first ";" f1 _ L1), (strchr_split_first ";" f2 _ L2).
  destruct (begins_with_number f1) eqn:B1.
  - destruct (strtol f1) as [[v1 n1] e1].
    destruct (e1 || Nat.eqb n1 0); [reflexivity|].
    destruct (begins_with_number f2) eqn:B2.
    + destruct (strtol f2) as [[v2 n2] e2].
      destruct (e2 || Nat.eqb n2 0); [reflexivity|].
      cbn [andb] in H. now rewrite (strtol_converts_nothing f3 H).
    + now rewrite (strtol_converts_nothing f2 B2).
  - now rewrite (strtol_converts_nothing f1 B1).
Qed.

Lemma lacks_app ch a b : lacks ch (a ++ b) = lacks ch a && lacks ch b.
Proof. apply forallb_app. Qed.

Lemma parse_sgr_malformed body t :
  malformed body -> (length body <= 125)%nat ->
  parse_sgr ("<"%char :: body ++ [t]) = None.
Proof.
  intros Hm Hlen.
  destruct (Nat.le_gt_cases 2 (length body)) as [H2|H2].
  - rewrite parse_sgr_frame by lia.
    destruct Hm as [body Hc | f1 f2 f3 L1 L2 LN HB].
    + apply parse_sgr_fields_semicolons.
      pose proof (count_c_str ";" body). lia.
    + rewrite c_str_digits_sep.
      * now apply parse_sgr_fields_no_number.
      * fold (lacks NUL (f1 ++ ";"%char :: f2 ++ ";"%char :: f3)).
        rewrite !lacks_app in LN. apply andb_true_iff in LN.
        destruct LN as [N1 LN]. apply andb_true_iff in LN.
        destruct LN as [N2 N3].
        rewrite lacks_app. cbn [lacks forallb]. fold (lacks NUL (f2 ++ ";"%char :: f3)).
        rewrite lacks_app. cbn [lacks forallb]. fold (lacks NUL f3).
        unfold lacks in *. rewrite N1, N2, N3. reflexivity.
  - unfold parse_sgr.
    replace (Z.of_nat (length ("<"%char :: body ++ [t])) <? 4) with true;
      [reflexivity|].
    symmetry. apply Z.ltb_lt. cbn [length]. rewrite length_app. cbn [length]. lia.
Qed.

(** C3 (amended).  A sequence [ESC [ < body t] that ends with ['M'] or
    ['m'] within the scratch buffer and whose body lacks one of the two
    semicolons, or has a field that does not begin with a number, yields
    no event and does not end the call: the reader goes on with the byte
    after the terminator, and a well-formed sequence that comes next is
    the event that the call returns. *)
Theorem rejected_sequence_resync ev to wm w sels body t cb cx cy t' rest :
  malformed body ->
  (length body <= 125)%nat ->
  forallb (fun c => negb (is_term c)) body = true ->
  t = "M"%char \/ t = "m"%char ->
  numeral cb -> numeral cx -> numeral cy ->
  (length cb + length cx + length cy <= 123)%nat ->
  t' = "M"%char \/ t' = "m"%char ->
  sel_q w = SEL_READY :: SEL_READY :: sels ->
  rd_q w = rd_bytes (csi "<") ++ rd_bytes body
           ++ RD_BYTE t
              :: rd_bytes (csi "<") ++ rd_bytes (sgr_body cb cx cy)
                 ++ RD_BYTE t' :: rest ->
  exists w',
    read_sgr_event_timeout ev to wm w
    = Some ((1, event_of (dec_val cb) (dec_val cx) (dec_val cy) t'
                         (clock w (ticks w))), w')
    /\ rd_q w' = rest /\ sel_q w' = sels /\ ticks w' = S (ticks w).
Proof.
  intros Hm Hlen Hb Ht Nb Nx Ny Hl Ht' Hsel Hrd.
  apply is_term_cases in Ht, Ht'.
  rewrite (reader_sequence ev to wm w (SEL_READY :: sels) body t _
             Hsel Hrd Hlen Hb Ht).
  rewrite (parse_sgr_malformed body t Hm Hlen).
  rewrite (reader_valid_sequence ev to wm _ sels cb cx cy t' rest
             Nb Nx Ny Hl Ht');
    [ | reflexivity | reflexivity ].
  eexists; split; [destruct w; reflexivity|].
  destruct w; repeat split; reflexivity.
Qed.

End Rejects.

Lemma rejected_sequence_resync_witness :
  exists w',
    read_sgr_event_timeout event_zero Dbl.minus_one 0
      (world_of [SEL_READY; SEL_READY]
         (rd_bytes (csi "<1;xM" ++ csi "<0;10;11M")))
    = Some ((1, event_of 0 10 11 "M" (tick_clock 0)), w')
    /\ rd_q w' = [] /\ sel_q w' = [] /\ ticks w' = 1%nat.
Proof.
  apply (rejected_sequence_resync event_zero Dbl.minus_one 0
           (world_of [SEL_READY; SEL_READY]
              (rd_bytes (csi "<1;xM" ++ csi "<0;10;11M")))
           [] (bytes "1;x") "M"%char (bytes "0") (bytes "10") (bytes "11")
           "M"%char []).
  - apply mal_semicolon. simpl. lia.
  - simpl; lia.
  - reflexivity.
  - left; reflexivity.
  - apply numeral_literal; [discriminate | reflexivity | reflexivity].
  - apply numeral_literal; [discriminate | reflexivity | reflexivity].
  - apply numeral_literal; [discriminate | reflexivity | reflexivity].
  - simpl; lia.
  - left; reflexivity.
  - reflexivity.
  - reflexivity.
Defined.

(** C3, as stated, fails for a sequence cut off before its terminator:
    the reader keeps filling the scratch buffer up to the next ['M'] or
    ['m'], so [ESC [ < 1 ; 2 ; 3] followed by the well-formed
    [ESC [ < 4 ; 5 ; 6 M] yields the event (1, 2, 3) and the second
    sequence yields none. *)
Lemma truncated_sequence_absorbs_next :
  exists w',
    read_sgr_event_timeout event_zero Dbl.minus_one 0
      (world_of [SEL_READY; SEL_READY]
         (rd_bytes (csi "<1;2;3" ++ csi "<4;5;6M")))
    = Some ((1, {| ev_x := 2; ev_y := 3; ev_button := 1;
                   ev_type := EVT_PRESS; ev_t := tick_clock 0 |}), w')
    /\ rd_q w' = [].
Proof. eexists; split; [vm_compute; reflexivity | reflexivity]. Qed.

(** A field with a numeric prefix is read by its prefix. *)
Example numeric_prefix_accepted :
  rv_of (read_sgr_event_timeout event_zero Dbl.minus_one 0
           (world_of [SEL_READY] (rd_bytes (csi "<1x;2;3M")))) = Some 1.
Proof. vm_compute. reflexivity. Qed.

(** A sequence that fills the scratch buffer without a terminator is
    parsed all the same, with its last byte taken for the terminator:
    here a release at (1, 2). *)
Example oversize_sequence_event :
  exists w',
    read_sgr_event_timeout event_zero Dbl.minus_one 0
      (world_of [SEL_READY]
         (rd_bytes (csi "<0;1;2" ++ repeat "x"%char 121 ++ bytes "yz")))
    = Some ((1, {| ev_x := 1; ev_y := 2; ev_button := 0;
                   ev_type := EVT_RELEASE; ev_t := tick_clock 0 |}), w')
    /\ rd_q w' = rd_bytes (bytes "yz").
Proof. eexists; split; [vm_compute; reflexivity | reflexivity]. Qed.

(** A field that is a letter: the body is malformed by its second
    field, and the sequence yields no event. *)
Example letter_field_malformed : malformed (bytes "1;x;3").
Proof.
  apply (mal_field (bytes "1") (bytes "x") (bytes "3")); reflexivity.
Qed.

Example letter_field_rejected :
  rv_of (read_sgr_event_timeout event_zero MULTICLICK_MAX_GAP 0
           (world_of [SEL_READY; SEL_TIMEOUT] (rd_bytes (csi "<1;x;3M"))))
  = Some 0.
Proof. vm_compute. reflexivity. Qed.

(* ================================================================== *)
(** * Multi-click mode: the cluster                                     *)
(* ================================================================== *)

(** The tests of a return code that is 1. *)
Ltac rv_event :=
  change (1 =? 0) with false; change (1 =? -1) with false;
  change (1 =? 2) with false; change (1 =? 1) with true; cbv iota.

Section Click.

Lemma wait_for_first_press_unfold ev w :
  wait_for_first_press ev w
  = if negb (got_sig w =? 0) then Some ((0, ev), w)
    else match read_sgr_event_timeout ev Dbl.minus_one 0 w with
         | None => None
         | Some ((rv, e), w') =>
             if (rv =? 1) && is_press e then Some ((1, e), w')
             else if rv =? 2 then Some ((0, e), w')
             else if rv =? -1 then Some ((0, e), w')
             else wait_for_first_press e w'
         end.
Proof.
  unfold wait_for_first_press. rewrite loop_unfold.
  - unfold bind, gets, ret.
    destruct (negb (got_sig w =? 0)); [reflexivity|].
    destruct (read_sgr_event_timeout ev Dbl.minus_one 0 w) as [[[rv e] w']|];
      [|reflexivity].
    destruct ((rv =? 1) && is_press e); [reflexivity|].
    destruct (rv =? 2); [reflexivity|].
    destruct (rv =? -1); reflexivity.
  - apply pass_shrinks_of. intros s.
    apply cont_bind_keeps; [apply keeps_gets|]. intros g.
    destruct (negb (g =? 0)); [apply cont_return|].
    apply cont_of_shrinks.
    apply shrinks_bind_l; [apply shrinks_read_sgr_event_timeout|].
    intros [rv e]. sel_walk.
Qed.

Lemma click_followups_unfold N first count last ev w :
  click_followups N first count last ev w
  = if negb ((count <? N) && (got_sig w =? 0))
    then Some (Some (count, last), w)
    else match read_sgr_event_timeout ev MULTICLICK_MAX_GAP 0 w with
         | None => None
         | Some ((rv, e), w') =>
             if rv =? 0 then Some (None, w')
             else if rv =? -1 then Some (None, w')
             else if rv =? 2 then Some (None, w')
             else if negb (is_press e)
                  then click_followups N first count last e w'
             else if within_radius first e
                  then click_followups N first (Mach.int_add count 1) e e w'
             else Some (None, w')
         end.
Proof.
  unfold click_followups. rewrite loop_unfold.
  - unfold followup_pass, bind, gets, ret.
    destruct (negb ((count <? N) && (got_sig w =? 0))); [reflexivity|].
    destruct (read_sgr_event_timeout ev MULTICLICK_MAX_GAP 0 w)
      as [[[rv e] w']|]; [|reflexivity].
    destruct (rv =? 0); [reflexivity|].
    destruct (rv =? -1); [reflexivity|].
    destruct (rv =? 2); [reflexivity|].
    destruct (negb (is_press e)); [reflexivity|].
    destruct (within_radius first e); reflexivity.
  - apply pass_shrinks_of. intros [[c l] e]. unfold followup_pass.
    apply cont_bind_keeps; [apply keeps_gets|]. intros g.
    destruct (negb ((c <? N) && (g =? 0))); [apply cont_return|].
    apply cont_of_shrinks.
    apply shrinks_bind_l; [apply shrinks_read_sgr_event_timeout|].
    intros [rv e']. sel_walk.
Qed.

(** ** The radius *)

Definition dist2 (first e : event_t) : Z :=
  (ev_x first - ev_x e) * (ev_x first - ev_x e)
  + (ev_y first - ev_y e) * (ev_y first - ev_y e).

(** [e] lies within the radius of [first]. *)
Definition near (first e : event_t) : Prop :=
  dist2 first e <= MULTICLICK_RADIUS * MULTICLICK_RADIUS.

(** The coordinates of [first] and [e] are close enough for the [int]
    arithmetic of the distance to be exact (any two positions of a
    terminal are). *)
Definition fits (first e : event_t) : Prop :=
  Z.abs (ev_x first - ev_x e) <= 32767 /\ Z.abs (ev_y first - ev_y e) <= 32767.

Lemma within_radius_exact first e :
  fits first e ->
  within_radius first e = (dist2 first e <=? MULTICLICK_RADIUS * MULTICLICK_RADIUS).
Proof.
  intros [Hx Hy]. unfold within_radius, dist2, Mach.int_sub, Mach.int_mul,
    Mach.int_add.
  set (dx := ev_x first - ev_x e) in *. set (dy := ev_y first - ev_y e) in *.
  assert (Rx : Mach.int_range dx)
    by (unfold Mach.int_range, Mach.INT_MIN, Mach.INT_MAX; lia).
  assert (Ry : Mach.int_range dy)
    by (unfold Mach.int_range, Mach.INT_MIN, Mach.INT_MAX; lia).
  rewrite (Mach.to_int_id dx Rx), (Mach.to_int_id dy Ry).
  assert (Bx : 0 <= dx * dx <= 32767 * 32767) by nia.
  assert (By : 0 <= dy * dy <= 32767 * 32767) by nia.
  rewrite (Mach.to_int_id (dx * dx)), (Mach.to_int_id (dy * dy))
    by (unfold Mach.int_range, Mach.INT_MIN, Mach.INT_MAX; lia).
  rewrite (Mach.to_int_id (dx * dx + dy * dy))
    by (unfold Mach.int_range, Mach.INT_MIN, Mach.INT_MAX; lia).
  rewrite (Mach.to_int_id (MULTICLICK_RADIUS * MULTICLICK_RADIUS))
    by (unfold Mach.int_range, Mach.INT_MIN, Mach.INT_MAX, MULTICLICK_RADIUS; lia).
  reflexivity.
Qed.

Lemma near_fits first e : near first e -> fits first e.
Proof.
  unfold near, fits, dist2, MULTICLICK_RADIUS.
  set (dx := ev_x first - ev_x e). set (dy := ev_y first - ev_y e).
  intros H. split; nia.
Qed.

Lemma within_radius_near first e : near first e -> within_radius first e = true.
Proof.
  intros H. rewrite within_radius_exact by now apply near_fits.
  now apply Z.leb_le.
Qed.


(** ** Waiting for a press *)

(** [awaits to w ev e w']: the reader, called with timeout [to] from the
    world [w] (and [*ev = ev]) until it yields a press, returns events
    that are not presses and then the press [e], in the world [w']. *)
Inductive awaits (to : float) : world -> event_t -> event_t -> world -> Prop :=
| aw_press w ev e w' :
    got_sig w = 0 ->
    read_sgr_event_timeout ev to 0 w = Some ((1, e), w') ->
    is_press e = true ->
    awaits to w ev e w'
| aw_skip w ev e0 w0 e w' :
    got_sig w = 0 ->
    read_sgr_event_timeout ev to 0 w = Some ((1, e0), w0) ->
    is_press e0 = false ->
    awaits to w0 e0 e w' ->
    awaits to w ev e w'.

(** [cluster first w ev es w']: from [w] on, the presses [es] arrive one
    after the other, each within the gap timeout and within the radius of
    [first]; [w'] is the world after the last of them. *)
Inductive cluster (first : event_t)
  : world -> event_t -> list event_t -> world -> Prop :=
| cl_nil w ev : cluster first w ev [] w
| cl_cons w ev e w1 es w' :
    awaits MULTICLICK_MAX_GAP w ev e w1 ->
    near first e ->
    cluster first w1 e es w' ->
    cluster first w ev (e :: es) w'.

Lemma awaits_first_press w ev first w1 :
  awaits Dbl.minus_one w ev first w1 ->
  wait_for_first_press ev w = Some ((1, first), w1).
Proof.
  induction 1 as [w ev e w' Hg Hr Hp | w ev e0 w0 e w' Hg Hr Hp _ IH];
    rewrite wait_for_first_press_unfold, Hg, Hr; cbn [Z.eqb negb];
    rewrite Hp; cbn [andb Z.eqb]; [reflexivity | exact IH].
Qed.

Lemma awaits_followup N first count last w ev e w1 :
  awaits MULTICLICK_MAX_GAP w ev e w1 ->
  count < N ->
  click_followups N first count last ev w
  = if within_radius first e
    then click_followups N first (Mach.int_add count 1) e e w1
    else Some (None, w1).
Proof.
  intros H Hc. apply Z.ltb_lt in Hc.
  induction H as [w ev e w' Hg Hr Hp | w ev e0 w0 e w' Hg Hr Hp _ IH];
    rewrite click_followups_unfold, Hg, Hr, Hc; cbn [Z.eqb negb andb];
    rewrite Hp; cbn [negb]; [reflexivity | exact IH].
Qed.

Lemma last_cons {A} (l : list A) : forall a d, List.last (a :: l) d = List.last l a.
Proof.
  induction l as [|b l IH]; intros a d; [reflexivity|].
  change (List.last (a :: b :: l) d) with (List.last (b :: l) d).
  now rewrite !IH.
Qed.

Lemma cluster_followups N first : forall es w ev w' count last,
  cluster first w ev es w' ->
  1 <= count -> count + Z.of_nat (length es) <= N -> N <= Mach.INT_MAX ->
  click_followups N first count last ev w
  = click_followups N first (count + Z.of_nat (length es))
      (List.last es last) (List.last es ev) w'.
Proof.
  induction es as [|e es IH]; intros w ev w' count last H H1 HN HM;
    inversion H; subst.
  - cbn [length Z.of_nat List.last]. now rewrite Z.add_0_r.
  - cbn [length] in HN. rewrite Nat2Z.inj_succ in HN.
    rewrite (awaits_followup N first count last w ev e w1) by (assumption || lia).
    rewrite within_radius_near by assumption.
    unfold Mach.int_add. rewrite Mach.to_int_id
      by (unfold Mach.int_range, Mach.INT_MIN, Mach.INT_MAX in *; lia).
    rewrite (IH w1 e w' (count + 1) e) by (assumption || lia).
    cbn [length]. rewrite Nat2Z.inj_succ.
    replace (count + 1 + Z.of_nat (length es))
      with (count + Z.succ (Z.of_nat (length es))) by lia.
    now rewrite !last_cons.
Qed.

Lemma click_followups_full N first last ev w :
  click_followups N first N last ev w = Some (Some (N, last), w).
Proof.
  rewrite click_followups_unfold. now rewrite Z.ltb_irrefl.
Qed.

Lemma handle_click_mode_first N m mk sa w first w1 :
  wait_for_first_press event_zero w = Some ((1, first), w1) ->
  handle_click_mode N m mk sa w
  = if N >? 1
    then bind (click_followups N first 1 first event_zero)
              (click_result N m mk sa) w1
    else click_success m mk sa first w1.
Proof.
  intros H. unfold handle_click_mode, bind at 1. rewrite H. cbn [Z.eqb].
  destruct (N >? 1); reflexivity.
Qed.


Lemma click_success_total m mk sa l w :
  exists w', click_success m mk sa l w = Some (0, w').
Proof.
  unfold click_success, emit_click, print_json_line, print_json_history, bind,
    draw_mark, term_write, fprint_out, sys_alloc, modify, ret.
  destruct mk, m; try (eexists; reflexivity);
    destruct (alloc_ok _ _); eexists; reflexivity.
Qed.

(** A run with a full cluster ends in the success path, on the last
    press accepted. *)
Lemma handle_click_mode_cluster N m mk sa w first w1 es w2 :
  1 <= N <= Mach.INT_MAX ->
  awaits Dbl.minus_one w event_zero first w1 ->
  cluster first w1 event_zero es w2 ->
  Z.of_nat (length es) = N - 1 ->
  handle_click_mode N m mk sa w
  = click_success m mk sa (List.last es first) w2.
Proof.
  intros [H1 HM] Hf Hc Hlen.
  rewrite (handle_click_mode_first N m mk sa w first w1
             (awaits_first_press _ _ _ _ Hf)).
  destruct (N >? 1) eqn:EN.
  - unfold bind.
    rewrite (cluster_followups N first es w1 event_zero w2 1 first Hc) by lia.
    replace (1 + Z.of_nat (length es)) with N by lia.
    rewrite click_followups_full. cbn [click_result].
    now rewrite Z.eqb_refl.
  - assert (N = 1) by (rewrite Z.gtb_ltb in EN; apply Z.ltb_ge in EN; lia).
    subst N. destruct es; [|cbn [length] in Hlen; lia].
    inversion Hc; subst. reflexivity.
Qed.


(** ** The wait for a follow-up *)




End Click.

(** ** Three clicks at (10,10), (11,10) and (10,11) *)

Definition press_at (x y : Z) (n : nat) : event_t :=
  {| ev_x := x; ev_y := y; ev_button := 0; ev_type := EVT_PRESS;
     ev_t := tick_clock n |}.

(** Press and release at each of the three positions; every byte is
    there when [select] is called. *)
Definition three_clicks : world :=
  world_of (repeat SEL_READY 5)
    (rd_bytes (csi "<0;10;10M" ++ csi "<0;10;10m" ++ csi "<0;11;10M"
               ++ csi "<0;11;10m" ++ csi "<0;10;11M")).

Definition world_after {A} (c : M A) (w : world) : world :=
  match c w with
  | Some (_, w') => w'
  | None => w
  end.

(** The world after the first press, after the release and after each of
    the two presses that follow. *)
Definition three_clicks_1 : world :=
  Eval vm_compute in
    world_after (read_sgr_event_timeout event_zero Dbl.minus_one 0) three_clicks.

Definition three_clicks_1r : world :=
  Eval vm_compute in
    world_after (read_sgr_event_timeout event_zero MULTICLICK_MAX_GAP 0)
                three_clicks_1.

Definition three_clicks_2 : world :=
  Eval vm_compute in
    world_after (read_sgr_event_timeout event_zero MULTICLICK_MAX_GAP 0)
                three_clicks_1r.

Definition three_clicks_2r : world :=
  Eval vm_compute in
    world_after (read_sgr_event_timeout event_zero MULTICLICK_MAX_GAP 0)
                three_clicks_2.

Definition three_clicks_3 : world :=
  Eval vm_compute in
    world_after (read_sgr_event_timeout event_zero MULTICLICK_MAX_GAP 0)
                three_clicks_2r.

Lemma three_clicks_first :
  awaits Dbl.minus_one three_clicks event_zero (press_at 10 10 0) three_clicks_1.
Proof. apply aw_press; vm_compute; reflexivity. Qed.

Lemma three_clicks_cluster :
  cluster (press_at 10 10 0) three_clicks_1 event_zero
          [press_at 11 10 2; press_at 10 11 4] three_clicks_3.
Proof.
  eapply cl_cons with (w1 := three_clicks_2).
  - eapply aw_skip with (w0 := three_clicks_1r).
    + reflexivity.
    + vm_compute. reflexivity.
    + reflexivity.
    + apply aw_press; vm_compute; reflexivity.
  - vm_compute. discriminate.
  - eapply cl_cons with (w1 := three_clicks_3).
    + eapply aw_skip with (w0 := three_clicks_2r).
      * reflexivity.
      * vm_compute. reflexivity.
      * reflexivity.
      * apply aw_press; vm_compute; reflexivity.
    + vm_compute. discriminate.
    + apply cl_nil.
Qed.


(** The run on the three clicks prints the third, and marks it. *)
Example three_clicks_output :
  exists w,
    handle_click_mode 3 OUT_CSV true "" three_clicks = Some (0, w)
    /\ out_buf w = ("10,11,0" ++ nl)%string
    /\ term_out w = [mark_seq 10 11].
Proof. eexists; split; [vm_compute; reflexivity | split; reflexivity]. Qed.

(** With one click required the anchor is the result. *)
Example one_click_output :
  exists w,
    handle_click_mode 1 OUT_CSV false "" three_clicks = Some (0, w)
    /\ out_buf w = ("10,10,0" ++ nl)%string.
Proof. eexists; split; [vm_compute; reflexivity | reflexivity]. Qed.

(** A second press at (10, 14), four rows from the anchor: no result. *)
Example stray_click_fails :
  exists w,
    handle_click_mode 3 OUT_CSV true "" 
      (world_of (repeat SEL_READY 3)
         (rd_bytes (csi "<0;10;10M" ++ csi "<0;10;14M" ++ csi "<0;10;11M")))
    = Some (1, w)
    /\ out_buf w = "" /\ term_out w = [].
Proof. eexists; split; [vm_compute; reflexivity | split; reflexivity]. Qed.

(** A second press that comes after the gap: no result. *)
Example late_click_fails :
  exists w,
    handle_click_mode 2 OUT_CSV true ""
      (world_of [SEL_READY; SEL_TIMEOUT; SEL_READY]
         (rd_bytes (csi "<0;10;10M" ++ csi "<0;10;10M")))
    = Some (1, w)
    /\ out_buf w = "".
Proof. eexists; split; [vm_compute; reflexivity | reflexivity]. Qed.


(* ================================================================== *)
(** * The capture loop                                                  *)
(* ================================================================== *)

Section Capture.

Definition ctl_state (c : ctl loop_state loop_state) : loop_state :=
  match c with
  | Return s => s
  | Continue s => s
  end.

(** Does the pass leave the loop? *)
Definition stops (c : ctl loop_state loop_state) : bool :=
  match c with
  | Return _ => true
  | Continue _ => false
  end.

Lemma main_loop_unfold cfg mx rs st w :
  main_loop cfg mx rs st w
  = match loop_pass cfg mx rs st w with
    | Some (Return st', w') => Some (st', w')
    | Some (Continue st', w') => main_loop cfg mx rs st' w'
    | None => None
    end.
Proof.
  unfold main_loop. apply loop_unfold.
  apply pass_shrinks_of. intros s. unfold loop_pass.
  apply cont_bind_keeps; [apply keeps_gets|]. intros g.
  destruct (negb (g =? 0)); [apply cont_return|].
  apply cont_bind_keeps; [sel_walk|]. intros [t|]; [|apply cont_return].
  apply cont_of_shrinks.
  apply shrinks_bind_l; [apply shrinks_read_sgr_event_timeout|].
  intros [rv e].
  unfold emit_event, store_event, print_json_line, print_error, draw_mark.
  sel_walk.
Qed.

(** Does the pass over an event have to grow [outs], and fail to? *)
Definition out_of_memory (cfg : config) (st : loop_state) (w : world) : bool :=
  is_json (out_mode cfg)
  && (outs_count st + 1 >? ls_outs_cap st)
  && negb (alloc_ok w (allocs w)).

(** [store_event] writes nothing to the terminal; unless the allocator
    fails it leaves every variable but [outs] (and its capacity) alone,
    and in the JSON modes [outs] has the event as its new last entry. *)
Lemma store_event_effect cfg ev dt st w :
  exists r w2,
    store_event cfg ev dt st w = Some (r, w2)
    /\ term_out w2 = term_out w
    /\ if out_of_memory cfg st w then r = None
       else exists cap,
         r = Some (set_outs (if is_json (out_mode cfg)
                             then ls_outs st ++ [{| oe_ev := ev; oe_dt := dt |}]
                             else ls_outs st) cap st)
         /\ (is_json (out_mode cfg) = false -> cap = ls_outs_cap st).
Proof.
  unfold store_event, out_of_memory, bind, print_json_line, print_error,
    fprint_out, fprint_err, sys_alloc, modify, ret.
  destruct (out_mode cfg); cbn [is_json andb].
  - destruct (is_press ev); eexists; eexists;
      (split; [reflexivity|]); (split; [reflexivity|]);
      exists (ls_outs_cap st); (split; [destruct st; reflexivity|]);
      reflexivity.
  - destruct (outs_count st + 1 >? ls_outs_cap st); cbn [andb].
    + destruct (alloc_ok w (allocs w)); cbn [negb];
        eexists; eexists; (split; [reflexivity|]); (split; [reflexivity|]);
        [eexists; split; [reflexivity | discriminate] | reflexivity].
    + eexists; eexists; (split; [reflexivity|]); (split; [reflexivity|]).
      eexists; split; [reflexivity | discriminate].
  - destruct (outs_count st + 1 >? ls_outs_cap st); cbn [andb].
    + destruct (alloc_ok w (allocs w)); cbn [negb];
        eexists; eexists; (split; [reflexivity|]); (split; [reflexivity|]);
        [eexists; split; [reflexivity | discriminate] | reflexivity].
    + eexists; eexists; (split; [reflexivity|]); (split; [reflexivity|]).
      eexists; split; [reflexivity | discriminate].
  - eexists; eexists; (split; [reflexivity|]); (split; [reflexivity|]).
    exists (ls_outs_cap st); (split; [destruct st; reflexivity|]); reflexivity.
Qed.

(** The two tests of the limit at the end of the loop body. *)
Definition limit_reached (cfg : config) (outputs : Z) : bool :=
  negb (infinite cfg)
  && (((count_limit cfg =? 0) && (outputs >=? 1))
      || ((count_limit cfg >? 0) && (outputs >=? count_limit cfg))).

Lemma count_event_effect cfg ev st :
  ls_outputs (ctl_state (count_event cfg ev st))
  = (if is_press ev then Mach.int_add (ls_outputs st) 1 else ls_outputs st)
  /\ stops (count_event cfg ev st)
     = limit_reached cfg (ls_outputs (ctl_state (count_event cfg ev st)))
  /\ ls_outs (ctl_state (count_event cfg ev st)) = ls_outs st
  /\ ls_ev (ctl_state (count_event cfg ev st)) = ls_ev st
  /\ ls_events (ctl_state (count_event cfg ev st)) = ls_events st.
Proof.
  unfold count_event, limit_reached.
  set (st' := if is_press ev
              then set_outputs (Mach.int_add (ls_outputs st) 1) st else st).
  assert (E : ls_outputs st' = (if is_press ev
                                then Mach.int_add (ls_outputs st) 1
                                else ls_outputs st)
              /\ ls_outs st' = ls_outs st /\ ls_ev st' = ls_ev st
              /\ ls_events st' = ls_events st)
    by (subst st'; destruct (is_press ev); repeat split; reflexivity).
  destruct E as (E1 & E2 & E3 & E4).
  destruct (infinite cfg); cbn [negb andb].
  - cbn [ctl_state stops]. repeat split; assumption.
  - destruct ((count_limit cfg =? 0) && (ls_outputs st' >=? 1)) eqn:T1.
    + cbn [ctl_state stops orb]. rewrite T1. repeat split; assumption.
    + destruct ((count_limit cfg >? 0) && (ls_outputs st' >=? count_limit cfg))
        eqn:T2; cbn [ctl_state stops orb]; rewrite T1, T2;
        repeat split; assumption.
Qed.

(** What [emit_event] does with the event [ls_ev st]: the mark for a
    press when marks are on and nothing else on the terminal; then,
    unless the allocator fails, the event in [outs] in the JSON modes,
    one more output for a press, and the tests of the limit. *)
Lemma emit_event_effect cfg st w :
  exists c w2,
    emit_event cfg st w = Some (c, w2)
    /\ term_out w2
       = term_out w ++ (if do_mark cfg && is_press (ls_ev st)
                        then [mark_seq (ev_x (ls_ev st)) (ev_y (ls_ev st))]
                        else [])
    /\ ls_ev (ctl_state c) = ls_ev st
    /\ ls_events (ctl_state c) = ls_events st
    /\ if out_of_memory cfg st w
       then stops c = true /\ ls_outputs (ctl_state c) = ls_outputs st
            /\ ls_outs (ctl_state c) = ls_outs st
       else
         ls_outputs (ctl_state c)
         = (if is_press (ls_ev st) then Mach.int_add (ls_outputs st) 1
            else ls_outputs st)
         /\ stops c = limit_reached cfg (ls_outputs (ctl_state c))
         /\ exists dt,
              ls_outs (ctl_state c)
              = if is_json (out_mode cfg)
                then ls_outs st ++ [{| oe_ev := ls_ev st; oe_dt := dt |}]
                else ls_outs st.
Proof.
  unfold emit_event.
  set (ev := ls_ev st).
  set (mark := if do_mark cfg && is_press ev
               then draw_mark (ev_x ev) (ev_y ev) else ret tt).
  assert (Hm : exists w1, mark w = Some (tt, w1)
            /\ term_out w1 = term_out w
                 ++ (if do_mark cfg && is_press ev
                     then [mark_seq (ev_x ev) (ev_y ev)] else [])
            /\ alloc_ok w1 = alloc_ok w /\ allocs w1 = allocs w).
  { subst mark. destruct (do_mark cfg && is_press ev).
    - eexists; split; [reflexivity|]. repeat split; reflexivity.
    - eexists; split; [reflexivity|]. cbn [term_out].
      rewrite app_nil_r. repeat split; reflexivity. }
  destruct Hm as (w1 & Hm & Ht1 & Ha1 & Ha2).
  unfold bind at 1. rewrite Hm.
  unfold bind at 1, clock_gettime.
  set (cur := clock w1 (ticks w1)).
  set (dt := if negb (tv_sec (ls_last_emit_time st) =? 0)
                || negb (tv_nsec (ls_last_emit_time st) =? 0)
             then ts_diff cur (ls_last_emit_time st) else Dbl.zero).
  set (st1 := set_last_emit_time cur st).
  set (w1' := set_ticks (S (ticks w1)) w1).
  destruct (store_event_effect cfg ev dt st1 w1') as (r & w2 & Hs & Ht2 & Hr).
  unfold bind. rewrite Hs.
  assert (Ho : out_of_memory cfg st1 w1' = out_of_memory cfg st w).
  { unfold out_of_memory. subst w1' st1. cbn [alloc_ok allocs set_ticks].
    rewrite Ha1, Ha2. destruct st; reflexivity. }
  rewrite Ho in Hr.
  destruct (out_of_memory cfg st w).
  - subst r. eexists; eexists; split; [reflexivity|].
    split; [rewrite Ht2; exact Ht1|].
    subst st1. destruct st. cbn. repeat split; reflexivity.
  - destruct Hr as (cap & -> & Hcap).
    eexists; eexists; split; [reflexivity|].
    split; [rewrite Ht2; exact Ht1|].
    destruct (count_event_effect cfg ev
                (set_outs (if is_json (out_mode cfg)
                           then ls_outs st1 ++ [{| oe_ev := ev; oe_dt := dt |}]
                           else ls_outs st1) cap st1))
      as (C1 & C2 & C3 & C4 & C5).
    split; [rewrite C4; subst st1; destruct st; reflexivity|].
    split; [rewrite C5; subst st1; destruct st; reflexivity|].
    split; [rewrite C1; subst st1; destruct st; reflexivity|].
    split; [exact C2|].
    exists dt. rewrite C3. subst st1. destruct st.
    destruct (is_json (out_mode cfg)); reflexivity.
Qed.

Definition wm_arg (cfg : config) : Z := if want_motion cfg then 1 else 0.

Lemma loop_pass_signal cfg mx rs st w :
  got_sig w <> 0 -> loop_pass cfg mx rs st w = Some (Return st, w).
Proof.
  intros H. unfold loop_pass, bind, gets.
  apply Z.eqb_neq in H. now rewrite H.
Qed.

(** A pass outside record mode. *)
Lemma loop_pass_stream cfg mx rs st w :
  record_mode cfg = false -> got_sig w = 0 ->
  loop_pass cfg mx rs st w
  = match read_sgr_event_timeout (ls_ev st) Dbl.minus_one (wm_arg cfg) w with
    | None => None
    | Some ((rv, e), w1) =>
        if rv =? -1 then Some (Return (set_ev e st), w1)
        else if rv =? 0 then Some (Continue (set_ev e st), w1)
        else if rv =? 2 then Some (Return (set_ev e st), w1)
        else emit_event cfg (set_ev e st) w1
    end.
Proof.
  intros Hr Hg. unfold loop_pass, bind, gets, ret, wm_arg. rewrite Hg, Hr.
  cbn [Z.eqb negb].
  destruct (read_sgr_event_timeout _ _ _ w) as [[[rv e] w1]|]; [|reflexivity].
  destruct (rv =? -1); [reflexivity|].
  destruct (rv =? 0); [reflexivity|].
  destruct (rv =? 2); reflexivity.
Qed.

(** A pass in record mode: the time left is computed from the clock and
    is the timeout of the read; an event is stored while there is room. *)
Lemma loop_pass_record cfg mx rs st w :
  record_mode cfg = true -> got_sig w = 0 ->
  loop_pass cfg mx rs st w
  = let remaining :=
        Dbl.sub (record_seconds cfg) (ts_diff (clock w (ticks w)) rs) in
    let w0 := set_ticks (S (ticks w)) w in
    if Dbl.le remaining Dbl.zero then Some (Return st, w0)
    else
      match read_sgr_event_timeout (ls_ev st) remaining (wm_arg cfg) w0 with
      | None => None
      | Some ((rv, e), w1) =>
          if rv =? -1 then Some (Return (set_ev e st), w1)
          else if rv =? 0 then Some (Continue (set_ev e st), w1)
          else if rv =? 2 then Some (Return (set_ev e st), w1)
          else Some (Continue
                       (if ev_count (set_ev e st) <? mx
                        then set_events (ls_events st ++ [e]) (set_ev e st)
                        else set_ev e st), w1)
      end.
Proof.
  intros Hr Hg. unfold loop_pass, bind, gets, ret, clock_gettime, wm_arg.
  rewrite Hg, Hr. cbn [Z.eqb negb]. cbv zeta.
  destruct (Dbl.le _ Dbl.zero); [reflexivity|].
  destruct (read_sgr_event_timeout _ _ _ _) as [[[rv e] w1]|]; [|reflexivity].
  destruct (rv =? -1); [reflexivity|].
  destruct (rv =? 0); [reflexivity|].
  destruct (rv =? 2); reflexivity.
Qed.

(** ** Limited capture *)







End Capture.

(* ================================================================== *)
(** * Record mode: the buffer                                           *)
(* ================================================================== *)

Section Record.







End Record.

(* ================================================================== *)
(** * Marks                                                             *)
(* ================================================================== *)

Section Marks.

Lemma awaits_quiet to w ev e w' : awaits to w ev e w' -> same_term w w'.
Proof.
  induction 1 as [w ev e w' Hg Hr Hp | w ev e0 w0 e w' Hg Hr Hp _ IH].
  - apply (reader_quiet _ _ _ _ _ _ _ Hr). discriminate.
  - apply (same_term_trans _ w0); [|exact IH].
    apply (reader_quiet _ _ _ _ _ _ _ Hr). discriminate.
Qed.

Lemma cluster_quiet first w ev es w' :
  cluster first w ev es w' -> same_term w w'.
Proof.
  induction 1 as [w ev | w ev e w1 es w' Ha Hn _ IH].
  - apply same_term_refl.
  - exact (same_term_trans _ _ _ (awaits_quiet _ _ _ _ _ Ha) IH).
Qed.

Lemma click_success_mark m mk sa l w :
  exists w', click_success m mk sa l w = Some (0, w')
             /\ term_out w'
                = term_out w ++ (if mk then [mark_seq (ev_x l) (ev_y l)]
                                 else []).
Proof.
  unfold click_success, emit_click, print_json_line, print_json_history, bind,
    draw_mark, term_write, fprint_out, sys_alloc, modify, ret.
  destruct mk, m; try (eexists; split; [reflexivity|]);
    cbn [term_out set_term_out set_out_buf set_allocs alloc_ok allocs];
    rewrite ?app_nil_r; try reflexivity;
    destruct (alloc_ok w (allocs w)); (eexists; split; [reflexivity|]);
    cbn [term_out set_term_out set_out_buf set_allocs];
    rewrite ?app_nil_r; reflexivity.
Qed.

(** C9 (amended).  Outside record mode, a pass of the loop of [main]
    that consumes an event writes the mark of the event to the terminal
    if marks are on and the event is a press, and writes nothing
    otherwise; a pass that consumes no event (timeout, Enter) writes
    nothing.  In multi-click mode a successful run writes one mark, that
    of the press it reports, and none for the presses before it. *)
Theorem marks_follow_presses :
  (forall cfg mx rs st w rv e w1,
     record_mode cfg = false -> got_sig w = 0 ->
     read_sgr_event_timeout (ls_ev st) Dbl.minus_one (wm_arg cfg) w
     = Some ((rv, e), w1) ->
     exists c w2,
       loop_pass cfg mx rs st w = Some (c, w2)
       /\ (rv = 1 ->
           term_out w2
           = term_out w ++ (if do_mark cfg && is_press e
                            then [mark_seq (ev_x e) (ev_y e)] else []))
       /\ (rv = 0 \/ rv = 2 -> term_out w2 = term_out w))
  /\ (forall N m mk sa w first w1 es w2,
        1 <= N <= Mach.INT_MAX ->
        awaits Dbl.minus_one w event_zero first w1 ->
        cluster first w1 event_zero es w2 ->
        Z.of_nat (length es) = N - 1 ->
        exists w3,
          handle_click_mode N m mk sa w = Some (0, w3)
          /\ term_out w3
             = term_out w
               ++ (if mk
                   then [mark_seq (ev_x (List.last es first))
                                  (ev_y (List.last es first))]
                   else [])).
Proof.
  split.
  - intros cfg mx rs st w rv e w1 Hr Hg Hread.
    rewrite (loop_pass_stream cfg mx rs st w Hr Hg), Hread.
    destruct (emit_event_effect cfg (set_ev e st) w1)
      as (c & w2 & He & Ht & _).
    assert (Ee : ls_ev (set_ev e st) = e) by (destruct st; reflexivity).
    rewrite Ee in Ht.
    destruct (Z.eq_dec rv 1) as [->|N1].
    + rv_event. exists c, w2. split; [exact He|]. split.
      * intros _. rewrite Ht.
        destruct (reader_quiet _ _ _ _ _ _ _ Hread) as [Q _]; [discriminate|].
        now rewrite Q.
      * intros [F|F]; discriminate.
    + destruct (rv =? -1) eqn:Em.
      { eexists; eexists; split; [reflexivity|]. split; [contradiction|].
        apply Z.eqb_eq in Em. intros [F|F]; lia. }
      assert (Q : term_out w1 = term_out w).
      { apply Z.eqb_neq in Em.
        now destruct (reader_quiet _ _ _ _ _ _ _ Hread Em). }
      destruct (rv =? 0) eqn:E0.
      { eexists; eexists; split; [reflexivity|]. split; [contradiction|].
        intros _. exact Q. }
      destruct (rv =? 2) eqn:E2.
      { eexists; eexists; split; [reflexivity|]. split; [contradiction|].
        intros _. exact Q. }
      exists c, w2. split; [exact He|]. split; [contradiction|].
      apply Z.eqb_neq in E0, E2. intros [F|F]; contradiction.
  - intros N m mk sa w first w1 es w2 HN Hf Hc Hlen.
    rewrite (handle_click_mode_cluster N m mk sa w first w1 es w2 HN Hf Hc Hlen).
    destruct (click_success_mark m mk sa (List.last es first) w2)
      as (w3 & H3 & T3).
    exists w3. split; [exact H3|]. rewrite T3.
    destruct (awaits_quiet _ _ _ _ _ Hf) as [Q1 _].
    destruct (cluster_quiet _ _ _ _ _ Hc) as [Q2 _].
    now rewrite Q2, Q1.
Qed.

End Marks.

(* ================================================================== *)
(** * The batched JSON output                                           *)
(* ================================================================== *)

Section Output.




(** The text of the array [events] for the entries [l] with their [dt]s. *)
Definition entries_text (pretty : bool) (l : list (event_t * float)) : string :=
  for_each (fun i p => json_entry pretty (length l) i (fst p) (snd p)) O l.

Lemma for_each_map {A B} (g : A -> B) (f : nat -> B -> string) (l : list A) :
  forall i, for_each f i (map g l) = for_each (fun j a => f j (g a)) i l.
Proof.
  induction l as [|a l IH]; intros i; cbn [map for_each]; [reflexivity|].
  now rewrite IH.
Qed.

Lemma for_each_ext {A} (f g : nat -> A -> string) (l : list A) :
  forall i,
    (forall k a, nth_error l k = Some a -> f (i + k)%nat a = g (i + k)%nat a) ->
    for_each f i l = for_each g i l.
Proof.
  induction l as [|a l IH]; intros i H; cbn [for_each]; [reflexivity|].
  f_equal.
  - specialize (H O a eq_refl). now rewrite Nat.add_0_r in H.
  - apply IH. intros k b Hk. specialize (H (S k) b Hk).
    now rewrite Nat.add_succ_r in H.
Qed.

(** The entries that [print_json_from_events] prints: each event with
    the time since the one before it in [all]. *)
Fixpoint with_dt_from (i : nat) (all l : list event_t)
  : list (event_t * float) :=
  match l with
  | [] => []
  | e :: l' => (e, dt_at all i) :: with_dt_from (S i) all l'
  end.

Definition with_dt (events : list event_t) : list (event_t * float) :=
  with_dt_from O events events.


Lemma with_dt_from_length all l : forall i,
  length (with_dt_from i all l) = length l.
Proof.
  induction l as [|e l IH]; intros i; cbn [with_dt_from length];
    [reflexivity | now rewrite IH].
Qed.

Lemma for_each_with_dt pretty n all l : forall i,
  for_each (fun j e => json_entry pretty n j e (dt_at all j)) i l
  = for_each (fun j p => json_entry pretty n j (fst p) (snd p)) i
             (with_dt_from i all l).
Proof.
  induction l as [|e l IH]; intros i; cbn [with_dt_from for_each fst snd];
    [reflexivity | now rewrite IH].
Qed.


Lemma str_app_assoc (a b c : string) :
  ((a ++ b) ++ c = a ++ (b ++ c))%string.
Proof. induction a as [|x a IH]; cbn; [reflexivity | now rewrite IH]. Qed.






(** ** The duration of a recording *)









End Output.

(* ================================================================== *)
(** * Runs of the capture loop                                          *)
(* ================================================================== *)

Definition cfg_stream (inf : bool) (n : Z) (m : out_mode_t) (mk : bool)
  : config :=
  {| infinite := inf; count_limit := n; click_mode := false; click_N := 0;
     record_mode := false; record_seconds := Dbl.zero; out_mode := m;
     do_mark := mk |}.

Definition cfg_record (secs : float) (m : out_mode_t) (mk : bool) : config :=
  {| infinite := false; count_limit := 0; click_mode := false; click_N := 0;
     record_mode := true; record_seconds := secs; out_mode := m;
     do_mark := mk |}.

(** The three clicks, then one second of silence in steps of 0.1 s. *)
Definition three_clicks_then_quiet : world :=
  world_of (repeat SEL_READY 5 ++ repeat SEL_TIMEOUT 10) (rd_q three_clicks).


(** With [-n 2] and [-j] the loop stops at the second press; the
    release between the two presses is in [outs] and is not counted. *)
Example two_presses_captured :
  exists st w,
    main_loop (cfg_stream false 2 OUT_JSON true) 0 ts0 init_state three_clicks
    = Some (st, w)
    /\ ls_outputs st = 2
    /\ map (fun o => ev_type (oe_ev o)) (ls_outs st)
       = [EVT_PRESS; EVT_RELEASE; EVT_PRESS]
    /\ term_out w = [mark_seq 10 10; mark_seq 11 10].
Proof.
  eexists; eexists; split; [vm_compute; reflexivity|].
  repeat split; reflexivity.
Qed.

(** Enter ends the loop at once, below the limit. *)
Example enter_stops_capture :
  exists st w,
    main_loop (cfg_stream false 2 OUT_CSV false) 0 ts0 init_state
      (world_of (repeat SEL_READY 3)
         (rd_bytes (csi "<0;10;10M" ++ [Chr.CR] ++ csi "<0;11;10M")))
    = Some (st, w)
    /\ ls_outputs st = 1
    /\ rd_q w = rd_bytes (csi "<0;11;10M").
Proof.
  eexists; eexists; split; [vm_compute; reflexivity|].
  split; reflexivity.
Qed.


(** A buffer of two events on an input of five: the first two are
    stored, the other three are read and dropped, and the loop ends when
    the second is over. *)
Example record_two_of_five :
  exists st w,
    main_loop (cfg_record 1 OUT_JSON false) 2 (tick_clock 0) init_state
              three_clicks_then_quiet = Some (st, w)
    /\ map (fun e => (ev_x e, ev_y e, ev_type e)) (ls_events st)
       = [(10, 10, EVT_PRESS); (10, 10, EVT_RELEASE)]
    /\ rd_q w = []
    /\ ticks w = 11%nat.
Proof.
  eexists; eexists; split; [vm_compute; reflexivity|].
  repeat split; reflexivity.
Qed.

Lemma marks_follow_presses_witness :
  exists w3,
    handle_click_mode 3 OUT_CSV true "" three_clicks = Some (0, w3)
    /\ term_out w3
       = term_out three_clicks
         ++ (if true
             then [mark_seq
                     (ev_x (List.last [press_at 11 10 2; press_at 10 11 4]
                                      (press_at 10 10 0)))
                     (ev_y (List.last [press_at 11 10 2; press_at 10 11 4]
                                      (press_at 10 10 0)))]
             else []).
Proof.
  refine (proj2 marks_follow_presses 3 OUT_CSV true "" three_clicks
            (press_at 10 10 0) three_clicks_1
            [press_at 11 10 2; press_at 10 11 4] three_clicks_3
            _ three_clicks_first three_clicks_cluster eq_refl).
  unfold Mach.INT_MAX. lia.
Defined.

(** C9, as stated, fails in multi-click mode: the run on the three
    clicks consumes three presses (the input is used up) and, with marks
    on, writes one mark, at (10, 11). *)
Lemma click_mode_marks_last_only :
  exists w,
    handle_click_mode 3 OUT_CSV true "" three_clicks = Some (0, w)
    /\ rd_q w = []
    /\ term_out w = [mark_seq 10 11].
Proof. eexists; split; [vm_compute; reflexivity | split; reflexivity]. Qed.

(** In record mode the loop stores the events and draws no mark, with
    marks on or off. *)
Example record_mode_draws_no_mark :
  exists st w,
    main_loop (cfg_record 1 OUT_CSV true) 2048 (tick_clock 0) init_state
              three_clicks_then_quiet = Some (st, w)
    /\ map is_press (ls_events st) = [true; false; true; false; true]
    /\ term_out w = [].
Proof.
  eexists; eexists; split; [vm_compute; reflexivity|].
  split; reflexivity.
Qed.

Definition recorded_two : loop_state :=
  set_events [press_at 10 10 1; press_at 11 10 9] init_state.


(** Five seconds configured, two events 0.8 s apart: the output says
    0.800000. *)
Example record_duration_printed :
  exists w,
    finish (cfg_record 5 OUT_JSON false) recorded_two three_clicks
    = Some (tt, w)
    /\ out_buf w
       = ("{" ++ quoted "mode" ++ ":" ++ quoted "record" ++ "," ++ quoted "started_at" ++ ":"
          ++ quoted "2026-01-01T00:00:00Z" ++ "," ++ quoted "duration" ++ ":0.800000,"
          ++ quoted "outputs" ++ ":2," ++ quoted "events" ++ ":[{" ++ quoted "x" ++ ":10,"
          ++ quoted "y" ++ ":10," ++ quoted "button" ++ ":0," ++ quoted "type" ++ ":"
          ++ quoted "press" ++ "," ++ quoted "dt" ++ ":0.000000},{" ++ quoted "x" ++ ":11,"
          ++ quoted "y" ++ ":10," ++ quoted "button" ++ ":0," ++ quoted "type" ++ ":"
          ++ quoted "press" ++ "," ++ quoted "dt" ++ ":0.800000}]}" ++ nl)%string.
Proof. eexists; split; [vm_compute; reflexivity | vm_compute; reflexivity]. Qed.

(* ================================================================== *)
(** * Frames: what a computation leaves alone                           *)
(* ================================================================== *)

Section Frames.

(** Every run of [c] takes a world to one that [Q] relates to it. *)
Definition changes {A} (Q : world -> world -> Prop) (c : M A) : Prop :=
  forall w a w', c w = Some (a, w') -> Q w w'.

(** A relation that the reading side of the world stays within: a
    preorder that the queues of the terminal, the log of [select], the
    counter of the clock and the handler of a signal respect. *)
Record frame (Q : world -> world -> Prop) : Prop := {
  fr_refl : forall w, Q w w;
  fr_trans : forall w1 w2 w3, Q w1 w2 -> Q w2 w3 -> Q w1 w3;
  fr_queues : forall sq rq w, Q w (set_queues sq rq w);
  fr_log : forall l w, Q w (set_sel_log l w);
  fr_ticks : forall n w, Q w (set_ticks n w);
  fr_signal : forall sig w, Q w (sighandler sig w)
}.

Context {Q : world -> world -> Prop} (F : frame Q).

Lemma changes_ret {A} (a : A) : changes Q (ret a).
Proof. intros w a' w' H; inversion H; subst; apply (fr_refl Q F). Qed.

Lemma changes_gets {A} (f : world -> A) : changes Q (gets f).
Proof. intros w a' w' H; inversion H; subst; apply (fr_refl Q F). Qed.

Lemma changes_bind {A B} (c : M A) (k : A -> M B) :
  changes Q c -> (forall a, changes Q (k a)) -> changes Q (bind c k).
Proof.
  intros Hc Hk w b w' H. unfold bind in H.
  destruct (c w) as [[a w1]|] eqn:E; [|discriminate].
  exact (fr_trans Q F _ _ _ (Hc _ _ _ E) (Hk a _ _ _ H)).
Qed.


Lemma changes_sys_read : changes Q sys_read.
Proof.
  intros w a w' H. unfold sys_read in H.
  destruct (rd_q w) as [|[c|sig] q]; inversion H; subst.
  - apply (fr_queues Q F).
  - exact (fr_trans Q F _ _ _ (fr_queues Q F _ _ w) (fr_signal Q F _ _)).
Qed.

Lemma changes_sys_select tv : changes Q (sys_select tv).
Proof.
  intros w o w' H. unfold sys_select in H.
  destruct (select_pop _ (sel_q w)) as [[o' q]|]; [|discriminate].
  inversion H; subst.
  assert (Q1 : Q w (set_sel_log (sel_log w ++ [tv]) (set_queues q (rd_q w) w)))
    by exact (fr_trans Q F _ _ _ (fr_queues Q F _ _ w) (fr_log Q F _ _)).
  destruct o; try exact Q1.
  exact (fr_trans Q F _ _ _ Q1 (fr_signal Q F _ _)).
Qed.

Lemma changes_clock_gettime : changes Q clock_gettime.
Proof. intros w a w' H; inversion H; subst; apply (fr_ticks Q F). Qed.

Lemma changes_read_body n : forall buf, changes Q (read_body n buf).
Proof.
  induction n as [|n IH]; intros buf; cbn [read_body].
  - apply changes_ret.
  - apply changes_bind; [apply changes_sys_read|].
    intros [c|]; [|apply changes_ret].
    destruct (Chr.eqc c "M" || Chr.eqc c "m"); [apply changes_ret | apply IH].
Qed.

Lemma changes_loop {St R} (body : St -> M (ctl St R)) :
  (forall s, changes Q (body s)) -> forall s, changes Q (loop body s).
Proof.
  intros Hb s w r w' H.
  refine (loop_relates body Q (fr_trans Q F) _ s w r w' H).
  intros s0 w0 c w0' H0. exact (Hb s0 _ _ _ H0).
Qed.

End Frames.

(** Walks through a computation built from [bind], [match] and [if],
    given the frame [F]. *)
Ltac frame_walk F :=
  repeat first
    [ apply (changes_ret F) | apply (changes_gets F)
    | apply (changes_sys_read F) | apply (changes_sys_select F)
    | apply (changes_clock_gettime F) | apply (changes_read_body F)
    | apply (changes_bind F); [|intros ?]
    | match goal with
      | |- changes _ (match ?x with _ => _ end) => destruct x
      | |- changes _ (if ?b then _ else _) => destruct b
      end ].

Section FramedReader.

Context {Q : world -> world -> Prop} (F : frame Q).

Lemma changes_read_sgr_pass ev to sec usec :
  changes Q (read_sgr_pass ev to sec usec).
Proof. unfold read_sgr_pass. frame_walk F. Qed.

Lemma changes_reader ev to wm : changes Q (read_sgr_event_timeout ev to wm).
Proof.
  unfold read_sgr_event_timeout. apply (changes_loop F).
  intros _. apply changes_read_sgr_pass.
Qed.

Lemma changes_wait_for_first_press ev : changes Q (wait_for_first_press ev).
Proof.
  unfold wait_for_first_press. apply (changes_loop F). intros e.
  apply (changes_bind F); [apply (changes_gets F)|]. intros g.
  destruct (negb (g =? 0)); [apply (changes_ret F)|].
  apply (changes_bind F); [apply changes_reader|]. intros [rv e'].
  frame_walk F.
Qed.

Lemma changes_click_followups N first count last ev :
  changes Q (click_followups N first count last ev).
Proof.
  unfold click_followups. apply (changes_loop F). intros [[c l] e].
  unfold followup_pass.
  apply (changes_bind F); [apply (changes_gets F)|]. intros g.
  destruct (negb ((c <? N) && (g =? 0))); [apply (changes_ret F)|].
  apply (changes_bind F); [apply changes_reader|]. intros [rv e'].
  frame_walk F.
Qed.

End FramedReader.

(** ** The reader's frame *)

Section SignalsOnly.

(** From [w] to [w'] nothing was printed to the output, nothing
    allocated and the terminal was not restored; what was written to the
    terminal are the restore sequences of [k] caught signals.  (Nothing
    is said of stderr, where the handler of SIGWINCH may write its
    warning.) *)
Definition signals_only (w w' : world) : Prop :=
  out_buf w' = out_buf w
  /\ allocs w' = allocs w /\ alloc_ok w' = alloc_ok w
  /\ cleanup_done w' = cleanup_done w
  /\ wall_iso w' = wall_iso w /\ clock w' = clock w
  /\ exists k, term_out w' = term_out w ++ repeat restore_seq k.

Lemma signals_only_refl w : signals_only w w.
Proof.
  repeat split. exists O. cbn [repeat]. now rewrite app_nil_r.
Qed.

Lemma signals_only_trans w1 w2 w3 :
  signals_only w1 w2 -> signals_only w2 w3 -> signals_only w1 w3.
Proof.
  intros (A1 & A3 & A4 & A5 & A6 & A7 & k1 & A8)
         (B1 & B3 & B4 & B5 & B6 & B7 & k2 & B8).
  repeat split; try congruence.
  exists (k1 + k2)%nat. rewrite B8, A8, <- app_assoc, repeat_app. reflexivity.
Qed.

Lemma signals_only_frame : frame signals_only.
Proof.
  assert (Same : forall w w',
            out_buf w' = out_buf w ->
            allocs w' = allocs w -> alloc_ok w' = alloc_ok w ->
            cleanup_done w' = cleanup_done w -> wall_iso w' = wall_iso w ->
            clock w' = clock w -> term_out w' = term_out w ->
            signals_only w w').
  { intros w w' H1 H3 H4 H5 H6 H7 H8. repeat split; try assumption.
    exists O. cbn [repeat]. now rewrite app_nil_r. }
  split.
  - apply signals_only_refl.
  - apply signals_only_trans.
  - intros sq rq w. apply Same; reflexivity.
  - intros l w. apply Same; reflexivity.
  - intros n w. apply Same; reflexivity.
  - intros sig w. unfold sighandler. destruct (sig =? 0).
    + apply signals_only_refl.
    + repeat split. exists 1%nat. reflexivity.
Qed.

End SignalsOnly.

(* ================================================================== *)
(** * The reader: return codes, the scratch buffer, noise               *)
(* ================================================================== *)

Section ReaderResults.
Import Chr ChrFacts.

Lemma to_int_range z : Mach.int_range (Mach.to_int z).
Proof.
  unfold Mach.int_range, Mach.INT_MIN, Mach.INT_MAX, Mach.to_int, Mach.sext.
  change (2 ^ (32 - 1)) with 2147483648. change (2 ^ 32) with 4294967296.
  pose proof (Z.mod_pos_bound (z + 2147483648) 4294967296 eq_refl). lia.
Qed.

(** A [select] without a timeout does not report one. *)
Lemma select_pop_blocking q : forall o q',
  select_pop true q = Some (o, q') -> o <> SEL_TIMEOUT.
Proof.
  induction q as [|x q IH]; intros o q' H; [discriminate|].
  destruct x; cbn [select_pop] in H;
    try (inversion H; subst; discriminate).
  exact (IH _ _ H).
Qed.

Lemma sys_select_timeout tv w w' :
  sys_select tv w = Some (SEL_TIMEOUT, w') -> tv <> None.
Proof.
  unfold sys_select. intros H ->. cbn [is_none] in H.
  destruct (select_pop true (sel_q w)) as [[o q]|] eqn:E; [|discriminate].
  apply select_pop_blocking in E. inversion H; subst. now apply E.
Qed.

Lemma strchr_split_app ch s a b :
  strchr_split ch s = Some (a, b) -> s = a ++ ch :: b.
Proof.
  revert a; induction s as [|c s IH]; intros a H; [discriminate|].
  cbn [strchr_split] in H. destruct (eqc c ch) eqn:E.
  - apply eqc_true in E; subst c. inversion H; subst. reflexivity.
  - destruct (strchr_split ch s) as [[a' b']|]; [|discriminate].
    inversion H; subst. cbn [app]. f_equal. now apply IH.
Qed.

Lemma c_str_length l : (length (c_str l) <= length l)%nat.
Proof.
  induction l as [|c l IH]; [apply Nat.le_refl|].
  cbn [c_str]. destruct (eqc c NUL); cbn [length]; lia.
Qed.

(** What [parse_sgr_fields] accepts has three fields that are not
    empty, and what it returns are [int]s. *)
Lemma parse_sgr_fields_accepts tmp t cb cx cy t' :
  parse_sgr_fields tmp t = Some (cb, cx, cy, t') ->
  t' = t /\ (5 <= length tmp)%nat
  /\ Mach.int_range cb /\ Mach.int_range cx /\ Mach.int_range cy.
Proof.
  unfold parse_sgr_fields. intros H.
  destruct (strchr_split ";" tmp) as [[p s1]|] eqn:E1; [|discriminate].
  destruct (strchr_split ";" s1) as [[s1' s2]|] eqn:E2; [|discriminate].
  apply strchr_split_app in E1, E2. subst tmp s1.
  destruct (strtol p) as [[v1 n1] e1] eqn:S1.
  destruct (e1 || Nat.eqb n1 0) eqn:G1; [discriminate|].
  destruct (strtol s1') as [[v2 n2] e2] eqn:S2.
  destruct (e2 || Nat.eqb n2 0) eqn:G2; [discriminate|].
  destruct (strtol s2) as [[v3 n3] e3] eqn:S3.
  destruct (e3 || Nat.eqb n3 0) eqn:G3; [discriminate|].
  inversion H; subst. split; [reflexivity|].
  split; [|repeat split; apply to_int_range].
  apply orb_false_iff in G1, G2, G3.
  destruct G1 as [_ G1], G2 as [_ G2], G3 as [_ G3].
  apply Nat.eqb_neq in G1, G2, G3.
  assert (N : forall s v n e, strtol s = (v, n, e) -> n <> O ->
                              (1 <= length s)%nat).
  { intros s v n e Hs Hn. destruct s; [|cbn [length]; lia].
    cbv in Hs. inversion Hs; subst. congruence. }
  pose proof (N _ _ _ _ S1 G1). pose proof (N _ _ _ _ S2 G2).
  pose proof (N _ _ _ _ S3 G3).
  rewrite length_app. cbn [length]. rewrite length_app. cbn [length]. lia.
Qed.

Lemma parse_sgr_accepts_only buf cb cx cy t :
  parse_sgr buf = Some (cb, cx, cy, t) ->
  (7 <= length buf <= 127)%nat
  /\ hd NUL buf = "<"%char
  /\ t = last buf NUL
  /\ Mach.int_range cb /\ Mach.int_range cx /\ Mach.int_range cy.
Proof.
  unfold parse_sgr. intros H.
  destruct (Z.of_nat (length buf) <? 4) eqn:G1; [discriminate|].
  destruct (eqc (hd NUL buf) "<") eqn:G2; [|discriminate].
  destruct (Z.of_nat (length buf) >=? SGR_BUF) eqn:G3; [discriminate|].
  cbn [negb orb] in H.
  apply parse_sgr_fields_accepts in H.
  destruct H as (Ht & Hl & R1 & R2 & R3).
  apply eqc_true in G2. rewrite Z.geb_leb in G3. apply Z.leb_gt in G3.
  unfold SGR_BUF in G3.
  pose proof (c_str_length (firstn (length buf - 2) (skipn 1 buf))) as L.
  rewrite length_firstn, length_skipn in L.
  split; [lia|]. split; [exact G2|]. split; [exact Ht|]. auto.
Qed.

(** The outcome of one pass of the reader that ends the call. *)
Definition pass_outcome (ev : event_t) (to : float) (rv : Z) (e : event_t)
  : Prop :=
  ((rv = -1 \/ rv = 2) /\ e = ev)
  \/ (rv = 0 /\ e = ev /\ Dbl.lt to Dbl.zero = false)
  \/ (rv = 1 /\ Mach.int_range (ev_x e) /\ Mach.int_range (ev_y e)
      /\ Mach.int_range (ev_button e)).

Lemma read_sgr_pass_outcome ev to sec usec w rv e w' :
  read_sgr_pass ev to sec usec w = Some (Return (rv, e), w') ->
  pass_outcome ev to rv e.
Proof.
  unfold read_sgr_pass. intros H. unfold bind at 1 in H.
  destruct (sys_select _ w) as [[o w1]|] eqn:Es; [|discriminate].
  assert (Fail : forall w0 : world,
            Some (Return (-1, ev), w0)
            = Some (@Return unit (Z * event_t) (rv, e), w') ->
            pass_outcome ev to rv e).
  { intros w0 E. inversion E; subst. left. split; [now left | reflexivity]. }
  destruct o.
  - (* ready *)
    unfold bind at 1 in H.
    destruct (sys_read w1) as [[[c|] w2]|]; [| exact (Fail _ H) | discriminate].
    destruct (eqc c CR || eqc c LF).
    { inversion H; subst. left. split; [now right | reflexivity]. }
    destruct (negb (code c =? 27)); [discriminate|].
    unfold bind at 1 in H.
    destruct (sys_read w2) as [[[c1|] w3]|]; [| exact (Fail _ H) | discriminate].
    destruct (negb (eqc c1 "[")); [discriminate|].
    unfold bind at 1 in H.
    destruct (sys_read w3) as [[[c2|] w4]|]; [| exact (Fail _ H) | discriminate].
    destruct (negb (eqc c2 "<")); [discriminate|].
    unfold bind at 1 in H.
    destruct (read_body 126 ["<"%char] w4) as [[[buf|] w5]|];
      [| exact (Fail _ H) | discriminate].
    destruct (parse_sgr buf) as [[[[cb x] y] termch]|] eqn:Ep; [|discriminate].
    apply parse_sgr_accepts_only in Ep.
    destruct Ep as (_ & _ & _ & R1 & R2 & R3).
    unfold bind, clock_gettime, ret in H. inversion H; subst.
    right; right. cbn [ev_x ev_y ev_button]. auto.
  - (* timeout *)
    inversion H; subst. right; left. split; [reflexivity|].
    split; [reflexivity|].
    apply sys_select_timeout in Es.
    destruct (Dbl.lt to Dbl.zero); [now elim Es | reflexivity].
  - (* interrupted *)
    unfold bind, gets, ret in H.
    destruct (negb (got_sig w1 =? 0)); [exact (Fail _ H) | discriminate].
  - exact (Fail _ H).
Qed.

Lemma reader_outcome ev to wm w rv e w' :
  read_sgr_event_timeout ev to wm w = Some ((rv, e), w') ->
  pass_outcome ev to rv e.
Proof.
  intros H. unfold read_sgr_event_timeout in H.
  refine (loop_invariant _ (fun _ _ => True)
            (fun r _ => pass_outcome ev to (fst r) (snd r)) _
            tt w (rv, e) w' I H).
  intros s w0 c w0' _ Hp. destruct c as [[rv' e']|]; [|exact I].
  exact (read_sgr_pass_outcome _ _ _ _ _ _ _ _ Hp).
Qed.

(** X1.  Whatever the terminal sends, [read_sgr_event_timeout] returns
    one of the four codes -1, 0, 1 and 2; with any code but 1 the event
    [*ev] is as the caller left it; the code 0 (timeout) is returned
    only when the call was given a timeout ([timeout_sec] not below
    zero); with the code 1 the coordinates and the button of the event
    are within the range of [int]. *)
Theorem reader_return_codes ev to wm w rv e w' :
  read_sgr_event_timeout ev to wm w = Some ((rv, e), w') ->
  (rv = -1 \/ rv = 0 \/ rv = 1 \/ rv = 2)
  /\ (rv <> 1 -> e = ev)
  /\ (rv = 0 -> Dbl.lt to Dbl.zero = false)
  /\ (rv = 1 -> Mach.int_range (ev_x e) /\ Mach.int_range (ev_y e)
                /\ Mach.int_range (ev_button e)).
Proof.
  intros H. apply reader_outcome in H.
  destruct H as [[[-> | ->] ->] | [(-> & -> & Ht) | (-> & R)]].
  - split; [auto|]. split; [reflexivity|]. split; intros F; discriminate.
  - split; [auto|]. split; [reflexivity|]. split; intros F; discriminate.
  - split; [auto|]. split; [reflexivity|]. split; [intros _; exact Ht|].
    intros F; discriminate.
  - split; [auto|]. split; [intros F; now elim F|].
    split; [intros F; discriminate | intros _; exact R].
Qed.

(** ** The scratch buffer *)

Lemma removelast_cons {A} (a : A) l :
  l <> [] -> removelast (a :: l) = a :: removelast l.
Proof. destruct l; [congruence | reflexivity]. Qed.

(** What the [while (len + 1 < sizeof(buf))] loop leaves in the buffer:
    at most [n] more bytes, the bytes that were read; a terminator can
    only be the last of them, and is the last unless the loop ran out
    of room. *)
Lemma read_body_shape n : forall buf w buf' w',
  read_body n buf w = Some (Some buf', w') ->
  exists body,
    buf' = buf ++ body
    /\ (length body <= n)%nat
    /\ (0 < n -> body <> [])%nat
    /\ forallb (fun c => negb (is_term c)) (removelast body) = true
    /\ ((length body < n)%nat -> is_term (last body NUL) = true)
    /\ rd_q w = rd_bytes body ++ rd_q w'.
Proof.
  induction n as [|n IH]; intros buf w buf' w' H; cbn [read_body] in H.
  - inversion H; subst. exists []. rewrite app_nil_r.
    repeat split; try reflexivity; cbn [length]; lia.
  - unfold bind, sys_read in H.
    destruct (rd_q w) as [|[c|sig] q] eqn:Hq; [discriminate | | discriminate].
    fold (is_term c) in H. destruct (is_term c) eqn:Tc.
    + inversion H; subst. exists [c].
      repeat split; try reflexivity; try (cbn [length]; lia);
        try discriminate.
      intros _. exact Tc.
    + apply IH in H.
      destruct H as (body & -> & Hl & Hne & Hb & Ht & Hr).
      cbn [rd_q set_queues] in Hr.
      exists (c :: body). rewrite <- app_assoc. cbn [app length].
      split; [reflexivity|]. split; [lia|]. split; [discriminate|].
      destruct body as [|b body].
      * split; [reflexivity|]. split; [|subst q; reflexivity].
        intros Hn. assert (Hn' : (0 < n)%nat) by lia.
        now elim (Hne Hn').
      * rewrite removelast_cons by discriminate.
        cbn [forallb]. rewrite Tc. cbn [negb andb].
        split; [exact Hb|]. split; [|subst q; reflexivity].
        intros Hn. rewrite !last_cons.
        rewrite <- (last_cons body b NUL). apply Ht. cbn [length] in *. lia.
Qed.

(** X2.  The buffer that the reader hands to [parse_sgr] starts with
    ['<'] and holds 2 to 127 bytes, one below [SGR_BUF]: the writes
    [buf[len++] = c] stay within the array, and the test
    [len >= SGR_BUF] of [parse_sgr] never holds for it.  No byte before
    the last is ['M'] or ['m']; the last is one of them unless the
    buffer is full. *)
Theorem scratch_buffer_bounded w buf w' :
  read_body 126 ["<"%char] w = Some (Some buf, w') ->
  (2 <= length buf <= 127)%nat
  /\ Z.of_nat (length buf) < SGR_BUF
  /\ hd NUL buf = "<"%char
  /\ forallb (fun c => negb (is_term c)) (removelast buf) = true
  /\ ((length buf < 127)%nat -> is_term (last buf NUL) = true).
Proof.
  intros H. apply read_body_shape in H.
  destruct H as (body & -> & Hl & Hne & Hb & Ht & _).
  assert (Hbody : body <> []) by (apply Hne; lia).
  cbn [app length hd]. unfold SGR_BUF.
  assert (1 <= length body)%nat by (destruct body; [congruence | cbn; lia]).
  split; [lia|]. split; [lia|]. split; [reflexivity|].
  rewrite removelast_cons by exact Hbody. cbn [forallb].
  split; [exact Hb|].
  intros Hn. destruct body as [|b body]; [congruence|].
  rewrite !last_cons. rewrite <- (last_cons body b NUL).
  apply Ht. cbn [length] in *. lia.
Qed.

(** X3.  [parse_sgr] accepts a buffer only if it starts with ['<'] and
    holds 7 to 127 bytes (the ['<'], three fields that are not empty,
    two semicolons and the last byte); the terminator it reports is the
    last byte, and the three values are within the range of [int]. *)
Theorem parse_sgr_accepts buf cb cx cy t :
  parse_sgr buf = Some (cb, cx, cy, t) ->
  (7 <= length buf <= 127)%nat
  /\ hd NUL buf = "<"%char
  /\ t = last buf NUL
  /\ Mach.int_range cb /\ Mach.int_range cx /\ Mach.int_range cy.
Proof. apply parse_sgr_accepts_only. Qed.

End ReaderResults.

Lemma reader_return_codes_witness :
  (0 = -1 \/ 0 = 0 \/ 0 = 1 \/ 0 = 2)
  /\ (0 <> 1 -> event_zero = event_zero)
  /\ (0 = 0 -> Dbl.lt MULTICLICK_MAX_GAP Dbl.zero = false)
  /\ (0 = 1 -> Mach.int_range (ev_x event_zero)
               /\ Mach.int_range (ev_y event_zero)
               /\ Mach.int_range (ev_button event_zero)).
Proof.
  apply (reader_return_codes event_zero MULTICLICK_MAX_GAP 0
           (world_of [SEL_READY; SEL_TIMEOUT] (rd_bytes (bytes "q")))
           0 event_zero
           (world_after (read_sgr_event_timeout event_zero MULTICLICK_MAX_GAP 0)
              (world_of [SEL_READY; SEL_TIMEOUT] (rd_bytes (bytes "q"))))).
  vm_compute. reflexivity.
Defined.

Lemma scratch_buffer_bounded_witness :
  (2 <= length (bytes "<0;1;2M") <= 127)%nat
  /\ Z.of_nat (length (bytes "<0;1;2M")) < SGR_BUF
  /\ hd Chr.NUL (bytes "<0;1;2M") = "<"%char
  /\ forallb (fun c => negb (is_term c)) (removelast (bytes "<0;1;2M")) = true
  /\ ((length (bytes "<0;1;2M") < 127)%nat ->
      is_term (last (bytes "<0;1;2M") Chr.NUL) = true).
Proof.
  apply (scratch_buffer_bounded
           (world_of [] (rd_bytes (bytes "0;1;2Mx")))
           (bytes "<0;1;2M")
           (world_of [] (rd_bytes (bytes "x")))).
  vm_compute. reflexivity.
Defined.

Lemma parse_sgr_accepts_witness :
  (7 <= length (bytes "<0;10;11M") <= 127)%nat
  /\ hd Chr.NUL (bytes "<0;10;11M") = "<"%char
  /\ "M"%char = last (bytes "<0;10;11M") Chr.NUL
  /\ Mach.int_range 0 /\ Mach.int_range 10 /\ Mach.int_range 11.
Proof.
  apply (parse_sgr_accepts (bytes "<0;10;11M") 0 10 11 "M"%char).
  vm_compute. reflexivity.
Defined.

(* ================================================================== *)
(** * The reader: lenient fields, noise, sequences beyond the buffer    *)
(* ================================================================== *)

Section Lenient.
Import Chr ChrFacts.

(** What may follow the digits of a field: nothing, or a byte that is
    not a digit. *)
Definition ends_number (g : list ascii) : bool :=
  match g with
  | [] => true
  | c :: _ => negb (isdigit c)
  end.

Lemma digits_prefix s g : forall acc,
  all_digits s = true -> ends_number g = true ->
  digits acc (s ++ g) = (dec_from acc s, length s, g).
Proof.
  induction s as [|c s IH]; intros acc Hs Hg.
  - cbn [app dec_from fold_left length]. destruct g as [|d g]; [reflexivity|].
    cbn [ends_number] in Hg. apply negb_true_iff in Hg.
    cbn [digits]. now rewrite Hg.
  - cbn [all_digits forallb] in Hs. apply andb_true_iff in Hs.
    destruct Hs as [Hc Hs]. cbn [app digits]. rewrite Hc.
    rewrite (IH _ Hs Hg). reflexivity.
Qed.

(** [strtol] reads a numeral and stops at what follows it. *)
Lemma strtol_prefix s g :
  s <> [] -> all_digits s = true -> dec_val s <= Mach.LONG_MAX ->
  ends_number g = true ->
  strtol (s ++ g) = (dec_val s, length s, false).
Proof.
  intros Hne Hd Hmax Hg. unfold strtol.
  destruct s as [|c s]; [congruence|].
  pose proof Hd as Hd'. cbn [all_digits forallb] in Hd'.
  apply andb_true_iff in Hd'; destruct Hd' as [Hc Hs].
  cbn [app skip_spaces]. rewrite (digit_not_space c Hc).
  rewrite (digit_neq c "-" Hc eq_refl), (digit_neq c "+" Hc eq_refl).
  change (c :: s ++ g) with ((c :: s) ++ g).
  rewrite (digits_prefix (c :: s) g 0 Hd Hg). cbn [length].
  pose proof (dec_from_nonneg (c :: s) 0 Hd (Z.le_refl 0)) as Hnn.
  fold (dec_val (c :: s)) in *.
  destruct (dec_val (c :: s) >? Mach.LONG_MAX) eqn:E1.
  - apply Z.gtb_lt in E1; lia.
  - destruct (dec_val (c :: s) <? Mach.LONG_MIN) eqn:E2.
    + apply Z.ltb_lt in E2; unfold Mach.LONG_MIN in E2; lia.
    + reflexivity.
Qed.

Lemma strtol_numeral_prefix s g :
  numeral s -> ends_number g = true ->
  strtol (s ++ g) = (dec_val s, length s, false) /\ length s <> O.
Proof.
  intros (Hne & Hd & Hm) Hg. split.
  - apply strtol_prefix; auto. unfold Mach.INT_MAX, Mach.LONG_MAX in *; lia.
  - destruct s; simpl; congruence.
Qed.

(** X4.  [parse_sgr] reads each of the three fields by its numeric
    prefix: whatever follows the digits of a field (anything that does
    not start with a digit, holds no NUL and, for the first two fields,
    no semicolon) is ignored, and the values are those of the digits. *)
Theorem fields_read_by_prefix cb cx cy g1 g2 g3 t :
  numeral cb -> numeral cx -> numeral cy ->
  ends_number g1 = true -> ends_number g2 = true -> ends_number g3 = true ->
  lacks ";" g1 = true -> lacks ";" g2 = true ->
  lacks NUL (g1 ++ g2 ++ g3) = true ->
  (length (cb ++ g1) + length (cx ++ g2) + length (cy ++ g3) <= 123)%nat ->
  parse_sgr ("<"%char
             :: ((cb ++ g1) ++ ";"%char :: (cx ++ g2) ++ ";"%char :: cy ++ g3)
             ++ [t])
  = Some (dec_val cb, dec_val cx, dec_val cy, t).
Proof.
  intros Hb Hx Hy E1 E2 E3 L1 L2 LN Hlen.
  rewrite parse_sgr_frame
    by (repeat first [rewrite length_app in * | progress cbn [length] in * ];
        lia).
  pose proof Hb as (_ & Db & _). pose proof Hx as (_ & Dx & _).
  pose proof Hy as (_ & Dy & _).
  rewrite !lacks_app in LN. apply andb_true_iff in LN.
  destruct LN as [N1 LN]. apply andb_true_iff in LN. destruct LN as [N2 N3].
  rewrite c_str_digits_sep.
  - unfold parse_sgr_fields.
    rewrite (strchr_split_first ";" (cb ++ g1)), (strchr_split_first ";" (cx ++ g2)).
    + destruct (strtol_numeral_prefix cb g1 Hb E1) as [-> Nb].
      destruct (strtol_numeral_prefix cx g2 Hx E2) as [-> Nx].
      destruct (strtol_numeral_prefix cy g3 Hy E3) as [-> Ny].
      apply Nat.eqb_neq in Nb, Nx, Ny. rewrite Nb, Nx, Ny. cbn [orb].
      now rewrite !Mach.to_int_id by (apply numeral_int; assumption).
    + fold (lacks ";" (cx ++ g2)). rewrite lacks_app. unfold lacks at 1.
      now rewrite (digits_lack cx ";" eq_refl Dx), L2.
    + fold (lacks ";" (cb ++ g1)). rewrite lacks_app. unfold lacks at 1.
      now rewrite (digits_lack cb ";" eq_refl Db), L1.
  - fold (lacks NUL ((cb ++ g1) ++ ";"%char :: (cx ++ g2) ++ ";"%char :: cy ++ g3)).
    rewrite !lacks_app. cbn [lacks forallb].
    fold (lacks NUL ((cx ++ g2) ++ ";"%char :: cy ++ g3)).
    rewrite !lacks_app. cbn [lacks forallb]. fold (lacks NUL (cy ++ g3)).
    rewrite lacks_app. unfold lacks in *.
    rewrite (digits_lack cb NUL eq_refl Db), (digits_lack cx NUL eq_refl Dx),
      (digits_lack cy NUL eq_refl Dy), N1, N2, N3. reflexivity.
Qed.

End Lenient.

Lemma fields_read_by_prefix_witness :
  parse_sgr ("<"%char
             :: ((bytes "1" ++ bytes "x") ++ ";"%char
                 :: (bytes "2" ++ bytes " ") ++ ";"%char
                 :: bytes "3" ++ bytes ";9")
             ++ ["M"%char])
  = Some (ChrFacts.dec_val (bytes "1"), ChrFacts.dec_val (bytes "2"),
          ChrFacts.dec_val (bytes "3"), "M"%char).
Proof.
  apply (fields_read_by_prefix (bytes "1") (bytes "2") (bytes "3")
           (bytes "x") (bytes " ") (bytes ";9") "M"%char);
    try reflexivity;
    try (apply numeral_literal; [discriminate | reflexivity | reflexivity]).
  simpl. lia.
Defined.

Section Noise.
Import Chr ChrFacts.

Lemma after_pass_log to sels rest w :
  sel_log (after_pass to sels rest w) = sel_log w ++ [select_arg to].
Proof. reflexivity. Qed.

(** X5.  Bytes that are neither CR, LF nor ESC (typed characters, say)
    in front of a well-formed sequence are dropped one by one, each
    after a [select] of its own, and the sequence is decoded as if they
    had not been there. *)
Theorem noise_before_sequence junk : forall ev to wm w sels cb cx cy t rest,
  forallb dropped junk = true ->
  numeral cb -> numeral cx -> numeral cy ->
  (length cb + length cx + length cy <= 123)%nat ->
  t = "M"%char \/ t = "m"%char ->
  sel_q w = repeat SEL_READY (length junk) ++ SEL_READY :: sels ->
  rd_q w = rd_bytes junk ++ rd_bytes (csi "<")
           ++ rd_bytes (sgr_body cb cx cy) ++ RD_BYTE t :: rest ->
  exists w',
    read_sgr_event_timeout ev to wm w
    = Some ((1, event_of (dec_val cb) (dec_val cx) (dec_val cy) t
                         (clock w (ticks w))), w')
    /\ rd_q w' = rest /\ sel_q w' = sels
    /\ sel_log w' = sel_log w ++ repeat (select_arg to) (S (length junk)).
Proof.
  induction junk as [|b junk IH];
    intros ev to wm w sels cb cx cy t rest Hj Nb Nx Ny Hl Ht Hsel Hrd.
  - apply is_term_cases in Ht.
    rewrite (reader_valid_sequence ev to wm w sels cb cx cy t rest
               Nb Nx Ny Hl Ht Hsel Hrd).
    eexists; split; [reflexivity|]. repeat split.
  - cbn [forallb] in Hj. apply andb_true_iff in Hj. destruct Hj as [Hb Hj].
    cbn [length repeat app rd_bytes map] in Hsel, Hrd.
    rewrite (reader_drops ev to wm w _ b _ Hb Hsel Hrd).
    destruct (IH ev to wm
                (after_pass to (repeat SEL_READY (length junk)
                                ++ SEL_READY :: sels)
                   (rd_bytes junk ++ rd_bytes (csi "<")
                    ++ rd_bytes (sgr_body cb cx cy) ++ RD_BYTE t :: rest) w)
                sels cb cx cy t rest Hj Nb Nx Ny Hl Ht eq_refl eq_refl)
      as (w' & H1 & H2 & H3 & H4).
    exists w'. split; [exact H1|]. split; [exact H2|]. split; [exact H3|].
    rewrite H4, after_pass_log, <- app_assoc. reflexivity.
Qed.

(** X6.  After an ESC the reader takes the next byte without looking
    for Enter or for another ESC: if it is not ['['] the two bytes are
    gone and the scan goes on with the byte after them; the same holds
    for the byte after [ESC [] when it is not ['<']. *)
Theorem escape_prefix_skipped ev to wm w sels c rest :
  sel_q w = SEL_READY :: sels ->
  (eqc c "[" = false ->
   rd_q w = RD_BYTE ESC :: RD_BYTE c :: rest ->
   read_sgr_event_timeout ev to wm w
   = read_sgr_event_timeout ev to wm (after_pass to sels rest w))
  /\ (eqc c "<" = false ->
      rd_q w = RD_BYTE ESC :: RD_BYTE "[" :: RD_BYTE c :: rest ->
      read_sgr_event_timeout ev to wm w
      = read_sgr_event_timeout ev to wm (after_pass to sels rest w)).
Proof.
  intros Hsel. split; intros Hc Hrd.
  - rewrite read_sgr_event_timeout_step.
    unfold read_sgr_pass. fold (select_arg to).
    rewrite (bind_select_ready _ _ w sels Hsel). cbv iota.
    rewrite (bind_read_byte ESC _ _ (RD_BYTE c :: rest))
      by (cbn [rd_q set_sel_log set_queues]; exact Hrd).
    change (eqc ESC CR || eqc ESC LF) with false.
    change (negb (code ESC =? 27)) with false. cbv iota.
    rewrite (bind_read_byte c _ _ rest) by reflexivity.
    rewrite Hc. cbn [negb]. unfold ret, after_pass. destruct w; reflexivity.
  - rewrite read_sgr_event_timeout_step.
    unfold read_sgr_pass. fold (select_arg to).
    rewrite (bind_select_ready _ _ w sels Hsel). cbv iota.
    rewrite (bind_read_byte ESC _ _ (RD_BYTE "[" :: RD_BYTE c :: rest))
      by (cbn [rd_q set_sel_log set_queues]; exact Hrd).
    change (eqc ESC CR || eqc ESC LF) with false.
    change (negb (code ESC =? 27)) with false. cbv iota.
    rewrite (bind_read_byte "[" _ _ (RD_BYTE c :: rest)) by reflexivity.
    change (negb (eqc "[" "[")) with false. cbv iota.
    rewrite (bind_read_byte c _ _ rest) by reflexivity.
    rewrite Hc. cbn [negb]. unfold ret, after_pass. destruct w; reflexivity.
Qed.

(** ** A sequence that fills the buffer *)

Lemma read_body_full body : forall n buf w rest,
  length body = n ->
  forallb (fun c => negb (is_term c)) body = true ->
  rd_q w = rd_bytes body ++ rest ->
  read_body n buf w
  = Some (Some (buf ++ body), set_queues (sel_q w) rest w).
Proof.
  induction body as [|c body IH]; intros n buf w rest Hn Hb Hrd;
    cbn [length] in Hn; subst n; cbn [read_body].
  - cbn [rd_bytes map app] in Hrd. rewrite app_nil_r. subst rest.
    unfold ret. destruct w; reflexivity.
  - unfold bind, sys_read. rewrite Hrd. cbn [rd_bytes map app].
    cbn [forallb] in Hb. apply andb_true_iff in Hb. destruct Hb as [Hc Hb].
    fold (is_term c). apply negb_true_iff in Hc. rewrite Hc.
    rewrite (IH (length body) (buf ++ [c]) _ rest);
      [| reflexivity | exact Hb | reflexivity ].
    rewrite <- app_assoc. reflexivity.
Qed.

Lemma forallb_last {A} (p : A -> bool) (l : list A) d :
  l <> [] -> forallb p l = true -> p (last l d) = true.
Proof.
  induction l as [|a l IH]; intros Hne H; [congruence|].
  cbn [forallb] in H. apply andb_true_iff in H. destruct H as [Ha Hl].
  destruct l as [|b l]; [exact Ha|].
  change (last (a :: b :: l) d) with (last (b :: l) d).
  apply IH; [discriminate | exact Hl].
Qed.

Lemma forallb_removelast {A} (p : A -> bool) (l : list A) :
  forallb p l = true -> forallb p (removelast l) = true.
Proof.
  induction l as [|a l IH]; intros H; [reflexivity|].
  cbn [forallb] in H. apply andb_true_iff in H. destruct H as [Ha Hl].
  destruct l as [|b l]; [reflexivity|].
  change (removelast (a :: b :: l)) with (a :: removelast (b :: l)).
  cbn [forallb]. now rewrite Ha, IH.
Qed.

(** X7.  A sequence [ESC [ <] followed by 126 bytes without ['M'] or
    ['m'] fills the scratch buffer.  The reader does not discard it: it
    stops reading after the 126th byte and hands the buffer to
    [parse_sgr], which takes the first 125 bytes for the fields and the
    126th for the terminator.  If the fields parse, the call returns an
    event, of kind release; if not, the scan goes on with the byte
    after the 126th. *)
Theorem oversize_sequence ev to wm w sels body rest :
  sel_q w = SEL_READY :: sels ->
  rd_q w = rd_bytes (csi "<") ++ rd_bytes body ++ rest ->
  length body = 126%nat ->
  forallb (fun c => negb (is_term c)) body = true ->
  read_sgr_event_timeout ev to wm w
  = match parse_sgr_fields (c_str (removelast body)) (last body NUL) with
    | None => read_sgr_event_timeout ev to wm (after_pass to sels rest w)
    | Some (cb, x, y, _) =>
        Some ((1, {| ev_x := x; ev_y := y; ev_button := cb;
                     ev_type := EVT_RELEASE; ev_t := clock w (ticks w) |}),
              set_ticks (S (ticks w)) (after_pass to sels rest w))
    end.
Proof.
  intros Hsel Hrd Hlen Hb.
  assert (Hne : body <> []) by (destruct body; [discriminate | discriminate]).
  rewrite read_sgr_event_timeout_step.
  unfold read_sgr_pass. fold (select_arg to).
  rewrite (bind_select_ready _ _ w sels Hsel). cbv iota.
  set (q := rd_bytes body ++ rest) in *.
  rewrite (bind_read_byte ESC _ _ (RD_BYTE "[" :: RD_BYTE "<" :: q))
    by (cbn [rd_q set_sel_log set_queues]; exact Hrd).
  change (eqc ESC CR || eqc ESC LF) with false.
  change (negb (code ESC =? 27)) with false. cbv iota.
  rewrite (bind_read_byte "[" _ _ (RD_BYTE "<" :: q)) by reflexivity.
  change (negb (eqc "[" "[")) with false. cbv iota.
  rewrite (bind_read_byte "<" _ _ q) by reflexivity.
  change (negb (eqc "<" "<")) with false. cbv iota.
  unfold bind at 1.
  rewrite (read_body_full body 126 ["<"%char] _ rest);
    [| exact Hlen | exact Hb | reflexivity ].
  cbn [app].
  assert (Ep : parse_sgr ("<"%char :: body)
               = parse_sgr_fields (c_str (removelast body)) (last body NUL)).
  { rewrite (app_removelast_last NUL Hne) at 1.
    apply parse_sgr_frame.
    pose proof (f_equal (@length ascii) (app_removelast_last NUL Hne)) as L.
    rewrite length_app in L. cbn [length] in L. lia. }
  rewrite Ep.
  destruct (parse_sgr_fields (c_str (removelast body)) (last body NUL))
    as [[[[cb x] y] termch]|] eqn:Ef.
  - apply parse_sgr_fields_accepts in Ef. destruct Ef as (-> & _).
    pose proof (forallb_last _ body NUL Hne Hb) as Hl.
    apply negb_true_iff in Hl. unfold is_term in Hl.
    apply orb_false_iff in Hl. destruct Hl as [HM _].
    unfold bind, clock_gettime, ret, classify. rewrite HM.
    unfold after_pass. destruct w; reflexivity.
  - unfold ret, after_pass. destruct w; reflexivity.
Qed.

End Noise.

Lemma noise_before_sequence_witness :
  exists w',
    read_sgr_event_timeout event_zero Dbl.minus_one 0
      (world_of (repeat SEL_READY 3)
         (rd_bytes (bytes "ab" ++ csi "<0;10;11M")))
    = Some ((1, event_of (ChrFacts.dec_val (bytes "0"))
                         (ChrFacts.dec_val (bytes "10"))
                         (ChrFacts.dec_val (bytes "11")) "M"
                         (tick_clock 0)), w')
    /\ rd_q w' = [] /\ sel_q w' = []
    /\ sel_log w' = [] ++ repeat (select_arg Dbl.minus_one) 3.
Proof.
  apply (noise_before_sequence (bytes "ab") event_zero Dbl.minus_one 0
           (world_of (repeat SEL_READY 3)
              (rd_bytes (bytes "ab" ++ csi "<0;10;11M")))
           [] (bytes "0") (bytes "10") (bytes "11") "M"%char []);
    try reflexivity;
    try (apply numeral_literal; [discriminate | reflexivity | reflexivity]).
  - simpl; lia.
  - left; reflexivity.
Defined.

Lemma escape_prefix_skipped_witness :
  read_sgr_event_timeout event_zero Dbl.minus_one 0
    (world_of [SEL_READY; SEL_READY]
       (rd_bytes [Chr.ESC; Chr.CR; Chr.LF]))
  = read_sgr_event_timeout event_zero Dbl.minus_one 0
      (after_pass Dbl.minus_one [SEL_READY] (rd_bytes [Chr.LF])
         (world_of [SEL_READY; SEL_READY]
            (rd_bytes [Chr.ESC; Chr.CR; Chr.LF]))).
Proof.
  apply (proj1 (escape_prefix_skipped event_zero Dbl.minus_one 0
                  (world_of [SEL_READY; SEL_READY]
                     (rd_bytes [Chr.ESC; Chr.CR; Chr.LF]))
                  [SEL_READY] Chr.CR (rd_bytes [Chr.LF]) eq_refl));
    reflexivity.
Defined.

Lemma oversize_sequence_witness :
  read_sgr_event_timeout event_zero Dbl.minus_one 0
    (world_of [SEL_READY]
       (rd_bytes (csi "<" ++ (bytes "0;1;2" ++ repeat "x"%char 121)
                  ++ bytes "yz")))
  = match parse_sgr_fields
            (Chr.c_str (removelast (bytes "0;1;2" ++ repeat "x"%char 121)))
            (last (bytes "0;1;2" ++ repeat "x"%char 121) Chr.NUL) with
    | None =>
        read_sgr_event_timeout event_zero Dbl.minus_one 0
          (after_pass Dbl.minus_one [] (rd_bytes (bytes "yz"))
             (world_of [SEL_READY]
                (rd_bytes (csi "<" ++ (bytes "0;1;2" ++ repeat "x"%char 121)
                           ++ bytes "yz"))))
    | Some (cb, x, y, _) =>
        Some ((1, {| ev_x := x; ev_y := y; ev_button := cb;
                     ev_type := EVT_RELEASE; ev_t := tick_clock 0 |}),
              set_ticks 1
                (after_pass Dbl.minus_one [] (rd_bytes (bytes "yz"))
                   (world_of [SEL_READY]
                      (rd_bytes (csi "<"
                                 ++ (bytes "0;1;2" ++ repeat "x"%char 121)
                                 ++ bytes "yz")))))
    end.
Proof.
  apply (oversize_sequence event_zero Dbl.minus_one 0
           (world_of [SEL_READY]
              (rd_bytes (csi "<" ++ (bytes "0;1;2" ++ repeat "x"%char 121)
                         ++ bytes "yz")))
           [] (bytes "0;1;2" ++ repeat "x"%char 121)
           (rd_bytes (bytes "yz"))); reflexivity.
Defined.

(* ================================================================== *)
(** * The reader and signals                                            *)
(* ================================================================== *)

Section Interrupted.

(** X8.  A [select] that a signal interrupts (-1 with EINTR): for one
    of the signals that [sighandler] catches, the handler has set
    [got_sig] and written the restore sequence of
    [minimal_signal_restore] to the terminal, and the reader returns -1
    with [*ev] untouched and without reading a byte; for SIGWINCH, whose
    handler leaves [got_sig] alone (its warning on stderr is not part of
    the model), the reader calls [select] again with the same timeout. *)
Theorem interrupted_select ev to wm w sig sels :
  sel_q w = SEL_EINTR sig :: sels ->
  got_sig w = 0 ->
  (sig <> 0 ->
   exists w',
     read_sgr_event_timeout ev to wm w = Some ((-1, ev), w')
     /\ got_sig w' = sig
     /\ term_out w' = term_out w ++ [restore_seq]
     /\ rd_q w' = rd_q w /\ sel_q w' = sels)
  /\ (sig = 0 ->
      read_sgr_event_timeout ev to wm w
      = read_sgr_event_timeout ev to wm (after_pass to sels (rd_q w) w)).
Proof.
  intros Hsel Hg. split; intros Hs.
  - rewrite read_sgr_event_timeout_step.
    unfold read_sgr_pass. fold (select_arg to).
    unfold bind at 1, sys_select. rewrite Hsel.
    assert (P : select_pop (is_none (select_arg to)) (SEL_EINTR sig :: sels)
                = Some (SEL_EINTR sig, sels))
      by (destruct (is_none (select_arg to)); reflexivity).
    rewrite P. unfold bind, gets, ret, sighandler.
    apply Z.eqb_neq in Hs. rewrite Hs.
    cbn [got_sig set_term_out set_got_sig]. rewrite Hs. cbn [negb].
    eexists; split; [reflexivity|]. repeat split.
  - subst sig. rewrite read_sgr_event_timeout_step.
    unfold read_sgr_pass. fold (select_arg to).
    unfold bind at 1, sys_select. rewrite Hsel.
    assert (P : select_pop (is_none (select_arg to)) (SEL_EINTR 0 :: sels)
                = Some (SEL_EINTR 0, sels))
      by (destruct (is_none (select_arg to)); reflexivity).
    rewrite P. unfold bind, gets, ret, sighandler. cbn [Z.eqb].
    cbn [got_sig set_sel_log set_queues]. rewrite Hg. cbn [Z.eqb negb].
    reflexivity.
Qed.

End Interrupted.

Lemma interrupted_select_witness :
  exists w',
    read_sgr_event_timeout event_zero Dbl.minus_one 0
      (world_of [SEL_EINTR 2; SEL_READY] (rd_bytes (csi "<0;1;1M")))
    = Some ((-1, event_zero), w')
    /\ got_sig w' = 2
    /\ term_out w'
       = term_out (world_of [SEL_EINTR 2; SEL_READY]
                     (rd_bytes (csi "<0;1;1M"))) ++ [restore_seq]
    /\ rd_q w' = rd_q (world_of [SEL_EINTR 2; SEL_READY]
                         (rd_bytes (csi "<0;1;1M")))
    /\ sel_q w' = [SEL_READY].
Proof.
  apply (proj1 (interrupted_select event_zero Dbl.minus_one 0
                  (world_of [SEL_EINTR 2; SEL_READY]
                     (rd_bytes (csi "<0;1;1M")))
                  2 [SEL_READY] eq_refl eq_refl)).
  discriminate.
Defined.

(* ================================================================== *)
(** * Multi-click mode: what a success and a failure amount to          *)
(* ================================================================== *)

Section ClickSound.

Lemma minus_one_negative : Dbl.lt Dbl.minus_one Dbl.zero = true.
Proof. reflexivity. Qed.

(** The reader without a timeout, when it neither fails nor reports
    Enter, has returned an event. *)
Lemma reader_event ev to wm w rv e w' :
  read_sgr_event_timeout ev to wm w = Some ((rv, e), w') ->
  (rv =? 0) = false \/ Dbl.lt to Dbl.zero = true ->
  (rv =? -1) = false -> (rv =? 2) = false -> rv = 1.
Proof.
  intros H H0 H1 H2. apply reader_outcome in H.
  apply Z.eqb_neq in H1, H2.
  destruct H as [[[-> | ->] _] | [(-> & _ & Ht) | (-> & _)]];
    try congruence; try reflexivity.
  destruct H0 as [H0 | H0]; [discriminate | congruence].
Qed.

Lemma awaits_press to w ev e w' : awaits to w ev e w' -> is_press e = true.
Proof. induction 1; assumption. Qed.

Lemma first_press_awaits : forall n w ev e w',
  (length (sel_q w) <= n)%nat ->
  wait_for_first_press ev w = Some ((1, e), w') ->
  awaits Dbl.minus_one w ev e w'.
Proof.
  induction n as [|n IH]; intros w ev e w' Hn H;
    rewrite wait_for_first_press_unfold in H;
    (destruct (got_sig w =? 0) eqn:Hg; cbn [negb] in H; [|discriminate]);
    apply Z.eqb_eq in Hg;
    (destruct (read_sgr_event_timeout ev Dbl.minus_one 0 w)
       as [[[rv e0] w0]|] eqn:Hr; [|discriminate]);
    pose proof (shrinks_read_sgr_event_timeout _ _ _ _ _ _ Hr) as Hs;
    [lia|].
  destruct ((rv =? 1) && is_press e0) eqn:Hp.
  - apply andb_true_iff in Hp. destruct Hp as [Hp1 Hp2].
    apply Z.eqb_eq in Hp1. subst rv. inversion H; subst.
    now apply aw_press.
  - destruct (rv =? 2) eqn:H2; [discriminate|].
    destruct (rv =? -1) eqn:H1; [discriminate|].
    assert (rv = 1)
      by exact (reader_event _ _ _ _ _ _ _ Hr (or_intror minus_one_negative)
                  H1 H2).
    subst rv. cbn [Z.eqb andb] in Hp.
    apply (aw_skip _ w ev e0 w0); try assumption.
    apply IH; [lia | exact H].
Qed.

Lemma wait_for_first_press_code : forall n w ev ok e w',
  (length (sel_q w) <= n)%nat ->
  wait_for_first_press ev w = Some ((ok, e), w') -> ok = 0 \/ ok = 1.
Proof.
  induction n as [|n IH]; intros w ev ok e w' Hn H;
    rewrite wait_for_first_press_unfold in H;
    (destruct (negb (got_sig w =? 0)); [inversion H; now left|]);
    (destruct (read_sgr_event_timeout ev Dbl.minus_one 0 w)
       as [[[rv e0] w0]|] eqn:Hr; [|discriminate]);
    pose proof (shrinks_read_sgr_event_timeout _ _ _ _ _ _ Hr) as Hs;
    [lia|].
  destruct ((rv =? 1) && is_press e0); [inversion H; now right|].
  destruct (rv =? 2); [inversion H; now left|].
  destruct (rv =? -1); [inversion H; now left|].
  apply (IH w0 e0 ok e w'); [lia | exact H].
Qed.

(** X9.  [wait_for_first_press] returns 0 or 1.  It returns 1 exactly
    when the reader, called without a timeout and with no signal caught
    before each call, has returned events that are not presses (they
    are skipped) and then a press, which is the event handed back. *)
Theorem first_press_sound ev w ok e w' :
  wait_for_first_press ev w = Some ((ok, e), w') ->
  (ok = 0 \/ ok = 1)
  /\ (ok = 1 <-> awaits Dbl.minus_one w ev e w')
  /\ (ok = 1 -> is_press e = true).
Proof.
  intros H.
  assert (A : ok = 1 -> awaits Dbl.minus_one w ev e w').
  { intros ->. exact (first_press_awaits _ _ _ _ _ (Nat.le_refl _) H). }
  split; [exact (wait_for_first_press_code _ _ _ _ _ _ (Nat.le_refl _) H)|].
  split; [split; [exact A|]|].
  - intros Ha. apply awaits_first_press in Ha. rewrite Ha in H.
    now inversion H.
  - intros Hk. exact (awaits_press _ _ _ _ _ (A Hk)).
Qed.

(** ** The presses that a run accepts *)

(** [accepted first w ev es w']: from [w] on, the presses [es] arrive
    one after the other, each within the gap timeout, and each passes
    the test of the radius against [first]. *)
Inductive accepted (first : event_t)
  : world -> event_t -> list event_t -> world -> Prop :=
| acc_nil w ev : accepted first w ev [] w
| acc_cons w ev e w1 es w' :
    awaits MULTICLICK_MAX_GAP w ev e w1 ->
    within_radius first e = true ->
    accepted first w1 e es w' ->
    accepted first w ev (e :: es) w'.

Lemma accepted_followups N first : forall es w ev w' count last,
  accepted first w ev es w' ->
  1 <= count -> count + Z.of_nat (length es) <= N -> N <= Mach.INT_MAX ->
  click_followups N first count last ev w
  = click_followups N first (count + Z.of_nat (length es))
      (List.last es last) (List.last es ev) w'.
Proof.
  induction es as [|e es IH]; intros w ev w' count last H H1 HN HM;
    inversion H; subst.
  - cbn [length Z.of_nat List.last]. now rewrite Z.add_0_r.
  - cbn [length] in HN. rewrite Nat2Z.inj_succ in HN.
    rewrite (awaits_followup N first count last w ev e w1) by (assumption || lia).
    match goal with Hw : within_radius first e = true |- _ => rewrite Hw end.
    unfold Mach.int_add. rewrite Mach.to_int_id
      by (unfold Mach.int_range, Mach.INT_MIN, Mach.INT_MAX in *; lia).
    rewrite (IH w1 e w' (count + 1) e) by (assumption || lia).
    cbn [length]. rewrite Nat2Z.inj_succ.
    replace (count + 1 + Z.of_nat (length es))
      with (count + Z.succ (Z.of_nat (length es))) by lia.
    now rewrite !last_cons.
Qed.

Lemma accepted_cons_inv first w ev e es w' :
  accepted first w ev (e :: es) w' ->
  exists w1,
    awaits MULTICLICK_MAX_GAP w ev e w1
    /\ within_radius first e = true
    /\ accepted first w1 e es w'.
Proof. intros H. inversion H; subst. eauto. Qed.

Lemma followups_accepted N first : forall n w count last ev last' w',
  (length (sel_q w) <= n)%nat ->
  1 <= count <= N -> N <= Mach.INT_MAX ->
  click_followups N first count last ev w = Some (Some (N, last'), w') ->
  exists es,
    accepted first w ev es w'
    /\ count + Z.of_nat (length es) = N
    /\ last' = List.last es last.
Proof.
  induction n as [|n IH]; intros w count last ev last' w' Hn Hc HM H;
    rewrite click_followups_unfold in H;
    (destruct (negb ((count <? N) && (got_sig w =? 0))) eqn:Hcond;
     [ inversion H; subst; exists []; cbn [length Z.of_nat List.last];
       split; [apply acc_nil | split; [lia | reflexivity]] |]);
    apply negb_false_iff in Hcond; apply andb_true_iff in Hcond;
    destruct Hcond as [Hlt Hg]; apply Z.ltb_lt in Hlt; apply Z.eqb_eq in Hg;
    (destruct (read_sgr_event_timeout ev MULTICLICK_MAX_GAP 0 w)
       as [[[rv e] w0]|] eqn:Hr; [|discriminate]);
    pose proof (shrinks_read_sgr_event_timeout _ _ _ _ _ _ Hr) as Hs;
    [lia|].
  destruct (rv =? 0) eqn:H0; [discriminate|].
  destruct (rv =? -1) eqn:H1; [discriminate|].
  destruct (rv =? 2) eqn:H2; [discriminate|].
  assert (rv = 1)
    by exact (reader_event _ _ _ _ _ _ _ Hr (or_introl H0) H1 H2).
  subst rv.
  destruct (is_press e) eqn:Hp; cbn [negb] in H.
  - destruct (within_radius first e) eqn:Hw; [|discriminate].
    unfold Mach.int_add in H. rewrite Mach.to_int_id in H
      by (unfold Mach.int_range, Mach.INT_MIN, Mach.INT_MAX in *; lia).
    destruct (IH w0 (count + 1) e e last' w') as (es & A1 & A2 & A3);
      [lia | lia | exact HM | exact H |].
    exists (e :: es). split; [|split].
    + apply (acc_cons first w ev e w0 es w'); [|exact Hw | exact A1].
      now apply aw_press.
    + cbn [length]. rewrite Nat2Z.inj_succ. lia.
    + now rewrite last_cons.
  - destruct (IH w0 count last e last' w') as (es & A1 & A2 & A3);
      [lia | lia | exact HM | exact H |].
    destruct es as [|e1 es]; [cbn [length Z.of_nat] in A2; lia|].
    apply accepted_cons_inv in A1. destruct A1 as (w1 & B1 & B2 & B3).
    exists (e1 :: es). split; [|split; [exact A2 | exact A3]].
    apply (acc_cons first w ev e1 w1 es w'); try assumption.
    now apply (aw_skip _ w ev e w0).
Qed.

Lemma click_success_code m mk sa l w rc w' :
  click_success m mk sa l w = Some (rc, w') -> rc = 0.
Proof.
  intros H. destruct (click_success_total m mk sa l w) as [w'' H'].
  rewrite H' in H. now inversion H.
Qed.

(** X10.  A run of multi-click mode with required count [N] succeeds
    (return code 0) exactly when a first press arrives and [N - 1]
    presses follow it, each within the gap timeout and each passing the
    test of the radius against the first; what the run marks and prints
    is then the success path on the last of them.  No other input makes
    the run succeed. *)
Theorem click_success_iff N m mk sa w w3 :
  1 <= N <= Mach.INT_MAX ->
  handle_click_mode N m mk sa w = Some (0, w3)
  <-> exists first w1 es w2,
        awaits Dbl.minus_one w event_zero first w1
        /\ accepted first w1 event_zero es w2
        /\ Z.of_nat (length es) = N - 1
        /\ click_success m mk sa (List.last es first) w2 = Some (0, w3).
Proof.
  intros [H1 HM]. split.
  - intros H. unfold handle_click_mode, bind at 1 in H.
    destruct (wait_for_first_press event_zero w) as [[[ok first] w1]|] eqn:Hf;
      [|discriminate].
    destruct (wait_for_first_press_code _ _ _ _ _ _ (Nat.le_refl _) Hf)
      as [-> | ->]; [discriminate|].
    cbn [Z.eqb] in H.
    pose proof (first_press_awaits _ _ _ _ _ (Nat.le_refl _) Hf) as Ha.
    exists first, w1.
    destruct (N >? 1) eqn:EN.
    + unfold bind in H.
      destruct (click_followups N first 1 first event_zero w1)
        as [[res w2]|] eqn:Hc; [|discriminate].
      destruct res as [[count last]|]; [|discriminate].
      cbn [click_result] in H.
      destruct (count =? N) eqn:Ec; cbn [negb] in H; [|discriminate].
      apply Z.eqb_eq in Ec. subst count.
      destruct (followups_accepted N first _ w1 1 first event_zero last w2
                  (Nat.le_refl _)) as (es & A1 & A2 & A3);
        [lia | exact HM | exact Hc |].
      exists es, w2. subst last. repeat split; try assumption. lia.
    + assert (N = 1) by (rewrite Z.gtb_ltb in EN; apply Z.ltb_ge in EN; lia).
      subst N. exists [], w1. repeat split; try assumption. apply acc_nil.
  - intros (first & w1 & es & w2 & Ha & Hc & Hlen & Hs).
    rewrite (handle_click_mode_first N m mk sa w first w1
               (awaits_first_press _ _ _ _ Ha)).
    destruct (N >? 1) eqn:EN.
    + unfold bind.
      rewrite (accepted_followups N first es w1 event_zero w2 1 first Hc) by lia.
      replace (1 + Z.of_nat (length es)) with N by lia.
      rewrite click_followups_full. cbn [click_result].
      now rewrite Z.eqb_refl.
    + assert (N = 1) by (rewrite Z.gtb_ltb in EN; apply Z.ltb_ge in EN; lia).
      subst N. destruct es; [|cbn [length] in Hlen; lia].
      inversion Hc; subst. exact Hs.
Qed.

(** X11.  [handle_click_mode] returns 0 or 1.  A run that fails (1) has
    printed nothing to the output, has allocated nothing and has drawn
    no mark: all that it can have written to the terminal are the
    restore sequences of signals caught on the way. *)
Theorem click_failure_silent N m mk sa w rc w' :
  handle_click_mode N m mk sa w = Some (rc, w') ->
  (rc = 0 \/ rc = 1) /\ (rc = 1 -> signals_only w w').
Proof.
  intros H. unfold handle_click_mode, bind at 1 in H.
  destruct (wait_for_first_press event_zero w) as [[[ok first] w1]|] eqn:Hf;
    [|discriminate].
  pose proof (changes_wait_for_first_press signals_only_frame _ _ _ _ Hf) as S1.
  destruct (ok =? 0).
  { inversion H; subst. split; [now right | intros _; exact S1]. }
  destruct (N >? 1).
  - unfold bind in H.
    destruct (click_followups N first 1 first event_zero w1)
      as [[res w2]|] eqn:Hc; [|discriminate].
    pose proof (changes_click_followups signals_only_frame _ _ _ _ _ _ _ _ Hc)
      as S2.
    pose proof (signals_only_trans _ _ _ S1 S2) as S3.
    destruct res as [[count last]|]; cbn [click_result] in H.
    + destruct (negb (count =? N)).
      * inversion H; subst. split; [now right | intros _; exact S3].
      * apply click_success_code in H. subst rc.
        split; [now left | discriminate].
    + inversion H; subst. split; [now right | intros _; exact S3].
  - apply click_success_code in H. subst rc. split; [now left | discriminate].
Qed.

End ClickSound.

Lemma first_press_sound_witness :
  (1 = 0 \/ 1 = 1)
  /\ (1 = 1 <-> awaits Dbl.minus_one three_clicks event_zero
                  (press_at 10 10 0) three_clicks_1)
  /\ (1 = 1 -> is_press (press_at 10 10 0) = true).
Proof.
  apply (first_press_sound event_zero three_clicks 1 (press_at 10 10 0)
           three_clicks_1).
  vm_compute. reflexivity.
Defined.

Lemma click_success_iff_witness :
  handle_click_mode 3 OUT_CSV true "" three_clicks
  = Some (0, world_after (handle_click_mode 3 OUT_CSV true "") three_clicks)
  <-> exists first w1 es w2,
        awaits Dbl.minus_one three_clicks event_zero first w1
        /\ accepted first w1 event_zero es w2
        /\ Z.of_nat (length es) = 3 - 1
        /\ click_success OUT_CSV true "" (List.last es first) w2
           = Some (0, world_after (handle_click_mode 3 OUT_CSV true "")
                        three_clicks).
Proof.
  apply (click_success_iff 3 OUT_CSV true "" three_clicks
           (world_after (handle_click_mode 3 OUT_CSV true "") three_clicks)).
  unfold Mach.INT_MAX. lia.
Defined.

Lemma click_failure_silent_witness :
  (1 = 0 \/ 1 = 1)
  /\ (1 = 1 ->
      signals_only
        (world_of [SEL_READY; SEL_TIMEOUT; SEL_READY]
           (rd_bytes (csi "<0;10;10M" ++ csi "<0;10;10M")))
        (world_after (handle_click_mode 2 OUT_CSV true "")
           (world_of [SEL_READY; SEL_TIMEOUT; SEL_READY]
              (rd_bytes (csi "<0;10;10M" ++ csi "<0;10;10M"))))).
Proof.
  apply (click_failure_silent 2 OUT_CSV true ""
           (world_of [SEL_READY; SEL_TIMEOUT; SEL_READY]
              (rd_bytes (csi "<0;10;10M" ++ csi "<0;10;10M")))
           1
           (world_after (handle_click_mode 2 OUT_CSV true "")
              (world_of [SEL_READY; SEL_TIMEOUT; SEL_READY]
                 (rd_bytes (csi "<0;10;10M" ++ csi "<0;10;10M"))))).
  vm_compute. reflexivity.
Defined.

(* ================================================================== *)
(** * [wait_multiclick_followups] and the loop of [handle_click_mode]   *)
(* ================================================================== *)

Section Related.

Context {St1 St2 R1 R2 : Type}.
Context (body1 : St1 -> M (ctl St1 R1)) (body2 : St2 -> M (ctl St2 R2)).
Context (Rel : St1 -> St2 -> Prop) (RelR : R1 -> R2 -> Prop).

(** Two passes of two loops, from related variables, end in the same
    world, both with a [return] or both without. *)
Definition pass_related (s1 : St1) (s2 : St2) (w : world) : Prop :=
  match body1 s1 w, body2 s2 w with
  | Some (Return r1, w1), Some (Return r2, w2) => w1 = w2 /\ RelR r1 r2
  | Some (Continue a1, w1), Some (Continue a2, w2) => w1 = w2 /\ Rel a1 a2
  | None, None => True
  | _, _ => False
  end.

Definition loop_related (s1 : St1) (s2 : St2) (w : world) : Prop :=
  match loop body1 s1 w, loop body2 s2 w with
  | Some (r1, w1), Some (r2, w2) => w1 = w2 /\ RelR r1 r2
  | None, None => True
  | _, _ => False
  end.

Lemma loops_related :
  (forall s1 s2 w, Rel s1 s2 -> pass_related s1 s2 w) ->
  forall s1 s2 w, Rel s1 s2 -> loop_related s1 s2 w.
Proof.
  intros Hpass s1 s2 w. unfold loop_related, loop.
  generalize (S (length (sel_q w))) as f. intros f; revert s1 s2 w.
  induction f as [|f IH]; intros s1 s2 w HR; [exact I|].
  cbn [loop_fuel]. unfold bind.
  pose proof (Hpass s1 s2 w HR) as P. unfold pass_related in P.
  destruct (body1 s1 w) as [[[r1|a1] w1]|];
    destruct (body2 s2 w) as [[[r2|a2] w2]|]; try contradiction; try exact I.
  - exact P.
  - destruct P as [<- P]. exact (IH a1 a2 w1 P).
Qed.

End Related.

Section Helper.

(** The value that [wait_multiclick_followups] returns for an outcome
    of the loop of [handle_click_mode]. *)
Definition followups_code (N : Z) (res : option (Z * event_t)) : Z :=
  match res with
  | Some (count, _) => if count =? N then 0 else 1
  | None => 1
  end.

Lemma multiclick_pass_related N first count last ev w :
  pass_related (multiclick_pass (ev_x first) (ev_y first) N)
               (followup_pass N first)
               (fun s1 s2 => fst s1 = fst (fst s2) /\ snd s1 = snd s2)
               (fun rc res => rc = followups_code N res)
               (count, ev) (count, last, ev) w.
Proof.
  unfold pass_related, multiclick_pass, followup_pass, bind, gets, ret.
  destruct (negb ((count <? N) && (got_sig w =? 0))).
  { split; reflexivity. }
  destruct (read_sgr_event_timeout ev MULTICLICK_MAX_GAP 0 w)
    as [[[rv e] w']|]; [|exact I].
  destruct (rv =? 0); [split; reflexivity|].
  destruct (rv =? -1); [split; reflexivity|].
  destruct (rv =? 2); [split; reflexivity|].
  destruct (negb (is_press e)); [split; [reflexivity | split; reflexivity]|].
  fold (within_radius first e).
  destruct (within_radius first e);
    [split; [reflexivity | split; reflexivity] | split; reflexivity].
Qed.

(** X12.  [wait_multiclick_followups], the helper that [main.c] defines
    and does not call, does what the loop inside [handle_click_mode]
    does: on every input the two read the same bytes and end in the
    same world, and the helper returns 0 exactly when the loop ends
    with [count == N]. *)
Theorem multiclick_helper_agrees N first w :
  1 < N ->
  match wait_multiclick_followups (ev_x first) (ev_y first) N w,
        click_followups N first 1 first event_zero w with
  | Some (rc, w1), Some (res, w2) => w1 = w2 /\ rc = followups_code N res
  | None, None => True
  | _, _ => False
  end.
Proof.
  intros HN. unfold wait_multiclick_followups, click_followups.
  replace (N <=? 1) with false by (symmetry; apply Z.leb_gt; exact HN).
  apply (loops_related
           (multiclick_pass (ev_x first) (ev_y first) N)
           (followup_pass N first)
           (fun s1 s2 => fst s1 = fst (fst s2) /\ snd s1 = snd s2)
           (fun rc res => rc = followups_code N res)).
  - intros [c1 e1] [[c2 l2] e2] w0 [Hc He]. cbn [fst snd] in Hc, He. subst.
    apply multiclick_pass_related.
  - split; reflexivity.
Qed.

End Helper.

Lemma multiclick_helper_agrees_witness :
  match wait_multiclick_followups (ev_x (press_at 10 10 0))
                                  (ev_y (press_at 10 10 0)) 3 three_clicks_1,
        click_followups 3 (press_at 10 10 0) 1 (press_at 10 10 0) event_zero
                        three_clicks_1 with
  | Some (rc, w1), Some (res, w2) => w1 = w2 /\ rc = followups_code 3 res
  | None, None => True
  | _, _ => False
  end.
Proof.
  apply (multiclick_helper_agrees 3 (press_at 10 10 0) three_clicks_1). lia.
Defined.

(* ================================================================== *)
(** * The capture loop: what is printed, and when the loop ends         *)
(* ================================================================== *)

Section StreamOutput.

Lemma str_app_nil_r (s : string) : (s ++ "")%string = s.
Proof. induction s as [|c s IH]; cbn; [reflexivity | now rewrite IH]. Qed.

(** The concatenation of the lines [l]. *)
Definition lines (l : list string) : string := fold_right append "" l.

(** The [dt] of an event emitted at [cur] when the event before it was
    emitted at [last]; a [last] of zero seconds and zero nanoseconds
    stands for "no event yet". *)
Definition emit_dt (last cur : timespec) : float :=
  if negb (tv_sec last =? 0) || negb (tv_nsec last =? 0)
  then ts_diff cur last else Dbl.zero.

(** What the loop prints for one event, by output mode. *)
Definition streamed (m : out_mode_t) (e : event_t) (dt : float) : string :=
  match m with
  | OUT_CSV => if is_press e then csv_line e else ""
  | OUT_JSONL => (json_event e dt ++ nl)%string
  | OUT_JSON | OUT_PRETTY => ""
  end.

(** The capacity of [outs] after room was made for one more entry. *)
Definition grown_cap (count cap : Z) : Z :=
  if count + 1 >? cap
  then (if negb (cap =? 0) then Mach.to_size_t (cap * 2) else 256)
  else cap.

Lemma store_event_spec cfg ev dt st w :
  exists r w2,
    store_event cfg ev dt st w = Some (r, w2)
    /\ out_buf w2 = (out_buf w ++ streamed (out_mode cfg) ev dt)%string
    /\ ticks w2 = ticks w /\ clock w2 = clock w /\ sel_q w2 = sel_q w
    /\ match r with
       | None => out_of_memory cfg st w = true
       | Some st' =>
           out_of_memory cfg st w = false
           /\ st' = set_outs
                      (if is_json (out_mode cfg)
                       then ls_outs st ++ [{| oe_ev := ev; oe_dt := dt |}]
                       else ls_outs st)
                      (if is_json (out_mode cfg)
                       then grown_cap (outs_count st) (ls_outs_cap st)
                       else ls_outs_cap st) st
       end.
Proof.
  unfold store_event, out_of_memory, grown_cap, streamed, bind,
    print_json_line, print_error, fprint_out, fprint_err, sys_alloc, modify,
    ret.
  assert (Same : st = set_outs (ls_outs st) (ls_outs_cap st) st)
    by (destruct st; reflexivity).
  destruct (out_mode cfg); cbn [is_json andb];
    [ destruct (is_press ev)
    | destruct (outs_count st + 1 >? ls_outs_cap st); cbn [andb];
      [destruct (alloc_ok w (allocs w)); cbn [negb]|]
    | destruct (outs_count st + 1 >? ls_outs_cap st); cbn [andb];
      [destruct (alloc_ok w (allocs w)); cbn [negb]|]
    | ];
    eexists; eexists; (split; [reflexivity|]);
    cbn [out_buf set_out_buf set_err_buf set_allocs ticks clock sel_q];
    rewrite ?str_app_nil_r;
    repeat (split; [reflexivity|]);
    first [reflexivity | exact Same].
Qed.

Lemma count_event_keeps cfg ev st :
  ls_last_emit_time (ctl_state (count_event cfg ev st)) = ls_last_emit_time st
  /\ ls_outs_cap (ctl_state (count_event cfg ev st)) = ls_outs_cap st.
Proof.
  unfold count_event.
  set (st' := if is_press ev
              then set_outputs (Mach.int_add (ls_outputs st) 1) st else st).
  assert (E : ls_last_emit_time st' = ls_last_emit_time st
              /\ ls_outs_cap st' = ls_outs_cap st)
    by (subst st'; destruct (is_press ev); split; reflexivity).
  destruct (negb (infinite cfg) && (count_limit cfg =? 0)
            && (ls_outputs st' >=? 1)); [exact E|].
  destruct (negb (infinite cfg) && (count_limit cfg >? 0)
            && (ls_outputs st' >=? count_limit cfg)); exact E.
Qed.

(** What [emit_event] prints and stores for the event [ls_ev st]. *)
Lemma emit_event_spec cfg st w :
  exists c w2,
    emit_event cfg st w = Some (c, w2)
    /\ out_buf w2
       = (out_buf w
          ++ streamed (out_mode cfg) (ls_ev st)
               (emit_dt (ls_last_emit_time st) (clock w (ticks w))))%string
    /\ sel_q w2 = sel_q w
    /\ ls_last_emit_time (ctl_state c) = clock w (ticks w)
    /\ if out_of_memory cfg st w
       then stops c = true /\ ls_outs (ctl_state c) = ls_outs st
            /\ ls_outs_cap (ctl_state c) = ls_outs_cap st
       else
         ls_outs (ctl_state c)
         = (if is_json (out_mode cfg)
            then ls_outs st
                 ++ [{| oe_ev := ls_ev st;
                        oe_dt := emit_dt (ls_last_emit_time st)
                                         (clock w (ticks w)) |}]
            else ls_outs st)
         /\ ls_outs_cap (ctl_state c)
            = (if is_json (out_mode cfg)
               then grown_cap (outs_count st) (ls_outs_cap st)
               else ls_outs_cap st).
Proof.
  unfold emit_event.
  set (ev := ls_ev st).
  set (mark := if do_mark cfg && is_press ev
               then draw_mark (ev_x ev) (ev_y ev) else ret tt).
  assert (Hm : exists w1, mark w = Some (tt, w1)
            /\ out_buf w1 = out_buf w /\ ticks w1 = ticks w
            /\ clock w1 = clock w /\ sel_q w1 = sel_q w
            /\ alloc_ok w1 = alloc_ok w /\ allocs w1 = allocs w).
  { subst mark. destruct (do_mark cfg && is_press ev);
      eexists; split; try reflexivity; repeat split; reflexivity. }
  destruct Hm as (w1 & Hm & Ho1 & Ht1 & Hc1 & Hs1 & Ha1 & Ha2).
  unfold bind at 1. rewrite Hm.
  unfold bind at 1, clock_gettime. rewrite Hc1, Ht1.
  set (cur := clock w (ticks w)).
  fold (emit_dt (ls_last_emit_time st) cur).
  set (dt := emit_dt (ls_last_emit_time st) cur).
  set (st1 := set_last_emit_time cur st).
  set (w1' := set_ticks (S (ticks w)) w1).
  destruct (store_event_spec cfg ev dt st1 w1')
    as (r & w2 & Hs & Hout & _ & _ & Hsel & Hr).
  unfold bind. rewrite Hs.
  assert (Hoom : out_of_memory cfg st1 w1' = out_of_memory cfg st w).
  { unfold out_of_memory. subst w1' st1. cbn [alloc_ok allocs set_ticks].
    rewrite Ha1, Ha2. destruct st; reflexivity. }
  rewrite Hoom in Hr.
  assert (Hout' : out_buf w2
                  = (out_buf w ++ streamed (out_mode cfg) ev dt)%string)
    by (rewrite Hout; subst w1'; cbn [out_buf set_ticks]; now rewrite Ho1).
  assert (Hsel' : sel_q w2 = sel_q w)
    by (rewrite Hsel; subst w1'; cbn [sel_q set_ticks]; exact Hs1).
  destruct r as [st2|].
  - destruct Hr as [Hr ->]. rewrite Hr.
    eexists; eexists; split; [reflexivity|].
    split; [exact Hout'|]. split; [exact Hsel'|].
    destruct (count_event_keeps cfg ev
                (set_outs (if is_json (out_mode cfg)
                           then ls_outs st1 ++ [{| oe_ev := ev; oe_dt := dt |}]
                           else ls_outs st1)
                          (if is_json (out_mode cfg)
                           then grown_cap (outs_count st1) (ls_outs_cap st1)
                           else ls_outs_cap st1) st1)) as (K1 & K2).
    destruct (count_event_effect cfg ev
                (set_outs (if is_json (out_mode cfg)
                           then ls_outs st1 ++ [{| oe_ev := ev; oe_dt := dt |}]
                           else ls_outs st1)
                          (if is_json (out_mode cfg)
                           then grown_cap (outs_count st1) (ls_outs_cap st1)
                           else ls_outs_cap st1) st1))
      as (_ & _ & C3 & _ & _).
    split; [rewrite K1; subst st1; destruct st; reflexivity|].
    split; [rewrite C3; subst st1; destruct st; reflexivity|].
    rewrite K2. subst st1. destruct st. reflexivity.
  - rewrite Hr. eexists; eexists; split; [reflexivity|].
    split; [exact Hout'|]. split; [exact Hsel'|].
    subst st1. destruct st. cbn. repeat split; reflexivity.
Qed.

(** X13.  Outside record mode, a pass of the loop of [main] that gets
    an event prints, at once: in CSV mode the line [x,y,button] if the
    event is a press and nothing otherwise; in JSONL mode one line for
    the event of whatever kind; in the two JSON modes nothing.  The [dt]
    it prints or stores is 0 when no event was emitted before and
    otherwise the time since the emission before it, which is taken
    from the clock after the mark.  A pass that gets no event (timeout,
    Enter, end of input) prints nothing. *)
Theorem stream_pass_output cfg mx rs st w rv e w1 :
  record_mode cfg = false -> got_sig w = 0 ->
  read_sgr_event_timeout (ls_ev st) Dbl.minus_one (wm_arg cfg) w
  = Some ((rv, e), w1) ->
  exists c w2,
    loop_pass cfg mx rs st w = Some (c, w2)
    /\ (rv = 1 ->
        out_buf w2
        = (out_buf w
           ++ streamed (out_mode cfg) e
                (emit_dt (ls_last_emit_time st) (clock w1 (ticks w1))))%string
        /\ ls_last_emit_time (ctl_state c) = clock w1 (ticks w1))
    /\ (rv <> 1 ->
        out_buf w2 = out_buf w
        /\ ls_last_emit_time (ctl_state c) = ls_last_emit_time st).
Proof.
  intros Hr Hg Hread.
  rewrite (loop_pass_stream cfg mx rs st w Hr Hg), Hread.
  destruct (changes_reader signals_only_frame _ _ _ _ _ _ Hread)
    as (Ho & _).
  assert (Quiet : forall c : ctl loop_state loop_state,
            ctl_state c = set_ev e st ->
            (exists c0 w2,
              Some (c, w1) = Some (c0, w2)
              /\ (rv = 1 ->
                  out_buf w2
                  = (out_buf w
                     ++ streamed (out_mode cfg) e
                          (emit_dt (ls_last_emit_time st)
                                   (clock w1 (ticks w1))))%string
                  /\ ls_last_emit_time (ctl_state c0) = clock w1 (ticks w1))
              /\ (rv <> 1 ->
                  out_buf w2 = out_buf w
                  /\ ls_last_emit_time (ctl_state c0) = ls_last_emit_time st))
            \/ rv = 1).
  { intros c Hc. destruct (Z.eq_dec rv 1) as [E|E]; [now right|].
    left. exists c, w1. split; [reflexivity|]. split; [contradiction|].
    intros _. split; [exact Ho|]. rewrite Hc. destruct st; reflexivity. }
  destruct (rv =? -1) eqn:E1.
  { destruct (Quiet (Return (set_ev e st)) eq_refl) as [Q|Q]; [exact Q|].
    subst rv. discriminate. }
  destruct (rv =? 0) eqn:E0.
  { destruct (Quiet (Continue (set_ev e st)) eq_refl) as [Q|Q]; [exact Q|].
    subst rv. discriminate. }
  destruct (rv =? 2) eqn:E2.
  { destruct (Quiet (Return (set_ev e st)) eq_refl) as [Q|Q]; [exact Q|].
    subst rv. discriminate. }
  assert (rv = 1) by exact (reader_event _ _ _ _ _ _ _ Hread (or_introl E0) E1 E2).
  subst rv.
  destruct (emit_event_spec cfg (set_ev e st) w1)
    as (c & w2 & He & Hout & _ & Hlast & _).
  exists c, w2. split; [exact He|]. split; [|intros F; now elim F].
  intros _. split; [|exact Hlast].
  rewrite Hout, Ho. destruct st; reflexivity.
Qed.

End StreamOutput.

Lemma stream_pass_output_witness :
  exists c w2,
    loop_pass (cfg_stream true 0 OUT_JSONL false) 0 ts0 init_state three_clicks
    = Some (c, w2)
    /\ (1 = 1 ->
        out_buf w2
        = (out_buf three_clicks
           ++ streamed (out_mode (cfg_stream true 0 OUT_JSONL false))
                (press_at 10 10 0)
                (emit_dt (ls_last_emit_time init_state)
                         (clock three_clicks_1 (ticks three_clicks_1))))%string
        /\ ls_last_emit_time (ctl_state c)
           = clock three_clicks_1 (ticks three_clicks_1))
    /\ (1 <> 1 ->
        out_buf w2 = out_buf three_clicks
        /\ ls_last_emit_time (ctl_state c) = ls_last_emit_time init_state).
Proof.
  apply (stream_pass_output (cfg_stream true 0 OUT_JSONL false) 0 ts0
           init_state three_clicks 1 (press_at 10 10 0) three_clicks_1).
  - reflexivity.
  - reflexivity.
  - vm_compute. reflexivity.
Defined.

Section StreamRuns.

(** What a pass of the loop outside record mode does to [outs], to its
    capacity and to [last_emit_time]. *)
Lemma stream_pass_outs cfg mx rs st w c w' :
  record_mode cfg = false ->
  loop_pass cfg mx rs st w = Some (c, w') ->
  (ls_outs (ctl_state c) = ls_outs st
   /\ ls_outs_cap (ctl_state c) = ls_outs_cap st
   /\ (is_json (out_mode cfg) = true -> stops c = false ->
       ls_last_emit_time (ctl_state c) = ls_last_emit_time st)
   /\ (length (sel_q w') <= length (sel_q w))%nat)
  \/ (is_json (out_mode cfg) = true
      /\ (exists ev,
            ls_outs (ctl_state c)
            = ls_outs st
              ++ [{| oe_ev := ev;
                     oe_dt := emit_dt (ls_last_emit_time st)
                                (ls_last_emit_time (ctl_state c)) |}])
      /\ ls_outs_cap (ctl_state c)
         = grown_cap (outs_count st) (ls_outs_cap st)
      /\ (length (sel_q w') < length (sel_q w))%nat).
Proof.
  intros Hr Hp.
  destruct (Z.eq_dec (got_sig w) 0) as [Hg|Hg].
  2:{ rewrite (loop_pass_signal cfg mx rs st w Hg) in Hp. inversion Hp; subst.
      left. repeat split; reflexivity. }
  rewrite (loop_pass_stream cfg mx rs st w Hr Hg) in Hp.
  destruct (read_sgr_event_timeout _ _ _ w) as [[[rv e] w1]|] eqn:Hread;
    [|discriminate].
  pose proof (shrinks_read_sgr_event_timeout _ _ _ _ _ _ Hread) as Hsh.
  apply Nat.lt_le_incl in Hsh.
  assert (Same : ls_outs (set_ev e st) = ls_outs st
                 /\ ls_outs_cap (set_ev e st) = ls_outs_cap st
                 /\ ls_last_emit_time (set_ev e st) = ls_last_emit_time st)
    by (destruct st; repeat split; reflexivity).
  destruct Same as (S1 & S2 & S3).
  destruct (rv =? -1);
    [inversion Hp; subst; left; cbn [ctl_state]; auto|].
  destruct (rv =? 0);
    [inversion Hp; subst; left; cbn [ctl_state]; auto|].
  destruct (rv =? 2);
    [inversion Hp; subst; left; cbn [ctl_state]; auto|].
  destruct (emit_event_spec cfg (set_ev e st) w1)
    as (c' & w2 & He & _ & Hsel & Hlast & Hcase).
  rewrite He in Hp. inversion Hp; subst c' w2. clear Hp He.
  rewrite S1, S2, S3 in Hcase.
  destruct (out_of_memory cfg (set_ev e st) w1).
  - destruct Hcase as (Hs & H1 & H2). left.
    split; [exact H1|]. split; [exact H2|].
    split; [intros _ F; congruence | now rewrite Hsel].
  - destruct Hcase as (H1 & H2).
    destruct (is_json (out_mode cfg)) eqn:Hj.
    + right. split; [reflexivity|].
      split; [exists (ls_ev (set_ev e st)); rewrite H1, Hlast; reflexivity|].
      split; [rewrite H2; destruct st; reflexivity|].
      rewrite Hsel. exact (shrinks_read_sgr_event_timeout _ _ _ _ _ _ Hread).
    + left. split; [exact H1|]. split; [exact H2|].
      split; [intros F; discriminate | now rewrite Hsel].
Qed.

(** X14.  In a run outside record mode that collects its events for a
    JSON output, the first entry of [outs] has [dt = 0]. *)
Theorem first_dt_zero cfg mx rs w st' w' :
  record_mode cfg = false -> is_json (out_mode cfg) = true ->
  main_loop cfg mx rs init_state w = Some (st', w') ->
  match ls_outs st' with
  | [] => True
  | o :: _ => oe_dt o = Dbl.zero
  end.
Proof.
  intros Hr Hj Hrun.
  apply (loop_invariant (loop_pass cfg mx rs)
           (fun s _ =>
              (ls_outs s = [] /\ ls_last_emit_time s = ts0)
              \/ (exists o rest, ls_outs s = o :: rest /\ oe_dt o = Dbl.zero))
           (fun s _ =>
              match ls_outs s with
              | [] => True
              | o :: _ => oe_dt o = Dbl.zero
              end))
    with (s := init_state) (w := w) (w' := w'); [| | exact Hrun].
  - intros s w0 c w0' HI Hp.
    assert (Post : forall s1, ls_outs s1 = ls_outs s ->
                     match ls_outs s1 with
                     | [] => True
                     | o :: _ => oe_dt o = Dbl.zero
                     end).
    { intros s1 ->. destruct HI as [[-> _] | (o & rest & -> & Ho)];
        [exact I | exact Ho]. }
    assert (Grown : forall s1 ev,
              ls_outs s1
              = ls_outs s
                ++ [{| oe_ev := ev;
                       oe_dt := emit_dt (ls_last_emit_time s)
                                  (ls_last_emit_time s1) |}] ->
              exists o rest, ls_outs s1 = o :: rest /\ oe_dt o = Dbl.zero).
    { intros s1 ev E. destruct HI as [[E0 El] | (o & rest & E0 & Ho)];
        rewrite E0 in E; rewrite E.
      - rewrite El. eexists; eexists; split; reflexivity.
      - exists o. eexists. split; [reflexivity | exact Ho]. }
    destruct (stream_pass_outs cfg mx rs s w0 c w0' Hr Hp)
      as [(H1 & _ & H3 & _) | (_ & (ev & H1) & _)].
    + destruct c as [r|s']; cbn [ctl_state stops] in *.
      * exact (Post r H1).
      * rewrite H1, (H3 Hj eq_refl). exact HI.
    + destruct (Grown _ _ H1) as (o & rest & E & Ho).
      destruct c as [r|s']; cbn [ctl_state] in *.
      * rewrite E. exact Ho.
      * right. exists o, rest. split; assumption.
  - left. split; reflexivity.
Qed.

Lemma grown_cap_room count cap :
  0 <= count <= cap -> count < 2 ^ 62 -> count + 1 <= grown_cap count cap.
Proof.
  intros Hc Hb. unfold grown_cap.
  destruct (count + 1 >? cap) eqn:E.
  - rewrite Z.gtb_ltb in E. apply Z.ltb_lt in E.
    assert (cap = count) by lia. subst cap.
    destruct (count =? 0) eqn:E0; cbn [negb].
    + apply Z.eqb_eq in E0. lia.
    + apply Z.eqb_neq in E0. unfold Mach.to_size_t.
      rewrite Z.mod_small; [lia|].
      change (2 ^ 64) with (4 * 2 ^ 62). lia.
  - rewrite Z.gtb_ltb in E. apply Z.ltb_ge in E. lia.
Qed.

(** X15.  In a run outside record mode, [outs] never holds more entries
    than the capacity it was allocated with: an entry is written only
    after [outs] was grown to hold it (for any input of fewer than 2^62
    outcomes of [select], so that the doubling of the capacity does not
    wrap). *)
Theorem outs_within_capacity cfg mx rs w st' w' :
  record_mode cfg = false ->
  Z.of_nat (length (sel_q w)) < 2 ^ 62 ->
  main_loop cfg mx rs init_state w = Some (st', w') ->
  outs_count st' <= ls_outs_cap st'.
Proof.
  intros Hr Hb Hrun.
  apply (loop_invariant (loop_pass cfg mx rs)
           (fun s w0 =>
              outs_count s <= ls_outs_cap s
              /\ outs_count s + Z.of_nat (length (sel_q w0)) < 2 ^ 62)
           (fun s _ => outs_count s <= ls_outs_cap s))
    with (s := init_state) (w := w) (w' := w'); [| | exact Hrun].
  - intros s w0 c w0' [I1 I2] Hp.
    assert (Hc0 : 0 <= outs_count s) by (unfold outs_count; lia).
    destruct (stream_pass_outs cfg mx rs s w0 c w0' Hr Hp)
      as [(H1 & H2 & _ & H4) | (_ & (ev & H1) & H2 & H4)].
    + assert (E : outs_count (ctl_state c) = outs_count s)
        by (unfold outs_count; now rewrite H1).
      destruct c as [r|s']; cbn [ctl_state] in *; rewrite E, H2;
        [exact I1 | split; [exact I1 | lia]].
    + assert (E : outs_count (ctl_state c) = outs_count s + 1).
      { unfold outs_count. rewrite H1, length_app. cbn [length]. lia. }
      pose proof (grown_cap_room (outs_count s) (ls_outs_cap s)) as G.
      destruct c as [r|s']; cbn [ctl_state] in *; rewrite E, H2;
        [lia | split; lia].
  - cbn. split; lia.
Qed.

(** X16.  In continuous mode ([-i], no record) the loop of [main] is
    left only when a signal was caught, when the reader reports Enter
    (2) or the end of the input (-1), or when [outs] could not be
    grown: no number of events ends it. *)
Theorem continuous_capture_exits cfg mx rs st w st' w' :
  infinite cfg = true -> record_mode cfg = false ->
  loop_pass cfg mx rs st w = Some (Return st', w') ->
  got_sig w <> 0
  \/ exists rv e w1,
       read_sgr_event_timeout (ls_ev st) Dbl.minus_one (wm_arg cfg) w
       = Some ((rv, e), w1)
       /\ (rv = -1 \/ rv = 2
           \/ (rv = 1 /\ out_of_memory cfg (set_ev e st) w1 = true)).
Proof.
  intros Hi Hr Hp.
  destruct (Z.eq_dec (got_sig w) 0) as [Hg|Hg]; [|now left]. right.
  rewrite (loop_pass_stream cfg mx rs st w Hr Hg) in Hp.
  destruct (read_sgr_event_timeout _ _ _ w) as [[[rv e] w1]|] eqn:Hread;
    [|discriminate].
  exists rv, e, w1. split; [reflexivity|].
  destruct (rv =? -1) eqn:E1; [apply Z.eqb_eq in E1; auto|].
  destruct (rv =? 0) eqn:E0; [discriminate|].
  destruct (rv =? 2) eqn:E2; [apply Z.eqb_eq in E2; auto|].
  assert (rv = 1) by exact (reader_event _ _ _ _ _ _ _ Hread (or_introl E0) E1 E2).
  right; right. split; [assumption|].
  destruct (emit_event_effect cfg (set_ev e st) w1)
    as (c & w2 & He & _ & _ & _ & Hcase).
  rewrite He in Hp. inversion Hp; subst c w2.
  destruct (out_of_memory cfg (set_ev e st) w1); [reflexivity|].
  destruct Hcase as (_ & Hs & _). cbn [stops] in Hs.
  unfold limit_reached in Hs. rewrite Hi in Hs. discriminate.
Qed.

(** ** The lines of a limited capture *)




End StreamRuns.


Lemma first_dt_zero_witness :
  match ls_outs (fst (match main_loop (cfg_stream false 2 OUT_JSON true) 0 ts0
                              init_state three_clicks with
                      | Some r => r
                      | None => (init_state, three_clicks)
                      end)) with
  | [] => True
  | o :: _ => oe_dt o = Dbl.zero
  end.
Proof.
  apply (first_dt_zero (cfg_stream false 2 OUT_JSON true) 0 ts0 three_clicks
           _ (world_after (main_loop (cfg_stream false 2 OUT_JSON true) 0 ts0
                             init_state) three_clicks));
    [reflexivity | reflexivity |].
  vm_compute. reflexivity.
Defined.

Lemma outs_within_capacity_witness :
  outs_count (fst (match main_loop (cfg_stream false 2 OUT_JSON true) 0 ts0
                           init_state three_clicks with
                   | Some r => r
                   | None => (init_state, three_clicks)
                   end))
  <= ls_outs_cap (fst (match main_loop (cfg_stream false 2 OUT_JSON true) 0
                               ts0 init_state three_clicks with
                       | Some r => r
                       | None => (init_state, three_clicks)
                       end)).
Proof.
  apply (outs_within_capacity (cfg_stream false 2 OUT_JSON true) 0 ts0
           three_clicks _
           (world_after (main_loop (cfg_stream false 2 OUT_JSON true) 0 ts0
                           init_state) three_clicks));
    [reflexivity | vm_compute; reflexivity |].
  vm_compute. reflexivity.
Defined.

Lemma continuous_capture_exits_witness :
  got_sig (world_of [SEL_READY] (rd_bytes [Chr.CR])) <> 0
  \/ exists rv e w1,
       read_sgr_event_timeout (ls_ev init_state) Dbl.minus_one
         (wm_arg (cfg_stream true 0 OUT_CSV false))
         (world_of [SEL_READY] (rd_bytes [Chr.CR]))
       = Some ((rv, e), w1)
       /\ (rv = -1 \/ rv = 2
           \/ (rv = 1
               /\ out_of_memory (cfg_stream true 0 OUT_CSV false)
                    (set_ev e init_state) w1 = true)).
Proof.
  apply (continuous_capture_exits (cfg_stream true 0 OUT_CSV false) 0 ts0
           init_state (world_of [SEL_READY] (rd_bytes [Chr.CR]))
           (set_ev event_zero init_state)
           (world_after (loop_pass (cfg_stream true 0 OUT_CSV false) 0 ts0
                           init_state)
              (world_of [SEL_READY] (rd_bytes [Chr.CR]))));
    [reflexivity | reflexivity |].
  vm_compute. reflexivity.
Defined.

(* ================================================================== *)
(** * Record mode: the capture and the dump                             *)
(* ================================================================== *)

Section RecordCapture.

Lemma loop_ext {St R} (body1 body2 : St -> M (ctl St R)) :
  (forall s w, body1 s w = body2 s w) ->
  forall s w, loop body1 s w = loop body2 s w.
Proof.
  intros H s w. unfold loop.
  generalize (S (length (sel_q w))) as f. intros f; revert s w.
  induction f as [|f IH]; intros s w; [reflexivity|].
  cbn [loop_fuel]. unfold bind. rewrite H.
  destruct (body2 s w) as [[[r|s'] w1]|]; try reflexivity. apply IH.
Qed.

Lemma wm_arg_record cfg : record_mode cfg = true -> wm_arg cfg = 1.
Proof.
  intros H. unfold wm_arg, want_motion. rewrite H.
  now rewrite orb_true_r.
Qed.

(** X18.  The capture of record mode depends on the configured
    duration and on nothing else of the command line: with [-r], the
    options [-i], [-n], [-m] and the output format change neither what
    the loop of [main] reads nor what it stores nor the world it ends
    in. *)
Theorem record_capture_ignores_options cfg cfg' mx rs st w :
  record_mode cfg = true -> record_mode cfg' = true ->
  record_seconds cfg' = record_seconds cfg ->
  main_loop cfg' mx rs st w = main_loop cfg mx rs st w.
Proof.
  intros Hr Hr' Hs. unfold main_loop. apply loop_ext. intros s w0.
  destruct (Z.eq_dec (got_sig w0) 0) as [Hg|Hg].
  - rewrite !loop_pass_record by assumption.
    now rewrite Hs, !wm_arg_record by assumption.
  - now rewrite !loop_pass_signal by assumption.
Qed.

(** X19.  While it captures, record mode prints nothing to the output
    and draws no mark, whether marks are on or not: all that the loop of
    [main] can
    have written to the terminal are the restore sequences of signals
    caught on the way; it counts no output and stores nothing in
    [outs]. *)
Theorem record_capture_silent cfg mx rs st w st' w' :
  record_mode cfg = true ->
  main_loop cfg mx rs st w = Some (st', w') ->
  signals_only w w'
  /\ ls_outputs st' = ls_outputs st /\ ls_outs st' = ls_outs st.
Proof.
  intros Hr Hrun.
  apply (loop_invariant (loop_pass cfg mx rs)
           (fun s w0 => signals_only w w0
                        /\ ls_outputs s = ls_outputs st
                        /\ ls_outs s = ls_outs st)
           (fun s w0 => signals_only w w0
                        /\ ls_outputs s = ls_outputs st
                        /\ ls_outs s = ls_outs st))
    with (s := st) (w := w) (w' := w'); [| | exact Hrun].
  - intros s w0 c w0' (I1 & I2 & I3) Hp.
    assert (G : signals_only w w0' /\ ls_outputs (ctl_state c) = ls_outputs st
                /\ ls_outs (ctl_state c) = ls_outs st);
      [|destruct c; exact G].
    destruct (Z.eq_dec (got_sig w0) 0) as [Hg|Hg].
    2:{ rewrite (loop_pass_signal cfg mx rs s w0 Hg) in Hp.
        inversion Hp; subst. cbn [ctl_state]. auto. }
    rewrite (loop_pass_record cfg mx rs s w0 Hr Hg) in Hp. cbv zeta in Hp.
    pose proof (signals_only_trans _ _ _ I1
                  (fr_ticks _ signals_only_frame (S (ticks w0)) w0)) as T1.
    destruct (Dbl.le _ Dbl.zero).
    { inversion Hp; subst. cbn [ctl_state]. auto. }
    destruct (read_sgr_event_timeout _ _ _ _) as [[[rv e] w1]|] eqn:Hread;
      [|discriminate].
    pose proof (signals_only_trans _ _ _ T1
                  (changes_reader signals_only_frame _ _ _ _ _ _ Hread)) as T2.
    assert (E : ls_outputs (set_ev e s) = ls_outputs st
                /\ ls_outs (set_ev e s) = ls_outs st)
      by (destruct s; split; assumption).
    destruct (rv =? -1); [inversion Hp; subst; cbn [ctl_state]; tauto|].
    destruct (rv =? 0); [inversion Hp; subst; cbn [ctl_state]; tauto|].
    destruct (rv =? 2); [inversion Hp; subst; cbn [ctl_state]; tauto|].
    inversion Hp; subst. cbn [ctl_state].
    split; [exact T2|].
    destruct (ev_count (set_ev e s) <? mx); destruct s; exact E.
  - split; [apply signals_only_refl | split; reflexivity].
Qed.

(** ** The timeout of each wait *)







End RecordCapture.

Lemma record_capture_ignores_options_witness :
  main_loop (cfg_record 1 OUT_CSV true) 2048 (tick_clock 0) init_state
            three_clicks_then_quiet
  = main_loop (cfg_record 1 OUT_JSON false) 2048 (tick_clock 0) init_state
              three_clicks_then_quiet.
Proof.
  apply (record_capture_ignores_options (cfg_record 1 OUT_JSON false)
           (cfg_record 1 OUT_CSV true) 2048 (tick_clock 0) init_state
           three_clicks_then_quiet); reflexivity.
Defined.

Lemma record_capture_silent_witness :
  signals_only three_clicks_then_quiet
    (world_after (main_loop (cfg_record 1 OUT_CSV true) 2048 (tick_clock 0)
                    init_state) three_clicks_then_quiet)
  /\ ls_outputs
       (fst (match main_loop (cfg_record 1 OUT_CSV true) 2048 (tick_clock 0)
                     init_state three_clicks_then_quiet with
             | Some r => r
             | None => (init_state, three_clicks_then_quiet)
             end))
     = ls_outputs init_state
  /\ ls_outs
       (fst (match main_loop (cfg_record 1 OUT_CSV true) 2048 (tick_clock 0)
                     init_state three_clicks_then_quiet with
             | Some r => r
             | None => (init_state, three_clicks_then_quiet)
             end))
     = ls_outs init_state.
Proof.
  apply (record_capture_silent (cfg_record 1 OUT_CSV true) 2048 (tick_clock 0)
           init_state three_clicks_then_quiet); [reflexivity|].
  vm_compute. reflexivity.
Defined.


Section RecordDump.




End RecordDump.


(* ================================================================== *)
(** * The two renderings of the JSON output                             *)
(* ================================================================== *)

Section Renderings.

(** [s] without its spaces and newlines. *)
Fixpoint squeeze (s : string) : string :=
  match s with
  | EmptyString => EmptyString
  | String c s' =>
      if Chr.eqc c " " || Chr.eqc c Chr.LF then squeeze s'
      else String c (squeeze s')
  end.

Lemma squeeze_app (a b : string) :
  squeeze (a ++ b) = (squeeze a ++ squeeze b)%string.
Proof.
  induction a as [|c a IH]; cbn [append squeeze]; [reflexivity|].
  destruct (Chr.eqc c " " || Chr.eqc c Chr.LF); cbn [append]; now rewrite IH.
Qed.

Lemma squeeze_event e dt :
  squeeze (json_event_pretty e dt) = squeeze (json_event e dt).
Proof.
  unfold json_event_pretty, json_event. rewrite !squeeze_app.
  reflexivity.
Qed.

Lemma squeeze_head mode sa d n :
  squeeze (json_head true mode sa d n) = squeeze (json_head false mode sa d n).
Proof.
  unfold json_head. rewrite !squeeze_app. reflexivity.
Qed.

Lemma squeeze_tail : squeeze (json_tail true) = squeeze (json_tail false).
Proof. reflexivity. Qed.

(** The entries after the first, each behind its comma. *)
Definition commas (l : list (event_t * float)) : string :=
  lines (map (fun p => ("," ++ squeeze (json_event (fst p) (snd p)))%string) l).

Definition joined (l : list (event_t * float)) : string :=
  match l with
  | [] => ""
  | p :: l' => (squeeze (json_event (fst p) (snd p)) ++ commas l')%string
  end.

Lemma squeeze_entries_compact n (l : list (event_t * float)) : forall i,
  squeeze (for_each (fun j p => json_entry false n j (fst p) (snd p)) (S i) l)
  = commas l.
Proof.
  induction l as [|p l IH]; intros i; cbn [for_each]; [reflexivity|].
  rewrite squeeze_app, IH. unfold json_entry. cbn [Nat.eqb].
  rewrite squeeze_app. reflexivity.
Qed.

Lemma squeeze_entries_pretty (l : list (event_t * float)) : forall i n,
  n = (i + length l)%nat ->
  squeeze (for_each (fun j p => json_entry true n j (fst p) (snd p)) i l)
  = joined l.
Proof.
  induction l as [|p l IH]; intros i n Hn; cbn [for_each]; [reflexivity|].
  rewrite squeeze_app, (IH (S i) n) by (cbn [length] in Hn; lia).
  unfold json_entry. rewrite !squeeze_app, squeeze_event.
  cbn [length] in Hn. destruct l as [|q l].
  - replace (i + 1 <? n)%nat with false
      by (symmetry; apply Nat.ltb_ge; cbn [length] in Hn; lia).
    cbn [joined commas lines map fold_right].
    change (squeeze "") with "". change (squeeze nl) with "".
    cbn [append]. now rewrite !str_app_nil_r.
  - replace (i + 1 <? n)%nat with true
      by (symmetry; apply Nat.ltb_lt; cbn [length] in Hn; lia).
    cbn [joined commas lines map fold_right fst snd].
    change (squeeze ",") with ",". change (squeeze nl) with "".
    rewrite !str_app_assoc. reflexivity.
Qed.

Lemma squeeze_entries l :
  squeeze (entries_text true l) = squeeze (entries_text false l).
Proof.
  unfold entries_text.
  rewrite (squeeze_entries_pretty l O (length l) eq_refl).
  destruct l as [|p l]; [reflexivity|].
  cbn [for_each]. rewrite squeeze_app, squeeze_entries_compact.
  unfold json_entry. cbn [Nat.eqb]. reflexivity.
Qed.

Lemma print_json_history_out outs pretty mode sa d w :
  print_json_history outs pretty mode sa d w
  = Some (tt, set_out_buf
                (((out_buf w
                   ++ json_head pretty mode sa d
                        (count_press (fun o => ev_type (oe_ev o)) outs))
                  ++ entries_text pretty
                       (map (fun o => (oe_ev o, oe_dt o)) outs))
                 ++ json_tail pretty)%string w).
Proof.
  unfold entries_text. rewrite for_each_map, length_map. cbn [fst snd].
  destruct w; reflexivity.
Qed.

Lemma print_json_from_events_out events pretty mode sa d w :
  print_json_from_events events pretty mode sa d w
  = Some (tt, set_out_buf
                (((out_buf w
                   ++ json_head pretty mode sa d (count_press ev_type events))
                  ++ entries_text pretty (with_dt events))
                 ++ json_tail pretty)%string w).
Proof.
  unfold entries_text, with_dt.
  rewrite with_dt_from_length, <- for_each_with_dt.
  destruct w; reflexivity.
Qed.

(** X22.  The compact and the pretty rendering of the batched JSON
    output carry the same data: for the same events, mode, start time
    and duration, what [print_json_history] prints with [pretty] set is,
    once spaces and newlines are taken out, what it prints without; the
    same holds for [print_json_from_events]. *)
Theorem renderings_agree mode sa d w :
  (forall outs,
     exists w1 w2,
       print_json_history outs true mode sa d w = Some (tt, w1)
       /\ print_json_history outs false mode sa d w = Some (tt, w2)
       /\ squeeze (out_buf w1) = squeeze (out_buf w2))
  /\ (forall events,
        exists w1 w2,
          print_json_from_events events true mode sa d w = Some (tt, w1)
          /\ print_json_from_events events false mode sa d w = Some (tt, w2)
          /\ squeeze (out_buf w1) = squeeze (out_buf w2)).
Proof.
  split.
  - intros outs. rewrite !print_json_history_out.
    eexists; eexists; split; [reflexivity|]. split; [reflexivity|].
    cbn [out_buf set_out_buf]. rewrite !squeeze_app.
    now rewrite squeeze_head, squeeze_entries, squeeze_tail.
  - intros events. rewrite !print_json_from_events_out.
    eexists; eexists; split; [reflexivity|]. split; [reflexivity|].
    cbn [out_buf set_out_buf]. rewrite !squeeze_app.
    now rewrite squeeze_head, squeeze_entries, squeeze_tail.
Qed.

End Renderings.

(* ================================================================== *)
(** * The terminal: playback and the restore at the end of a run        *)
(* ================================================================== *)

Section Playback.




End Playback.

Section RestoreOnce.
























Lemma bind_inv {A B} (c : M A) (k : A -> M B) w b w' :
  bind c k w = Some (b, w') ->
  exists a w1, c w = Some (a, w1) /\ k a w1 = Some (b, w').
Proof.
  unfold bind. destruct (c w) as [[a w1]|]; [|discriminate].
  intros H. now exists a, w1.
Qed.





End RestoreOnce.


(* ================================================================== *)
(** * The command line                                                  *)
(* ================================================================== *)

Section PositiveInt.
Import Chr ChrFacts.

Lemma skip_spaces_shape s : forall n r,
  skip_spaces s = (n, r) ->
  exists sp,
    s = sp ++ r /\ forallb isspace sp = true /\ length sp = n.
Proof.
  induction s as [|c s IH]; intros n r H; cbn [skip_spaces] in H.
  - inversion H; subst. exists []. repeat split.
  - destruct (isspace c) eqn:Ec.
    + destruct (skip_spaces s) as [n' r'] eqn:E. inversion H; subst.
      destruct (IH n' r eq_refl) as (sp & -> & Hsp & Hl).
      exists (c :: sp). cbn [app forallb length]. rewrite Ec, Hsp, Hl.
      repeat split.
    + inversion H; subst. exists []. repeat split.
Qed.

Lemma skip_spaces_app sp t :
  forallb isspace sp = true ->
  match t with [] => True | c :: _ => isspace c = false end ->
  skip_spaces (sp ++ t) = (length sp, t).
Proof.
  intros Hsp Ht. induction sp as [|c sp IH]; cbn [app length].
  - destruct t as [|c t]; [reflexivity|]. cbn [skip_spaces]. now rewrite Ht.
  - cbn [forallb] in Hsp. apply andb_true_iff in Hsp. destruct Hsp as [Hc Hsp].
    cbn [skip_spaces]. rewrite Hc, (IH Hsp). reflexivity.
Qed.

Lemma digits_shape s : forall acc v n r,
  digits acc s = (v, n, r) ->
  exists ds,
    s = ds ++ r /\ all_digits ds = true /\ length ds = n
    /\ v = dec_from acc ds.
Proof.
  induction s as [|c s IH]; intros acc v n r H; cbn [digits] in H.
  - inversion H; subst. exists []. repeat split.
  - destruct (isdigit c) eqn:Ec.
    + destruct (digits (acc * 10 + digit_val c) s) as [[v' n'] r'] eqn:E.
      inversion H; subst.
      destruct (IH _ _ _ _ E) as (ds & -> & Hd & Hl & Hv).
      exists (c :: ds). cbn [app all_digits forallb length].
      rewrite Ec. fold (all_digits ds). rewrite Hd, Hl.
      repeat split. exact Hv.
    + inversion H; subst. exists []. repeat split.
Qed.

(** The strings that [parse_positive_int] takes: white space, an
    optional ['+'], and digits to the end. *)
Definition positive_numeral (str : list ascii) (v : Z) : Prop :=
  exists sp sign ds,
    str = sp ++ sign ++ ds
    /\ forallb isspace sp = true
    /\ (sign = [] \/ sign = ["+"%char])
    /\ ds <> [] /\ all_digits ds = true
    /\ v = dec_val ds /\ 0 < v <= Mach.LONG_MAX.

Lemma strtol_positive str v n :
  strtol str = (v, n, false) -> n = length str -> n <> O -> 0 < v ->
  positive_numeral str v.
Proof.
  unfold strtol. intros H Hn Hn0 Hv.
  destruct (skip_spaces str) as [nsp s1] eqn:Sk.
  destruct (skip_spaces_shape _ _ _ Sk) as (sp & Estr & Hsp & Hl).
  assert (Shape : forall (neg : bool) nsign s2 sign,
    s1 = sign ++ s2 -> length sign = nsign ->
    (let '(v0, nd, _) := digits 0 s2 in
     match nd with
     | O => (0, O, false)
     | S _ =>
         let sv := if neg then - v0 else v0 in
         let n0 := (nsp + nsign + nd)%nat in
         if sv >? Mach.LONG_MAX then (Mach.LONG_MAX, n0, true)
         else if sv <? Mach.LONG_MIN then (Mach.LONG_MIN, n0, true)
         else (sv, n0, false)
     end) = (v, n, false) ->
    neg = false /\ exists ds,
      s2 = ds /\ ds <> [] /\ all_digits ds = true /\ v = dec_val ds
      /\ v <= Mach.LONG_MAX).
  { intros neg nsign s2 sign E1 E2 E.
    destruct (digits 0 s2) as [[v0 nd] rest] eqn:Ed.
    destruct (digits_shape _ _ _ _ _ Ed) as (ds & Es2 & Hd & Hld & Hv0).
    destruct nd as [|nd]; [inversion E; subst; congruence|].
    cbv zeta in E.
    pose proof (dec_from_nonneg ds 0 Hd (Z.le_refl 0)) as Hnn.
    destruct ((if neg then - v0 else v0) >? Mach.LONG_MAX) eqn:G1;
      [discriminate|].
    destruct ((if neg then - v0 else v0) <? Mach.LONG_MIN) eqn:G2;
      [discriminate|].
    injection E as Ev En.
    destruct neg; [lia|]. split; [reflexivity|].
    assert (rest = []).
    { pose proof (f_equal (@length ascii) Estr) as L1.
      pose proof (f_equal (@length ascii) E1) as L2.
      pose proof (f_equal (@length ascii) Es2) as L3.
      rewrite length_app in L1, L2, L3.
      destruct rest; [reflexivity | cbn [length] in L3; lia]. }
    subst rest. rewrite app_nil_r in Es2. subst s2.
    exists ds. split; [reflexivity|].
    split; [destruct ds; [discriminate | discriminate]|].
    split; [exact Hd|]. split; [unfold dec_val; congruence|].
    rewrite Z.gtb_ltb in G1. apply Z.ltb_ge in G1. lia. }
  destruct s1 as [|c r].
  - cbn in H. inversion H; subst. congruence.
  - destruct (eqc c "-") eqn:Em.
    + apply eqc_true in Em. subst c.
      destruct (Shape true 1%nat r ["-"%char] eq_refl eq_refl H) as [F _].
      discriminate.
    + destruct (eqc c "+") eqn:Ep.
      * apply eqc_true in Ep. subst c.
        destruct (Shape false 1%nat r ["+"%char] eq_refl eq_refl H)
          as (_ & ds & -> & Hne & Hd & Hv' & Hmax).
        exists sp, ["+"%char], ds.
        split; [exact Estr|]. split; [exact Hsp|]. split; [now right|].
        split; [exact Hne|]. split; [exact Hd|]. split; [exact Hv'|].
        split; [exact Hv | exact Hmax].
      * destruct (Shape false O (c :: r) [] eq_refl eq_refl H)
          as (_ & ds & Eds & Hne & Hd & Hv' & Hmax).
        exists sp, [], ds. rewrite <- Eds.
        split; [exact Estr|]. split; [exact Hsp|]. split; [now left|].
        rewrite Eds.
        split; [exact Hne|]. split; [exact Hd|]. split; [exact Hv'|].
        split; [exact Hv | exact Hmax].
Qed.

Lemma strtol_of_positive sp sign ds :
  forallb isspace sp = true ->
  sign = [] \/ sign = ["+"%char] ->
  ds <> [] -> all_digits ds = true -> dec_val ds <= Mach.LONG_MAX ->
  strtol (sp ++ sign ++ ds)
  = (dec_val ds, length (sp ++ sign ++ ds), false).
Proof.
  intros Hsp Hsign Hne Hd Hmax.
  destruct ds as [|d ds]; [congruence|].
  pose proof Hd as Hd'. cbn [all_digits forallb] in Hd'.
  apply andb_true_iff in Hd'. destruct Hd' as [Hc _].
  pose proof (dec_from_nonneg (d :: ds) 0 Hd (Z.le_refl 0)) as Hnn.
  fold (dec_val (d :: ds)) in Hnn.
  assert (R1 : (dec_val (d :: ds) >? Mach.LONG_MAX) = false)
    by (rewrite Z.gtb_ltb; apply Z.ltb_ge; exact Hmax).
  assert (R2 : (dec_val (d :: ds) <? Mach.LONG_MIN) = false)
    by (apply Z.ltb_ge; unfold Mach.LONG_MIN; lia).
  unfold strtol. destruct Hsign as [-> | ->]; cbn [app].
  - rewrite (skip_spaces_app sp (d :: ds) Hsp (digit_not_space d Hc)).
    rewrite (digit_neq d "-" Hc eq_refl), (digit_neq d "+" Hc eq_refl).
    rewrite (digits_all (d :: ds) 0 Hd). fold (dec_val (d :: ds)).
    cbn [length]. rewrite R1, R2. rewrite length_app. cbn [length].
    f_equal. f_equal. lia.
  - rewrite (skip_spaces_app sp ("+"%char :: d :: ds) Hsp eq_refl).
    change (eqc "+" "-") with false. change (eqc "+" "+") with true. cbv iota.
    rewrite (digits_all (d :: ds) 0 Hd). fold (dec_val (d :: ds)).
    cbn [length]. rewrite R1, R2. rewrite length_app. cbn [length].
    f_equal. f_equal. lia.
Qed.

Lemma parse_positive_int_numeral s v :
  parse_positive_int (Some s) = Some v <-> positive_numeral (c_str s) v.
Proof.
  unfold parse_positive_int. split.
  - destruct (strtol (c_str s)) as [[v0 n] e] eqn:St.
    destruct e; [discriminate|]. cbn [orb].
    destruct (Nat.eqb n 0) eqn:E0; [discriminate|]. cbn [orb].
    destruct (Nat.eqb n (length (c_str s))) eqn:El; [|discriminate].
    cbn [negb orb].
    destruct (v0 <=? 0) eqn:Ev; [discriminate|].
    intros H. inversion H; subst v0.
    apply Nat.eqb_neq in E0. apply Nat.eqb_eq in El. apply Z.leb_gt in Ev.
    exact (strtol_positive _ _ _ St El E0 Ev).
  - intros (sp & sign & ds & -> & Hsp & Hsign & Hne & Hd & -> & Hv).
    rewrite (strtol_of_positive sp sign ds Hsp Hsign Hne Hd (proj2 Hv)).
    rewrite Nat.eqb_refl. cbn [orb negb].
    replace (Nat.eqb (length (sp ++ sign ++ ds)) 0) with false.
    + replace (dec_val ds <=? 0) with false; [reflexivity|].
      symmetry. apply Z.leb_gt. exact (proj1 Hv).
    + symmetry. apply Nat.eqb_neq. rewrite !length_app.
      destruct ds; [congruence | cbn [length]; lia].
Qed.

(** X25.  [parse_positive_int] takes a string exactly when it is made
    of white space (possibly none), an optional ['+'] and one or more
    decimal digits up to its end, the value of the digits being at
    least 1 and at most LONG_MAX; the result is that value.  A NULL
    string, a sign ['-'], a value of 0, a value beyond the range of
    [long] and any byte after the digits are refused. *)
Theorem parse_positive_int_accepts s v :
  parse_positive_int None = None
  /\ (parse_positive_int (Some s) = Some v
      <-> exists sp sign ds,
            c_str s = sp ++ sign ++ ds
            /\ forallb isspace sp = true
            /\ (sign = [] \/ sign = ["+"%char])
            /\ ds <> [] /\ all_digits ds = true
            /\ v = dec_val ds /\ 0 < v <= Mach.LONG_MAX).
Proof. split; [reflexivity | apply parse_positive_int_numeral]. Qed.

Lemma parse_positive_int_range s v :
  parse_positive_int s = Some v -> 0 < v <= Mach.LONG_MAX.
Proof.
  destruct s as [s|]; [|discriminate]. intros H.
  apply parse_positive_int_numeral in H.
  destruct H as (sp & sign & ds & _ & _ & _ & _ & _ & _ & Hv). exact Hv.
Qed.

End PositiveInt.

Section Options.

Variable strtod : list ascii -> float * nat * bool.

(** What an accepted option leaves true of the variables. *)
Definition options_sound (o : options) : Prop :=
  (o_click_mode o = true ->
   exists v, 0 < v <= Mach.LONG_MAX /\ o_click_N o = Mach.to_int v)
  /\ (o_record_mode o = true -> Dbl.le (o_record_seconds o) Dbl.zero = false)
  /\ (o_count_limit o = 0
      \/ exists v, 0 < v <= Mach.LONG_MAX /\ o_count_limit o = Mach.to_int v).

(** From [w] to [w'] nothing but stderr has changed. *)
Definition stderr_only (w w' : world) : Prop := w' = set_err_buf (err_buf w') w.

Lemma stderr_only_refl w : stderr_only w w.
Proof. unfold stderr_only. destruct w; reflexivity. Qed.

Lemma stderr_only_trans w1 w2 w3 :
  stderr_only w1 w2 -> stderr_only w2 w3 -> stderr_only w1 w3.
Proof.
  unfold stderr_only. intros H1 H2. rewrite H2 at 1. rewrite H1 at 1.
  destruct w1; reflexivity.
Qed.

Lemma stderr_only_print s w a w' :
  fprint_err s w = Some (a, w') -> stderr_only w w'.
Proof.
  intros H. inversion H; subst. unfold stderr_only. destruct w; reflexivity.
Qed.

Lemma parse_positive_double_positive s v :
  parse_positive_double strtod s = Some v -> Dbl.le v Dbl.zero = false.
Proof.
  unfold parse_positive_double. destruct s as [s|]; [|discriminate].
  destruct (strtod (Chr.c_str s)) as [[v0 n] e].
  destruct (e || Nat.eqb n 0 || negb (Nat.eqb n (length (Chr.c_str s))));
    [discriminate|].
  cbn [orb]. destruct (Dbl.le v0 Dbl.zero) eqn:E; [discriminate|].
  intros H. inversion H; subst. exact E.
Qed.

(** A step that prints and returns a code. *)
Lemma reject_step {A} (msg : M unit) code (r : Z + A) w w' :
  bind msg (fun _ => ret (inl code)) w = Some (r, w') ->
  (forall w0 u w1, msg w0 = Some (u, w1) -> stderr_only w0 w1) ->
  r = inl code /\ stderr_only w w'.
Proof.
  intros H Hm. unfold bind in H.
  destruct (msg w) as [[[] w1]|] eqn:E; [|discriminate].
  inversion H; subst. split; [reflexivity | exact (Hm _ _ _ E)].
Qed.

Lemma print_error_stderr code msg w u w' :
  print_error code msg w = Some (u, w') -> stderr_only w w'.
Proof. apply stderr_only_print. Qed.

Lemma print_help_stderr me w u w' :
  print_help me w = Some (u, w') -> stderr_only w w'.
Proof. apply stderr_only_print. Qed.

Lemma option_step_spec me g o w r w' :
  option_step strtod me g o w = Some (r, w') ->
  match r with
  | inr o' => w' = w /\ (options_sound o -> options_sound o')
  | inl code => (code = 0 \/ code = 2) /\ stderr_only w w'
  end.
Proof.
  unfold option_step. intros H.
  assert (Rej : forall (msg : M unit) code,
            (code = 0 \/ code = 2) ->
            (forall w0 u w1, msg w0 = Some (u, w1) -> stderr_only w0 w1) ->
            bind msg (fun _ => ret (inl code)) w = Some (r, w') ->
            match r with
            | inr o' => w' = w /\ (options_sound o -> options_sound o')
            | inl code => (code = 0 \/ code = 2) /\ stderr_only w w'
            end).
  { intros msg code Hc Hm E.
    destruct (reject_step msg code r w w' E Hm) as [-> S]. now split. }
  assert (Acc : forall o',
            (options_sound o -> options_sound o') ->
            ret (inr o') w = Some (r, w') ->
            match r with
            | inr o' => w' = w /\ (options_sound o -> options_sound o')
            | inl code => (code = 0 \/ code = 2) /\ stderr_only w w'
            end).
  { intros o' Hs E. inversion E; subst. now split. }
  assert (Keep : forall o',
            o_click_mode o' = o_click_mode o -> o_click_N o' = o_click_N o ->
            o_record_mode o' = o_record_mode o ->
            o_record_seconds o' = o_record_seconds o ->
            o_count_limit o' = o_count_limit o ->
            options_sound o -> options_sound o').
  { intros o' E1 E2 E3 E4 E5 (S1 & S2 & S3). unfold options_sound.
    rewrite E1, E2, E3, E4, E5. auto. }
  destruct (Chr.eqc (opt_ch g) "i");
    [refine (Acc _ (Keep _ _ _ _ _ _) H); reflexivity|].
  destruct (Chr.eqc (opt_ch g) "n").
  { destruct (parse_positive_int (opt_arg g)) as [v|] eqn:Ep;
      [|exact (Rej _ 2 (or_intror eq_refl) (print_error_stderr _ _) H)].
    refine (Acc _ _ H). intros S. destruct S as (S1 & S2 & _).
    split; [exact S1|]. split; [exact S2|]. right. exists v.
    split; [exact (parse_positive_int_range _ _ Ep) | reflexivity]. }
  destruct (Chr.eqc (opt_ch g) "c").
  { destruct (parse_positive_int (opt_arg g)) as [v|] eqn:Ep;
      [|exact (Rej _ 2 (or_intror eq_refl) (print_error_stderr _ _) H)].
    refine (Acc _ _ H). intros S. destruct S as (_ & S2 & S3).
    split; [|split; [exact S2 | exact S3]]. intros _. exists v.
    split; [exact (parse_positive_int_range _ _ Ep) | reflexivity]. }
  destruct (Chr.eqc (opt_ch g) "m");
    [refine (Acc _ (Keep _ _ _ _ _ _) H); reflexivity|].
  destruct (Chr.eqc (opt_ch g) "r").
  { destruct (parse_positive_double strtod (opt_arg g)) as [v|] eqn:Ep;
      [|exact (Rej _ 2 (or_intror eq_refl) (print_error_stderr _ _) H)].
    refine (Acc _ _ H). intros S. destruct S as (S1 & _ & S3).
    split; [exact S1|]. split; [|exact S3]. intros _.
    exact (parse_positive_double_positive _ _ Ep). }
  destruct (Chr.eqc (opt_ch g) "j");
    [refine (Acc _ (Keep _ _ _ _ _ _) H); reflexivity|].
  destruct (Chr.eqc (opt_ch g) "p");
    [refine (Acc _ (Keep _ _ _ _ _ _) H); reflexivity|].
  destruct (Chr.eqc (opt_ch g) "l");
    [refine (Acc _ (Keep _ _ _ _ _ _) H); reflexivity|].
  destruct (Chr.eqc (opt_ch g) "o").
  { destruct (opt_arg g) as [p|];
      [|exact (Rej _ 2 (or_intror eq_refl) (print_error_stderr _ _) H)].
    refine (Acc _ (Keep _ _ _ _ _ _) H); reflexivity. }
  destruct (Chr.eqc (opt_ch g) "a");
    [refine (Acc _ (Keep _ _ _ _ _ _) H); reflexivity|].
  destruct (Chr.eqc (opt_ch g) "O");
    [refine (Acc _ (Keep _ _ _ _ _ _) H); reflexivity|].
  destruct (Chr.eqc (opt_ch g) "N");
    [refine (Acc _ (Keep _ _ _ _ _ _) H); reflexivity|].
  destruct (Chr.eqc (opt_ch g) "h");
    [exact (Rej _ 0 (or_introl eq_refl) (print_help_stderr _) H)|].
  exact (Rej _ 2 (or_intror eq_refl) (print_error_stderr _ _) H).
Qed.

Lemma parse_options_spec me args : forall o w r w',
  parse_options strtod me args o w = Some (r, w') ->
  match r with
  | inr o' => w' = w /\ (options_sound o -> options_sound o')
  | inl code => (code = 0 \/ code = 2) /\ stderr_only w w'
  end.
Proof.
  induction args as [|g args IH]; intros o w r w' H; cbn [parse_options] in H.
  - inversion H; subst. split; [reflexivity | auto].
  - apply bind_inv in H. destruct H as (r1 & w1 & H1 & H).
    apply option_step_spec in H1. destruct r1 as [code|o1].
    + inversion H; subst. exact H1.
    + destruct H1 as [-> S1]. apply IH in H.
      destruct r as [code|o']; [exact H|].
      destruct H as [-> S2]. split; [reflexivity | auto].
Qed.

Lemma options_init_sound : options_sound options_init.
Proof.
  split; [discriminate|]. split; [discriminate|]. now left.
Qed.

Lemma check_exclusive_spec o w x w' :
  check_exclusive o w = Some (x, w') ->
  match x with
  | None =>
      w' = w
      /\ (o_click_mode o = true ->
          o_infinite o = false /\ o_count_limit o = 0
          /\ o_record_mode o = false)
      /\ (o_infinite o = true -> o_count_limit o = 0)
  | Some code =>
      code = 2
      /\ (w' = set_err_buf
                 (err_buf w
                  ++ esc_str "[31m(error " ++ Fmt.dec 2 ++ ")" ++ esc_str "[0m "
                  ++ "--infinite and --count are exclusive" ++ nl)%string w
          \/ w' = set_err_buf
                    (err_buf w
                     ++ esc_str "[31m(error " ++ Fmt.dec 2 ++ ")"
                     ++ esc_str "[0m "
                     ++ "--click is exclusive with --infinite/--count/--record"
                     ++ nl)%string w)
  end.
Proof.
  unfold check_exclusive, bind, print_error, fprint_err, modify, ret.
  destruct (o_infinite o), (o_click_mode o), (o_record_mode o),
    (o_count_limit o =? 0) eqn:E0; cbn [andb orb negb];
    intros H; inversion H; subst;
    try (split; [reflexivity|]; first [now left | now right]);
    try (apply Z.eqb_eq in E0);
    (split; [reflexivity|]); split; intros F; try discriminate; auto.
Qed.

(** X26.  A command line that the option loop and the tests of
    exclusivity of [main] let through has printed nothing, and leaves:
    with [-c], neither [-i] nor [-r] and no count, and a [click_N] that
    is the [int] of a positive [long]; with [-i], no count; with [-r],
    a duration that is not [<= 0]; a count that is 0 (no [-n]) or the
    [int] of a positive [long].  Of the three tests of exclusivity the
    third never fires: when one of them rejects the command line, the
    message is that of the first or of the second. *)
Theorem accepted_options me args w :
  (forall o w1 w2,
     parse_options strtod me args options_init w = Some (inr o, w1) ->
     check_exclusive o w1 = Some (None, w2) ->
     w2 = w
     /\ (o_click_mode o = true ->
         o_infinite o = false /\ o_count_limit o = 0
         /\ o_record_mode o = false
         /\ exists v, 0 < v <= Mach.LONG_MAX /\ o_click_N o = Mach.to_int v)
     /\ (o_infinite o = true -> o_count_limit o = 0)
     /\ (o_record_mode o = true ->
         Dbl.le (o_record_seconds o) Dbl.zero = false)
     /\ (o_count_limit o = 0
         \/ exists v, 0 < v <= Mach.LONG_MAX
                      /\ o_count_limit o = Mach.to_int v))
  /\ (forall o w1 code w2,
        check_exclusive o w1 = Some (Some code, w2) ->
        code = 2
        /\ (err_buf w2
            = (err_buf w1
               ++ esc_str "[31m(error " ++ Fmt.dec 2 ++ ")" ++ esc_str "[0m "
               ++ "--infinite and --count are exclusive" ++ nl)%string
            \/ err_buf w2
               = (err_buf w1
                  ++ esc_str "[31m(error " ++ Fmt.dec 2 ++ ")"
                  ++ esc_str "[0m "
                  ++ "--click is exclusive with --infinite/--count/--record"
                  ++ nl)%string)).
Proof.
  split.
  - intros o w1 w2 Hp Hc.
    apply parse_options_spec in Hp. destruct Hp as [-> Hs].
    destruct (Hs options_init_sound) as (S1 & S2 & S3).
    apply check_exclusive_spec in Hc. destruct Hc as (-> & C1 & C2).
    split; [reflexivity|]. split.
    + intros Hk. destruct (C1 Hk) as (A1 & A2 & A3). auto.
    + auto.
  - intros o w1 code w2 Hc. apply check_exclusive_spec in Hc.
    destruct Hc as (-> & [-> | ->]); (split; [reflexivity|]);
      [left | right]; reflexivity.
Qed.

(** ** The output file *)

Ltac stderr_solve :=
  unfold stderr_only;
  match goal with
  | |- _ = set_err_buf _ ?y => destruct y; reflexivity
  end.

Lemma startup_spec e o w mode code w' :
  startup e o w = Some ((mode, code), w') ->
  (forall m, mode = Some m ->
     o_outfile_path o <> None
     /\ (m = FOPEN_A <-> o_append_flag o = true)
     /\ (stat_outfile e = true ->
         access_outfile e = true
         /\ (m = FOPEN_W -> o_overwrite_flag o = true)))
  /\ (code = Some 4 ->
      mode = None /\ stat_outfile e = true
      /\ o_append_flag o = false /\ o_overwrite_flag o = false)
  /\ stderr_only w w'
  /\ (forall c, code = Some c -> c = 1 \/ c = 2 \/ c = 3 \/ c = 4).
Proof.
  unfold startup. cbv zeta.
  match goal with
  | |- context [if negb ?b then _ else _] => destruct b
  end; cbn [negb];
    unfold bind, print_error, print_warn, fprint_err, modify, ret.
  2:{ intros H; inversion H; subst.
      split; [intros m F; discriminate|].
      split; [intros F; discriminate|].
      split; [stderr_solve|].
      intros c F. inversion F. auto. }
  destruct (o_outfile_path o) as [p|] eqn:Ep; cbn [is_none andb].
  - rewrite andb_false_r.
    destruct (stat_outfile e), (o_append_flag o), (o_overwrite_flag o),
      (access_outfile e), (fopen_outfile e), (tcgetattr_ok e),
      (tcsetattr_ok e); cbn [negb andb];
      intros H; inversion H; subst;
      (split;
       [ intros m Hm; inversion Hm; subst;
         (split; [discriminate|]);
         (split; [split; intros F; first [reflexivity | discriminate F]|]);
         intros F; first [discriminate F | split; [reflexivity|]];
         intros G; first [reflexivity | discriminate G]
       | split;
         [ intros F; first [discriminate F | repeat split; reflexivity]
         | split;
           [ stderr_solve
           | intros c F; inversion F; auto ] ] ]).
  - destruct (o_append_flag o), (o_no_warn o), (tcgetattr_ok e),
      (tcsetattr_ok e); cbn [negb andb];
      intros H; inversion H; subst;
      (split; [intros m F; discriminate|]);
      (split; [intros F; discriminate|]);
      (split; [stderr_solve|]);
      intros c F; inversion F; auto.
Qed.

(** X27.  The start-up of [main] calls [fopen] on the output file with
    mode ["a"] exactly when [-a] was given, whatever else was, and
    otherwise with ["w"]; it calls [fopen] with ["w"] on a file that
    exists only when [-O] was given, and calls it on a file that exists
    only when the file is writable.  The exit code 4 is returned only
    for a file that exists with neither [-a] nor [-O], and then [fopen]
    has not been called. *)
Theorem existing_outfile_protected e o w mode code w' :
  startup e o w = Some ((mode, code), w') ->
  (forall m, mode = Some m ->
     o_outfile_path o <> None
     /\ (m = FOPEN_A <-> o_append_flag o = true)
     /\ (stat_outfile e = true ->
         access_outfile e = true
         /\ (m = FOPEN_W -> o_overwrite_flag o = true)))
  /\ (code = Some 4 ->
      mode = None /\ stat_outfile e = true
      /\ o_append_flag o = false /\ o_overwrite_flag o = false).
Proof.
  intros H. apply startup_spec in H. destruct H as (H1 & H2 & _). now split.
Qed.

(** ** The exit code *)



End Options.

Lemma existing_outfile_protected_witness :
  (forall m, Some FOPEN_W = Some m ->
     o_outfile_path (set_overwrite_flag
                       (set_outfile_path (bytes "out.csv") options_init))
     <> None
     /\ (m = FOPEN_A
         <-> o_append_flag (set_overwrite_flag
                              (set_outfile_path (bytes "out.csv") options_init))
             = true)
     /\ (true = true ->
         true = true
         /\ (m = FOPEN_W ->
             o_overwrite_flag
               (set_overwrite_flag
                  (set_outfile_path (bytes "out.csv") options_init)) = true)))
  /\ (@None Z = Some 4 ->
      Some FOPEN_W = None /\ true = true
      /\ o_append_flag (set_overwrite_flag
                          (set_outfile_path (bytes "out.csv") options_init))
         = false
      /\ o_overwrite_flag (set_overwrite_flag
                             (set_outfile_path (bytes "out.csv") options_init))
         = false).
Proof.
  apply (existing_outfile_protected
           {| isatty_stdin := true; isatty_stdout := true;
              open_dev_tty := false; isatty_dev_tty := false;
              stat_outfile := true; access_outfile := true;
              fopen_outfile := true; tcgetattr_ok := true;
              tcsetattr_ok := true; strerror_errno := "" |}
           (set_overwrite_flag (set_outfile_path (bytes "out.csv") options_init))
           three_clicks (Some FOPEN_W) None three_clicks).
  reflexivity.
Defined.


Lemma accepted_options_witness :
  exists o,
    parse_options (fun _ => (Dbl.zero, O, false)) "mouse-tool"
      [{| opt_ch := "c"; opt_arg := Some (bytes "3") |};
       {| opt_ch := "m"; opt_arg := None |}]
      options_init three_clicks
    = Some (inr o, three_clicks)
    /\ check_exclusive o three_clicks = Some (None, three_clicks)
    /\ o_infinite o = false /\ o_count_limit o = 0
    /\ o_record_mode o = false
    /\ exists v, 0 < v <= Mach.LONG_MAX /\ o_click_N o = Mach.to_int v.
Proof.
  eexists. split; [vm_compute; reflexivity|].
  split; [vm_compute; reflexivity|].
  refine (proj1 (proj2 (proj1 (accepted_options (fun _ => (Dbl.zero, O, false))
                                 "mouse-tool"
                                 [{| opt_ch := "c"; opt_arg := Some (bytes "3") |};
                                  {| opt_ch := "m"; opt_arg := None |}]
                                 three_clicks)
                          _ three_clicks three_clicks _ _)) _).
  - vm_compute; reflexivity.
  - vm_compute; reflexivity.
  - reflexivity.
Defined.
